(** * Ting Reader: download queue and bounded media cache

    A shallow embedding of the download store ([useDownloadStore]) and of the
    mobile cache manager ([getCachedFile], [getCacheStats],
    [ensureCacheLimits], [downloadToCache]), with the properties of the
    offline media cache subsystem stated over it. *)

From Stdlib Require Import List String Ascii ZArith NArith Lia Bool Arith.
From Stdlib Require Import Permutation Sorted DecimalString DecimalN.
Import ListNotations.
Open Scope string_scope.
Open Scope Z_scope.

(** ** JavaScript values used by both modules *)

Module Js.

(** Truthiness of a [string | null] value: [null] and the empty string are
    falsy, every other string is truthy. *)
Definition truthy (v : option string) : bool :=
  match v with
  | None => false
  | Some s => negb (s =? "")%string
  end.

(** [a || b] on [string | null] operands with a string on the right. *)
Definition orElse (a : option string) (b : string) : string :=
  match a with
  | Some s => if (s =? "")%string then b else s
  | None => b
  end.

(** A template literal renders [null] as the text "null". *)
Definition render (v : option string) : string :=
  match v with
  | Some s => s
  | None => "null"
  end.

Definition startsWith (s p : string) : bool := String.prefix p s.

Definition includes (s sub : string) : bool :=
  match String.index 0 sub s with
  | Some _ => true
  | None => false
  end.

Definition endsWith (s suffix : string) : bool :=
  let n := String.length s in
  let k := String.length suffix in
  (k <=? n)%nat && (String.substring (n - k) k s =? suffix)%string.

Definition lowerAscii (c : ascii) : ascii :=
  let n := nat_of_ascii c in
  if ((65 <=? n) && (n <=? 90))%nat then ascii_of_nat (n + 32) else c.

Fixpoint toLower (s : string) : string :=
  match s with
  | EmptyString => EmptyString
  | String c r => String (lowerAscii c) (toLower r)
  end.

(** [/^https?:\/\//i.test(s)] *)
Definition isHttpUrl (s : string) : bool :=
  let l := toLower s in
  String.prefix "http://" l || String.prefix "https://" l.

(** [s.replace(/\/$/, '')]: drops one trailing slash. *)
Definition stripTrailingSlash (s : string) : string :=
  if endsWith s "/" then String.substring 0 (String.length s - 1) s else s.

End Js.

(** ** The download store *)

Module DownloadStore.

Inductive Status := pending | downloading | completed | failed.

Definition Status_eqb (a b : Status) : bool :=
  match a, b with
  | pending, pending | downloading, downloading
  | completed, completed | failed, failed => true
  | _, _ => false
  end.

(** [Omit<DownloadTask, 'status' | 'progress' | 'timestamp' | 'error'>] *)
Record TaskInfo := {
  id : string;
  bookId : string;
  bookTitle : option string;
  themeColor : option string;
  chapterId : string;
  title : string;
  chapterNum : option Z;
  duration : option Z;
  coverUrl : option string
}.

(** [DownloadTask]: the descriptor spread with the four managed fields. *)
Record DownloadTask := {
  info : TaskInfo;
  status : Status;
  progress : Z;
  error : option string;
  timestamp : Z
}.

Definition taskId (t : DownloadTask) : string := id (info t).

Definition withStatus (t : DownloadTask) (s : Status) : DownloadTask :=
  {| info := info t; status := s; progress := progress t;
     error := error t; timestamp := timestamp t |}.

Definition withProgress (t : DownloadTask) (p : Z) : DownloadTask :=
  {| info := info t; status := status t; progress := p;
     error := error t; timestamp := timestamp t |}.

Definition withError (t : DownloadTask) (e : option string) : DownloadTask :=
  {| info := info t; status := status t; progress := progress t;
     error := e; timestamp := timestamp t |}.

(** The two fields of the zustand state. *)
Record DownloadState := {
  tasks : list DownloadTask;
  activeTaskId : option string
}.

(** Calls the store hands to the platform. *)
Inductive Effect :=
| DownloadChapter (url fileName task : string)
| DownloadCover (url book : string) (force : bool)
| MobileDownload (url fileName : string).

(** The [await] a [startDownload] call is parked on. *)
Inductive Stage := AwaitChapter | AwaitCover | AwaitMobile.

(** A suspended [startDownload] call with the values its closure holds. *)
Record Suspended := {
  call_taskId : string;
  call_task : DownloadTask;
  call_stage : Stage
}.

(** The store together with what surrounds it at run time: the suspended
    [startDownload] calls, the platform calls issued so far, and the ids
    [startDownload] has put into transfer, oldest first. *)
Record Runtime := {
  store : DownloadState;
  suspended : list Suspended;
  effects : list Effect;
  launched : list string
}.

(** What a thrown value looks like to [err instanceof Error]. *)
Inductive Thrown := ErrorObject (message : string) | OtherValue.

Inductive Settlement := Resolved | Rejected (e : Thrown).

(** [useAuthStore.getState()] *)
Record AuthStore := {
  activeUrl : option string;
  serverUrl : string;
  token : option string
}.

(** The host the store runs in: [window.electronAPI] and the auth store. *)
Record Host := {
  electronAPI : bool;
  authStore : AuthStore
}.

Definition setTasks (f : list DownloadTask -> list DownloadTask) (r : Runtime) : Runtime :=
  {| store := {| tasks := f (tasks (store r)); activeTaskId := activeTaskId (store r) |};
     suspended := suspended r; effects := effects r; launched := launched r |}.

Definition setActive (a : option string) (r : Runtime) : Runtime :=
  {| store := {| tasks := tasks (store r); activeTaskId := a |};
     suspended := suspended r; effects := effects r; launched := launched r |}.

Definition emit (e : Effect) (r : Runtime) : Runtime :=
  {| store := store r; suspended := suspended r;
     effects := effects r ++ [e]; launched := launched r |}.

Definition park (s : Suspended) (r : Runtime) : Runtime :=
  {| store := store r; suspended := suspended r ++ [s];
     effects := effects r; launched := launched r |}.

Definition noteLaunch (i : string) (r : Runtime) : Runtime :=
  {| store := store r; suspended := suspended r;
     effects := effects r; launched := launched r ++ [i] |}.

(** [tasks.map(t => t.id === taskId ? f(t) : t)] *)
Definition mapTask (i : string) (f : DownloadTask -> DownloadTask)
    (ts : list DownloadTask) : list DownloadTask :=
  map (fun t => if (taskId t =? i)%string then f t else t) ts.

Definition updateTaskProgress (i : string) (p : Z) (r : Runtime) : Runtime :=
  setTasks (mapTask i (fun t => withProgress t p)) r.

Definition completeTask (i : string) (r : Runtime) : Runtime :=
  setTasks (mapTask i (fun t => withProgress (withStatus t completed) 100)) r.

Definition failTask (i : string) (e : string) (r : Runtime) : Runtime :=
  setTasks (mapTask i (fun t => withError (withStatus t failed) (Some e))) r.

Definition clearCompleted (r : Runtime) : Runtime :=
  setTasks (filter (fun t => negb (Status_eqb (status t) completed))) r.

Definition removeTask (i : string) (r : Runtime) : Runtime :=
  setTasks (filter (fun t => negb (taskId t =? i)%string)) r.

Definition clearAllTasks (r : Runtime) : Runtime :=
  setActive None (setTasks (fun _ => []) r).

Section WithHost.

Variable host : Host.

Definition baseUrl : string :=
  Js.orElse (activeUrl (authStore host)) (serverUrl (authStore host)).

Definition downloadUrl (task : DownloadTask) : string :=
  baseUrl ++ "/api/stream/" ++ chapterId (info task) ++ "?token="
    ++ Js.render (token (authStore host)).

Definition fileNameOf (task : DownloadTask) : string :=
  chapterId (info task) ++ ".mp3".

(** The address a cover is fetched from: a relative path is resolved
    against the server, and the token is added to addresses of the server
    that carry none. *)
Definition coverDownloadUrl (cover : string) : string :=
  let cleanBaseUrl := Js.stripTrailingSlash baseUrl in
  let isAbsolute := Js.isHttpUrl cover || Js.startsWith cover "//" in
  let u := if isAbsolute then cover
           else cleanBaseUrl ++ (if Js.startsWith cover "/" then "" else "/") ++ cover in
  if (negb isAbsolute || Js.startsWith u cleanBaseUrl)
       && Js.truthy (token (authStore host))
       && negb (Js.includes u "token=")
  then u ++ (if Js.includes u "?" then "&" else "?") ++ "token="
         ++ Js.render (token (authStore host))
  else u.

(** [startDownload] up to its first [await]. *)
Definition startDownload (i : string) (r : Runtime) : Runtime :=
  let r1 := setActive (Some i) r in
  match find (fun t => (taskId t =? i)%string) (tasks (store r1)) with
  | None => setActive None r1
  | Some task =>
      let r2 :=
        setTasks (mapTask i (fun t => withError (withStatus t downloading) None)) r1 in
      let r3 := noteLaunch i r2 in
      if electronAPI host then
        park {| call_taskId := i; call_task := task; call_stage := AwaitChapter |}
          (emit (DownloadChapter (downloadUrl task) (fileNameOf task) i) r3)
      else
        park {| call_taskId := i; call_task := task; call_stage := AwaitMobile |}
          (emit (MobileDownload (downloadUrl task) (fileNameOf task)) r3)
  end.

Definition processQueue (r : Runtime) : Runtime :=
  if Js.truthy (activeTaskId (store r)) then r
  else
    match find (fun t => Status_eqb (status t) pending) (tasks (store r)) with
    | Some nextTask => startDownload (taskId nextTask) r
    | None => r
    end.

(** The [finally] block of [startDownload]. *)
Definition finallyBlock (r : Runtime) : Runtime :=
  processQueue (setActive None r).

Definition messageOf (e : Thrown) : string :=
  match e with
  | ErrorObject m => m
  | OtherValue => "Download failed"
  end.

(** [startDownload] from the [await] it is parked on, once that settles. *)
Definition resume (c : Suspended) (o : Settlement) (r : Runtime) : Runtime :=
  match o with
  | Rejected e => finallyBlock (failTask (call_taskId c) (messageOf e) r)
  | Resolved =>
      match call_stage c with
      | AwaitChapter =>
          if Js.truthy (coverUrl (info (call_task c))) then
            park {| call_taskId := call_taskId c; call_task := call_task c;
                    call_stage := AwaitCover |}
              (emit (DownloadCover
                       (coverDownloadUrl (Js.render (coverUrl (info (call_task c)))))
                       (bookId (info (call_task c))) true) r)
          else finallyBlock (completeTask (call_taskId c) r)
      | AwaitCover | AwaitMobile => finallyBlock (completeTask (call_taskId c) r)
      end
  end.

Definition retryTask (i : string) (r : Runtime) : Runtime :=
  processQueue
    (setTasks (mapTask i (fun t =>
       withError (withProgress (withStatus t pending) 0) None)) r).

(** [addTask]; [now] is the value of [Date.now()]. *)
Definition addTask (taskInfo : TaskInfo) (now : Z) (r : Runtime) : Runtime :=
  let ts := tasks (store r) in
  match find (fun t => (taskId t =? id taskInfo)%string
                       && negb (Status_eqb (status t) failed)) ts with
  | Some _ => r
  | None =>
      match find (fun t => (taskId t =? id taskInfo)%string
                           && Status_eqb (status t) failed) ts with
      | Some _ => retryTask (id taskInfo) r
      | None =>
          let newTask := {| info := taskInfo; status := pending; progress := 0;
                            error := None; timestamp := now |} in
          processQueue (setTasks (fun _ => newTask :: ts) r)
      end
  end.

Definition initializeQueue (r : Runtime) : Runtime :=
  processQueue
    (setActive None
       (setTasks (map (fun t =>
          if Status_eqb (status t) downloading then withStatus t pending else t)) r)).

Definition redownloadCover (i : string) (r : Runtime) : Runtime :=
  match find (fun t => (taskId t =? i)%string) (tasks (store r)) with
  | Some task =>
      if Js.truthy (coverUrl (info task)) && electronAPI host then
        emit (DownloadCover (coverDownloadUrl (Js.render (coverUrl (info task))))
                (bookId (info task)) true) r
      else r
  | None => r
  end.

(** Takes the first suspended call of task [i] off the list. *)
Fixpoint takeCall (i : string) (cs : list Suspended) : option (Suspended * list Suspended) :=
  match cs with
  | [] => None
  | c :: rest =>
      if (call_taskId c =? i)%string then Some (c, rest)
      else match takeCall i rest with
           | Some (c', rest') => Some (c', c :: rest')
           | None => None
           end
  end.

(** The awaited promise of task [i]'s suspended call settles. *)
Definition settle (i : string) (o : Settlement) (r : Runtime) : Runtime :=
  match takeCall i (suspended r) with
  | None => r
  | Some (c, rest) =>
      resume c o {| store := store r; suspended := rest;
                    effects := effects r; launched := launched r |}
  end.

(** What can happen to the store in the runs considered here. *)
Inductive Event :=
| AddTask (taskInfo : TaskInfo) (now : Z)
| Settle (i : string) (o : Settlement).

Definition step (r : Runtime) (e : Event) : Runtime :=
  match e with
  | AddTask taskInfo now => addTask taskInfo now r
  | Settle i o => settle i o r
  end.

Definition run (es : list Event) (r : Runtime) : Runtime := fold_left step es r.

(** The oldest suspended call settles. *)
Definition settleNext (o : Settlement) (r : Runtime) : Runtime :=
  match suspended r with
  | [] => r
  | c :: _ => settle (call_taskId c) o r
  end.

Definition settleAll (os : list Settlement) (r : Runtime) : Runtime :=
  fold_left (fun r o => settleNext o r) os r.

End WithHost.

(** The store as created: no task, no active task. *)
Definition initial : Runtime :=
  {| store := {| tasks := []; activeTaskId := None |};
     suspended := []; effects := []; launched := [] |}.

(** The store of a fresh process: [persist] restores [tasks] only. *)
Definition rehydrate (persisted : list DownloadTask) : Runtime :=
  {| store := {| tasks := persisted; activeTaskId := None |};
     suspended := []; effects := []; launched := [] |}.

Definition downloadingCount (r : Runtime) : nat :=
  List.length (filter (fun t => Status_eqb (status t) downloading) (tasks (store r))).

Definition statusAt (k : nat) (r : Runtime) : option Status :=
  option_map status (nth_error (tasks (store r)) k).

End DownloadStore.

(** ** The mobile cache manager *)

Module MobileCacheManager.

Definition MAX_CACHE_SIZE_BYTES : Z := 2 * 1024 * 1024 * 1024.
Definition MAX_FILES : nat := 50.
Definition CACHE_DIR : string := "media_cache".
(** The two constants of [downloadToCache]. *)
Definition LARGE_FILE_BYTES : Z := 50 * 1024 * 1024.
Definition CHUNK_SIZE : Z := 1024 * 1024.

(** *** The platform: file system and HTTP client

    [Filesystem] and [CapacitorHttp] are not code of the application. They
    are taken with the behaviour the plugin documents: [stat], [deleteFile]
    and [rename] reject when the file is missing, [readdir] when the
    directory is, [mkdir] when it is already there; [writeFile] with
    [recursive] creates or replaces; [appendFile] creates or extends;
    [rename] replaces an existing target in one step. Any call may also
    fail for a reason of its own, and then has no effect. Sizes and
    times are integers; console output and the [activeDownloads] set, which is used
    for logging only, are left out. *)

(** The body of an HTTP response, as the bytes it decodes to: their number
    and a tag that tells bodies apart. *)
Record Payload := { bytes : N; tag : nat }.

(** A file of the cache directory: what was written to it, in order. *)
Record File := { f_name : string; f_data : list Payload; f_mtime : Z }.

Definition payloadBytes (ps : list Payload) : Z :=
  fold_right (fun p acc => Z.of_N (bytes p) + acc) 0 ps.

Definition f_size (f : File) : Z := payloadBytes (f_data f).

(** The directory [media_cache] of the data directory. *)
Record FS := { dirExists : bool; entries : list File }.

Inductive Request :=
| Head (url : string)
| Get (url : string) (range : option (Z * Z)).

Record HttpResponse := {
  status : Z;
  headers : list (string * string);
  data : Payload
}.

(** Values a [catch] can receive: an error of the platform, or one of the
    two errors [downloadToCache] constructs, kept with the status they
    print. *)
Inductive Thrown :=
| NativeError (message : string)
| DownloadChunkFailed (code : Z)
| DownloadFailed (code : Z).

(** A call into the platform; [Detach] marks the call of
    [ensureCacheLimits] that [downloadToCache] starts without awaiting. *)
Inductive Op :=
| Readdir
| Mkdir
| Stat (n : string)
| DeleteFile (n : string)
| WriteFile (n : string) (d : Payload)
| AppendFile (n : string) (d : Payload)
| Rename (from to : string)
| GetUri (n : string)
| Http (q : Request)
| Detach.

(** What the code cannot control: which platform call fails (by its
    position in the run), what the server answers, the clock, and where the
    data directory lives. *)
Record Env := {
  fault : nat -> option string;
  respond : Request -> HttpResponse;
  clockAt : nat -> Z;
  uriOf : string -> string
}.

(** The state of a run: the directory, the number of platform calls made,
    the calls in the order they were issued, and the eviction passes that
    were started without being awaited and have not finished. Such a pass
    is suspended at the first [readdir] of [getCacheStats]; what is kept
    of it is how that call settled. *)
Record World := {
  fs : FS;
  tick : nat;
  trace : list Op;
  inFlight : list (Thrown + unit)
}.

Definition Result (A : Type) : Type := (Thrown + A)%type.

(** Computations that call the platform and may throw. *)
Definition M (A : Type) : Type := World -> Result A * World.

Definition ret {A} (a : A) : M A := fun w => (inr a, w).

Definition throw {A} (e : Thrown) : M A := fun w => (inl e, w).

Definition bind {A B} (m : M A) (k : A -> M B) : M B :=
  fun w => match m w with
           | (inl e, w1) => (inl e, w1)
           | (inr a, w1) => k a w1
           end.

Definition tryCatch {A} (m : M A) (h : Thrown -> M A) : M A :=
  fun w => match m w with
           | (inl e, w1) => h e w1
           | (inr a, w1) => (inr a, w1)
           end.

Declare Scope cache_scope.
Delimit Scope cache_scope with cache.
Notation "x <- m ;; k" := (bind m (fun x => k))
  (at level 61, m at next level, right associativity) : cache_scope.
Notation "m ;;; k" := (bind m (fun _ => k))
  (at level 61, right associativity) : cache_scope.
Open Scope cache_scope.

Definition lookupFile (n : string) (d : FS) : option File :=
  find (fun f => (f_name f =? n)%string) (entries d).

Definition removeEntry (n : string) (l : list File) : list File :=
  filter (fun f => negb (f_name f =? n)%string) l.

(** Replaces the file of that name where it stands, or adds it last. *)
Fixpoint putEntry (f : File) (l : list File) : list File :=
  match l with
  | [] => [f]
  | g :: rest =>
      if (f_name g =? f_name f)%string then f :: rest else g :: putEntry f rest
  end.

Record StatResult := { st_size : Z; st_mtime : Z; st_uri : string }.

Section WithEnv.

Variable env : Env.

(** One platform call: it is recorded, it takes one position of the run,
    and it throws without effect when the environment says so. *)
Definition call {A} (op : Op) (act : FS -> Z -> Result A * FS) : M A :=
  fun w =>
    let t := (trace w ++ [op])%list in
    match fault env (tick w) with
    | Some msg =>
        (inl (NativeError msg),
         {| fs := fs w; tick := S (tick w); trace := t; inFlight := inFlight w |})
    | None =>
        let '(r, d) := act (fs w) (clockAt env (tick w)) in
        (r, {| fs := d; tick := S (tick w); trace := t; inFlight := inFlight w |})
    end.

Definition readdir : M (list string) :=
  call Readdir (fun d _ =>
    if dirExists d then (inr (map f_name (entries d)), d)
    else (inl (NativeError "Directory does not exist"), d)).

Definition mkdir : M unit :=
  call Mkdir (fun d _ =>
    if dirExists d then (inl (NativeError "Directory exists"), d)
    else (inr tt, {| dirExists := true; entries := entries d |})).

Definition stat (n : string) : M StatResult :=
  call (Stat n) (fun d _ =>
    match lookupFile n d with
    | Some f => (inr {| st_size := f_size f; st_mtime := f_mtime f;
                        st_uri := uriOf env (CACHE_DIR ++ "/" ++ n) |}, d)
    | None => (inl (NativeError "File does not exist"), d)
    end).

Definition deleteFile (n : string) : M unit :=
  call (DeleteFile n) (fun d _ =>
    match lookupFile n d with
    | Some _ => (inr tt, {| dirExists := dirExists d; entries := removeEntry n (entries d) |})
    | None => (inl (NativeError "File does not exist"), d)
    end).

(** [writeFile] with [recursive: true]: creates or replaces the file. *)
Definition writeFile (n : string) (p : Payload) : M unit :=
  call (WriteFile n p) (fun d now =>
    (inr tt, {| dirExists := true;
                entries := putEntry {| f_name := n; f_data := [p]; f_mtime := now |}
                             (entries d) |})).

Definition appendFile (n : string) (p : Payload) : M unit :=
  call (AppendFile n p) (fun d now =>
    if dirExists d then
      let old := match lookupFile n d with Some f => f_data f | None => [] end in
      (inr tt, {| dirExists := true;
                  entries := putEntry {| f_name := n; f_data := old ++ [p]; f_mtime := now |}
                               (entries d) |})
    else (inl (NativeError "Directory does not exist"), d)).

(** [rename]: all or nothing; the file keeps its content and its time. *)
Definition rename (from to : string) : M unit :=
  call (Rename from to) (fun d _ =>
    match lookupFile from d with
    | Some f =>
        (inr tt, {| dirExists := dirExists d;
                    entries := putEntry {| f_name := to; f_data := f_data f;
                                           f_mtime := f_mtime f |}
                                 (removeEntry from (entries d)) |})
    | None => (inl (NativeError "File does not exist"), d)
    end).

Definition getUri (n : string) : M string :=
  call (GetUri n) (fun d _ => (inr (uriOf env (CACHE_DIR ++ "/" ++ n)), d)).

Definition http (q : Request) : M HttpResponse :=
  call (Http q) (fun d _ => (inr (respond env q), d)).

(** [ensureCacheLimits().catch(console.error)]: the pass is started and
    nobody awaits it. An async function runs up to its first [await] when
    it is called, so the pass issues the first [readdir] of
    [getCacheStats] here, before the caller goes on; how that call settles
    is kept in [inFlight], and the rest of the pass ([passAfter], below)
    runs when [finishPass] takes it up. The caller never sees an error of
    the pass. *)
Definition detach : M unit :=
  fun w =>
    let '(r, w1) :=
      (readdir ;;; ret tt)
        {| fs := fs w; tick := tick w; trace := trace w ++ [Detach];
           inFlight := inFlight w |} in
    (inr tt, {| fs := fs w1; tick := tick w1; trace := trace w1;
                inFlight := inFlight w1 ++ [r] |}).

(** *** [getCachedFile] *)

Definition getCachedFile (fileName : string) : M (option string) :=
  tryCatch
    (st <- stat fileName ;;
     if st_size st =? 0 then
       tryCatch (deleteFile fileName) (fun _ => ret tt) ;;;
       ret None
     else ret (Some (st_uri st)))
    (fun _ => ret None).

(** *** [removeCachedFile] *)

(** [err instanceof Error ? err.message : String(err)] *)
Definition messageText (err : Thrown) : string :=
  match err with
  | NativeError message => message
  | DownloadChunkFailed code =>
      "Download chunk failed: " ++ NilZero.string_of_int (Z.to_int code)
  | DownloadFailed code => "Download failed: " ++ NilZero.string_of_int (Z.to_int code)
  end.

Definition removeCachedFile (fileName : string) : M bool :=
  tryCatch (deleteFile fileName ;;; ret true)
    (fun err =>
       if Js.includes (messageText err) "not found" then ret true else ret false).

(** *** [getCacheStats] *)

Record ExtendedFileInfo := { name : string; size : Z; mtime : Z; uri : string }.

Record CacheStats := { totalSize : Z; validFiles : list ExtendedFileInfo }.

Definition emptyStats : CacheStats := {| totalSize := 0; validFiles := [] |}.

(** The [for] loop of [getCacheStats]. *)
Fixpoint statLoop (names : list string) (acc : CacheStats) : M CacheStats :=
  match names with
  | [] => ret acc
  | n :: rest =>
      if Js.endsWith n ".tmp" then statLoop rest acc
      else
        r <- tryCatch (st <- stat n ;; ret (Some st)) (fun _ => ret None) ;;
        match r with
        | Some st =>
            statLoop rest
              {| totalSize := totalSize acc + st_size st;
                 validFiles := validFiles acc ++
                   [{| name := n; size := st_size st; mtime := st_mtime st;
                       uri := st_uri st |}] |}
        | None => statLoop rest acc
        end
  end.

Definition getCacheStats : M CacheStats :=
  tryCatch
    (early <- tryCatch (readdir ;;; ret None)
                (fun _ => mkdir ;;; ret (Some emptyStats)) ;;
     match early with
     | Some st => ret st
     | None => names <- readdir ;; statLoop names emptyStats
     end)
    (fun _ => ret emptyStats).

(** *** [ensureCacheLimits] *)

(** [files.sort((a, b) => (a.mtime || 0) - (b.mtime || 0))]: ascending,
    entries of equal time keep their order. *)
Fixpoint insertByMtime (x : ExtendedFileInfo) (l : list ExtendedFileInfo) :=
  match l with
  | [] => [x]
  | g :: rest =>
      if mtime x <=? mtime g then x :: g :: rest else g :: insertByMtime x rest
  end.

Definition sortByMtime (l : list ExtendedFileInfo) : list ExtendedFileInfo :=
  fold_right insertByMtime [] l.

Definition sumSizes (l : list ExtendedFileInfo) : Z :=
  fold_right (fun f acc => size f + acc) 0 l.

(** How many entries the first pass takes from the front. *)
Definition countToDelete (files : list ExtendedFileInfo) : nat :=
  if (MAX_FILES <? List.length files)%nat then (List.length files - MAX_FILES)%nat else 0%nat.

(** The second pass over what the first left; [Number(file.size) || 0] is
    the size itself for the numbers [stat] reports. *)
Fixpoint sizePass (files : list ExtendedFileInfo) (currentSize : Z) : list ExtendedFileInfo :=
  match files with
  | [] => []
  | file :: rest =>
      if currentSize <=? MAX_CACHE_SIZE_BYTES then []
      else file :: sizePass rest (currentSize - size file)
  end.

(** [filesToDelete] for statistics that exceed a limit. *)
Definition filesToDelete (st : CacheStats) : list ExtendedFileInfo :=
  let files := sortByMtime (validFiles st) in
  let deletedByCount := firstn (countToDelete files) files in
  let currentSize := totalSize st - sumSizes deletedByCount in
  deletedByCount ++ sizePass (skipn (countToDelete files) files) currentSize.

Definition overLimit (st : CacheStats) : bool :=
  (MAX_CACHE_SIZE_BYTES <? totalSize st)
  || (MAX_FILES <? List.length (validFiles st))%nat.

(** The last [for] loop: nothing catches inside it. *)
Fixpoint deleteLoop (files : list ExtendedFileInfo) : M unit :=
  match files with
  | [] => ret tt
  | file :: rest => deleteFile (name file) ;;; deleteLoop rest
  end.

Definition ensureCacheLimits : M unit :=
  tryCatch
    (st <- getCacheStats ;;
     if overLimit st then deleteLoop (filesToDelete st) else ret tt)
    (fun _ => ret tt).

(** [getCacheStats] from the point where its first [readdir] has settled
    as [r]. *)
Definition getCacheStatsAfter (r : Thrown + unit) : M CacheStats :=
  tryCatch
    (early <- match r with
              | inr _ => ret None
              | inl _ => mkdir ;;; ret (Some emptyStats)
              end ;;
     match early with
     | Some st => ret st
     | None => names <- readdir ;; statLoop names emptyStats
     end)
    (fun _ => ret emptyStats).

(** [ensureCacheLimits] from that point. *)
Definition passAfter (r : Thrown + unit) : M unit :=
  tryCatch
    (st <- getCacheStatsAfter r ;;
     if overLimit st then deleteLoop (filesToDelete st) else ret tt)
    (fun _ => ret tt).

(** The oldest pass in flight runs to its end. The model lets the rest
    of a pass run in one piece, at any point after the pass was started:
    its calls are not mixed with the calls of the code that goes on. *)
Definition finishPass (w : World) : World :=
  match inFlight w with
  | [] => w
  | r :: rest =>
      snd (passAfter r {| fs := fs w; tick := tick w; trace := trace w; inFlight := rest |})
  end.

(** *** [downloadToCache] *)

Definition lookupHeader (k : string) (h : list (string * string)) : option string :=
  option_map snd (find (fun kv => (fst kv =? k)%string) h).

(** [headers['Content-Length'] || headers['content-length']], then
    [contentLength || '0']. *)
Definition contentLengthText (h : list (string * string)) : string :=
  let first := lookupHeader "Content-Length" h in
  let contentLength :=
    if Js.truthy first then first else lookupHeader "content-length" h in
  Js.orElse contentLength "0".

(** *** Numbers

    A JavaScript number is a double. The numbers of [downloadToCache] are
    integers or infinite: [parseInt] gives nothing else but [NaN], and the
    loop adds and subtracts integers. [Num z] is the double of value [z],
    an integer a double can hold; [-0] is not told from [0], which no
    comparison of the function does either. *)
Inductive Number := NaN | Num (z : Z) | PosInfinity | NegInfinity.

(** The integer a double can hold that is nearest to [z >= 0]: below
    [2 ^ 53] every integer is held; above, 53 bits are kept, and a tie
    goes to the even one. *)
Definition roundMagnitude (z : Z) : Z :=
  if z <? 2 ^ 53 then z
  else
    let e := Z.log2 z - 52 in
    let q := z / 2 ^ e in
    let r := z mod 2 ^ e in
    let half := 2 ^ (e - 1) in
    if (half <? r) || ((r =? half) && Z.odd q) then (q + 1) * 2 ^ e else q * 2 ^ e.

Definition roundZ (z : Z) : Z :=
  if z <? 0 then - roundMagnitude (- z) else roundMagnitude z.

(** The double nearest to the integer [z]; past the largest double it is
    infinite. *)
Definition toNumber (z : Z) : Number :=
  let r := roundZ z in
  if 2 ^ 1024 <=? r then PosInfinity
  else if r <=? - 2 ^ 1024 then NegInfinity
  else Num r.

(** [a > b] for an integer [b]; every comparison with [NaN] is false. *)
Definition greater (a : Number) (b : Z) : bool :=
  match a with
  | Num z => b <? z
  | PosInfinity => true
  | NaN | NegInfinity => false
  end.

(** [offset < totalSize] *)
Definition lessThan (offset : Z) (total : Number) : bool := greater total offset.

(** *** [parseInt]

    A string stands for the UTF-8 bytes of the JavaScript string. The
    white space [parseInt] skips is TAB, LF, VT, FF, CR, SP, and the code
    points U+00A0, U+1680, U+2000 to U+200A, U+2028, U+2029, U+202F,
    U+205F, U+3000 and U+FEFF. *)
Definition isWhite (c : ascii) : bool :=
  let n := nat_of_ascii c in
  ((n =? 32) || ((9 <=? n) && (n <=? 13)))%nat.

(** U+00A0 is the bytes C2 A0. *)
Definition isWhite2 (c1 c2 : ascii) : bool :=
  ((nat_of_ascii c1 =? 194) && (nat_of_ascii c2 =? 160))%nat.

(** The white space of three bytes: E1 9A 80; E2 80 80 to E2 80 8A,
    E2 80 A8, E2 80 A9, E2 80 AF; E2 81 9F; E3 80 80; EF BB BF. *)
Definition isWhite3 (c1 c2 c3 : ascii) : bool :=
  let a := nat_of_ascii c1 in
  let b := nat_of_ascii c2 in
  let c := nat_of_ascii c3 in
  (((a =? 225) && (b =? 154) && (c =? 128))
   || ((a =? 226) && (b =? 128)
       && (((128 <=? c) && (c <=? 138)) || (c =? 168) || (c =? 169) || (c =? 175)))
   || ((a =? 226) && (b =? 129) && (c =? 159))
   || ((a =? 227) && (b =? 128) && (c =? 128))
   || ((a =? 239) && (b =? 187) && (c =? 191)))%nat.

Fixpoint trimStart (s : string) : string :=
  match s with
  | String c1 r1 =>
      if isWhite c1 then trimStart r1
      else
        match r1 with
        | String c2 r2 =>
            if isWhite2 c1 c2 then trimStart r2
            else
              match r2 with
              | String c3 r3 => if isWhite3 c1 c2 c3 then trimStart r3 else s
              | EmptyString => s
              end
        | EmptyString => s
        end
  | EmptyString => s
  end.

Definition digitValue (c : ascii) : option Z :=
  let n := nat_of_ascii c in
  if ((48 <=? n) && (n <=? 57))%nat then Some (Z.of_nat (n - 48))
  else if ((97 <=? n) && (n <=? 102))%nat then Some (Z.of_nat (n - 87))
  else if ((65 <=? n) && (n <=? 70))%nat then Some (Z.of_nat (n - 55))
  else None.

(** The longest run of digits of the radix at the front of [s], as a
    number; [None] when there is no digit. *)
Fixpoint digits (radix : Z) (s : string) (acc : option Z) : option Z :=
  match s with
  | String c r =>
      match digitValue c with
      | Some v =>
          if v <? radix
          then digits radix r (Some (radix * match acc with Some a => a | None => 0 end + v))
          else acc
      | None => acc
      end
  | EmptyString => acc
  end.

(** [parseInt(s)] without a radix: the value of the digits, as the double
    nearest to it (the engines round exactly; the standard lets them
    round less well past the twentieth digit), or [NaN] without a
    digit. *)
Definition parseInt (s : string) : Number :=
  let s1 := trimStart s in
  let '(sign, s2) :=
    match s1 with
    | String "-" r => (-1, r)
    | String "+" r => (1, r)
    | _ => (1, s1)
    end in
  let magnitude :=
    match s2 with
    | String "0" (String "x" r) | String "0" (String "X" r) => digits 16 r None
    | _ => digits 10 s2 None
    end in
  match magnitude with
  | Some m => toNumber (sign * m)
  | None => NaN
  end.

(** [totalSize > 0 && totalSize > 50 * 1024 * 1024] *)
Definition useChunks (total : Number) : bool :=
  greater total 0 && greater total LARGE_FILE_BYTES.

(** [offset += CHUNK_SIZE]; the sum is far from the largest double. *)
Definition nextOffset (offset : Z) : Z := roundZ (offset + CHUNK_SIZE).

(** [Math.min(offset + CHUNK_SIZE - 1, totalSize - 1)], each sum and
    difference being rounded; the loop asks for it only while
    [offset < totalSize], so for a number or for [Infinity]. *)
Definition chunkEnd (total : Number) (offset : Z) : Z :=
  let a := roundZ (roundZ (offset + CHUNK_SIZE) - 1) in
  match total with
  | Num t => Z.min a (roundZ (t - 1))
  | _ => a
  end.

(** Computations that may also never settle. [None] says that the model
    has stopped following one: it follows the loop below for as many
    chunks as its fuel says. *)
Definition P (A : Type) : Type := World -> option (Result A * World).

Definition settles {A} (m : M A) : P A := fun w => Some (m w).

Definition bindP {A B} (m : P A) (k : A -> P B) : P B :=
  fun w => match m w with
           | None => None
           | Some (inl e, w1) => Some (inl e, w1)
           | Some (inr a, w1) => k a w1
           end.

Definition tryCatchP {A} (m : P A) (h : Thrown -> M A) : P A :=
  fun w => match m w with
           | None => None
           | Some (inl e, w1) => Some (h e w1)
           | Some (inr a, w1) => Some (inr a, w1)
           end.

(** The [while (offset < totalSize)] loop. For a size of at most
    [2 ^ 73] it ends after the chunks of the size; for a larger one, and
    for [Infinity], the offset stops growing below the size and the loop
    ends only when a request fails or is refused. *)
Fixpoint chunkLoop (fuel : nat) (url tempFileName : string) (total : Number) (offset : Z)
    : P unit :=
  if lessThan offset total then
    match fuel with
    | O => fun _ => None
    | S fuel' =>
        fun w =>
          match http (Get url (Some (offset, chunkEnd total offset))) w with
          | (inl e, w1) => Some (inl e, w1)
          | (inr response, w1) =>
              if 400 <=? status response
              then Some (inl (DownloadChunkFailed (status response)), w1)
              else
                match (if offset =? 0 then writeFile tempFileName (data response)
                       else appendFile tempFileName (data response)) w1 with
                | (inl e, w2) => Some (inl e, w2)
                | (inr _, w2) =>
                    chunkLoop fuel' url tempFileName total (nextOffset offset) w2
                end
          end
    end
  else settles (ret tt).

(** The single transfer of the [else] branch. *)
Definition singleTransfer (url tempFileName : string) : M unit :=
  response <- http (Get url None) ;;
  if status response =? 200 then writeFile tempFileName (data response)
  else throw (DownloadFailed (status response)).

Definition downloadToCache (fuel : nat) (url fileName : string) : P string :=
  let tempFileName := fileName ++ ".tmp" in
  tryCatchP
    (bindP (settles (tryCatch (readdir ;;; ret tt) (fun _ => mkdir))) (fun _ =>
     bindP (settles (http (Head url))) (fun headResponse =>
     let totalSize := parseInt (contentLengthText (headers headResponse)) in
     bindP (settles (tryCatch (deleteFile tempFileName) (fun _ => ret tt))) (fun _ =>
     bindP (if useChunks totalSize
            then chunkLoop fuel url tempFileName totalSize 0
            else settles (singleTransfer url tempFileName)) (fun _ =>
     settles (rename tempFileName fileName ;;;
              detach ;;;
              getUri fileName))))))
    (fun err =>
       tryCatch (deleteFile tempFileName) (fun _ => ret tt) ;;;
       throw err).

End WithEnv.

(** The non-temp files of the directory, as [getCacheStats] counts them. *)
Definition cached (d : FS) : list File :=
  filter (fun f => negb (Js.endsWith (f_name f) ".tmp")) (entries d).

Definition cachedBytes (d : FS) : Z :=
  fold_right (fun f acc => f_size f + acc) 0 (cached d).

(** A directory lists each name once, and lists nothing when missing. *)
Definition wellFormed (d : FS) : Prop :=
  NoDup (map f_name (entries d)) /\ (dirExists d = false -> entries d = []).

Definition noFault (env : Env) : Prop := forall n, fault env n = None.

End MobileCacheManager.

(** ** The callers

    Two functions of the pages that use the store and the cache. What they
    do to the state of their component (refs, selections, console output)
    is left out. *)

Module DownloadsPage.

Import DownloadStore.

(** [clearHistory], once confirmed; [tasks] is the list the page was
    rendered with. *)
Definition clearHistory (tasks : list DownloadTask) (r : Runtime) : Runtime :=
  let failedTasks := filter (fun t => Status_eqb (status t) failed) tasks in
  fold_left (fun r t => removeTask (taskId t) r) failedTasks r.

End DownloadsPage.

Module Player.

Import MobileCacheManager.

Section WithPlayer.

Variable env : Env.
Variable API_BASE_URL : string.
Variable token : option string.
(** [currentChapter?.id] *)
Variable currentChapterId : option string.


End WithPlayer.

End Player.

(** ** What the claims speak of: the download store *)

Module StoreSpec.

Import DownloadStore.

(** The discipline the queue keeps when every task has a name. *)
Record SingleFlight (r : Runtime) : Prop := {
  sf_ids : NoDup (map taskId (tasks (store r)));
  sf_named : Forall (fun t => taskId t <> "") (tasks (store r));
  sf_flight :
    match activeTaskId (store r) with
    | None =>
        suspended r = [] /\
        forall t, In t (tasks (store r)) -> status t <> downloading
    | Some a =>
        a <> "" /\
        (exists c, suspended r = [c] /\ call_taskId c = a) /\
        forall t, In t (tasks (store r)) -> status t = downloading -> taskId t = a
    end
}.

Definition namedEvent (e : Event) : Prop :=
  match e with
  | AddTask taskInfo _ => id taskInfo <> ""
  | Settle _ _ => True
  end.

(** [r'] is [r] once the transfer of task [i] is over, in either way. *)
Definition finishedAs (i : string) (r r' : Runtime) : Prop :=
  launched r' = launched r /\
  suspended r' = [] /\
  activeTaskId (store r') = None /\
  exists f,
    (forall t, info (f t) = info t) /\
    (forall t, status (f t) = completed \/ status (f t) = failed) /\
    tasks (store r') = mapTask i f (tasks (store r)).

Definition isPending (t : DownloadTask) : bool := Status_eqb (status t) pending.

(** The pending tasks that stand before position [k]. *)
Definition pendingBefore (k : nat) (ts : list DownloadTask) : nat :=
  List.length (filter isPending (firstn k ts)).

Definition demote (t : DownloadTask) : DownloadTask :=
  if Status_eqb (status t) downloading then withStatus t pending else t.

Definition newTask (taskInfo : TaskInfo) (now : Z) : DownloadTask :=
  {| info := taskInfo; status := pending; progress := 0; error := None; timestamp := now |}.

(** A task descriptor of a chapter, without cover. *)
Definition chapter (i : string) : TaskInfo :=
  {| id := i; bookId := "book"; bookTitle := None; themeColor := None;
     chapterId := i; title := i; chapterNum := None; duration := None;
     coverUrl := None |}.

(** A host without [electronAPI]. *)
Definition phone : Host :=
  {| electronAPI := false;
     authStore := {| activeUrl := None; serverUrl := "http://server"; token := Some "k" |} |}.

Definition persistedTask (i : string) (s : Status) : DownloadTask :=
  {| info := chapter i; status := s; progress := 0; error := None; timestamp := 0 |}.

Definition threeQueued : Runtime :=
  addTask phone (chapter "T3") 3
    (addTask phone (chapter "T2") 2 (addTask phone (chapter "T1") 1 initial)).

End StoreSpec.

(** ** What the claims speak of: the cache *)

Module CacheSpec.

Import MobileCacheManager.

(** Oldest first. *)
Definition byMtime (a b : ExtendedFileInfo) : Prop := mtime a <= mtime b.

(** How many entries of the sorted list a pass over [files] of total size
    [total] selects. *)
Definition evictCount (files : list ExtendedFileInfo) (total : Z) : nat :=
  let sorted := sortByMtime files in
  let c := countToDelete sorted in
  (c + List.length (sizePass (skipn c sorted) (total - sumSizes (firstn c sorted))))%nat.

Definition isCached (f : File) : bool := negb (Js.endsWith (f_name f) ".tmp").

(** What [stat] reports of a file, as [getCacheStats] keeps it. *)
Definition infoOf (env : Env) (f : File) : ExtendedFileInfo :=
  {| name := f_name f; size := f_size f; mtime := f_mtime f;
     uri := uriOf env (CACHE_DIR ++ "/" ++ f_name f) |}.

Definition sizeSum (l : list File) : Z := fold_right (fun f acc => f_size f + acc) 0 l.

(** The statistics of a directory every file of which can be examined. *)
Definition statsOf (env : Env) (d : FS) : CacheStats :=
  {| totalSize := cachedBytes d; validFiles := map (infoOf env) (cached d) |}.

Definition removeAll (names : list string) (l : list File) : list File :=
  fold_left (fun acc n => removeEntry n acc) names l.

(** No platform call fails among the next [n]. *)
Definition quietFor (env : Env) (w : World) (n : nat) : Prop :=
  forall j, (j < n)%nat -> fault env (tick w + j) = None.

Definition advance (w : World) (d : FS) (ops : list Op) : World :=
  {| fs := d; tick := tick w + List.length ops; trace := (trace w ++ ops)%list;
     inFlight := inFlight w |}.

Definition listed (names : list string) (n : string) : bool :=
  existsb (fun m => (m =? n)%string) names.

Definition deleteOps (files : list ExtendedFileInfo) : list Op :=
  map (fun x => DeleteFile (name x)) files.

(** The directory with the files of these names gone. *)
Definition without (names : list string) (d : FS) : FS :=
  {| dirExists := dirExists d; entries := removeAll names (entries d) |}.

(** What one pass selects in a directory every file of which can be
    examined: nothing under the limits, else [filesToDelete]. *)
Definition selected (env : Env) (d : FS) : list ExtendedFileInfo :=
  if overLimit (statsOf env d) then filesToDelete (statsOf env d) else [].

Definition statOps (d : FS) : list Op :=
  Readdir :: Readdir :: map (fun f => Stat (f_name f)) (cached d).

Definition MiB : Z := 1024 * 1024.

(** How many chunks the loop still fetches at [offset]. *)
Definition chunkCount (total offset : Z) : nat :=
  Z.to_nat ((total - offset + CHUNK_SIZE - 1) / CHUNK_SIZE).

(** The next [n] byte ranges from [offset]. *)
Fixpoint rangesFrom (total offset : Z) (n : nat) : list (Z * Z) :=
  match n with
  | O => []
  | S k => (offset, chunkEnd (Num total) offset) :: rangesFrom total (offset + CHUNK_SIZE) k
  end.

(** The byte ranges of a transfer of [total] bytes. *)
Definition chunkRanges (total : Z) : list (Z * Z) :=
  rangesFrom total 0 (chunkCount total 0).

(** [rs] cuts the bytes [lo .. hi] into consecutive ranges, in order, each
    of 1 MiB except possibly the last, which is not longer. *)
Fixpoint tiles (lo : Z) (rs : list (Z * Z)) (hi : Z) : Prop :=
  match rs with
  | [] => lo = hi + 1
  | (a, b) :: rest =>
      a = lo /\ a <= b /\
      (b - a + 1 = CHUNK_SIZE \/ (rest = [] /\ b - a + 1 <= CHUNK_SIZE)) /\
      tiles (b + 1) rest hi
  end.

Definition dataAt (n : string) (d : FS) : list Payload :=
  match lookupFile n d with
  | Some f => f_data f
  | None => []
  end.

(** The body the server sends for a byte range. *)
Definition payload (env : Env) (url : string) (r : Z * Z) : Payload :=
  data (respond env (Get url (Some r))).

Definition refused (env : Env) (url : string) (r : Z * Z) : bool :=
  400 <=? status (respond env (Get url (Some r))).

(** The ranges before the first one the server refuses. *)
Fixpoint accepted (env : Env) (url : string) (rs : list (Z * Z)) : list (Z * Z) :=
  match rs with
  | [] => []
  | r :: rest => if refused env url r then [] else r :: accepted env url rest
  end.

(** Fetching and storing the given ranges, one after the other: the first
    body creates the temp file when [first] is set, every other body is
    appended. *)
Fixpoint chunkOps (env : Env) (url tmp : string) (first : bool) (rs : list (Z * Z))
    : list Op :=
  match rs with
  | [] => []
  | r :: rest =>
      Http (Get url (Some r))
      :: (if first then WriteFile tmp (payload env url r)
          else AppendFile tmp (payload env url r))
      :: chunkOps env url tmp false rest
  end.

(** The size the HEAD probe reports, as [downloadToCache] reads it. *)
Definition probe (env : Env) (url : string) : Number :=
  parseInt (contentLengthText (headers (respond env (Head url)))).

Definition knownSize (total : Number) : Z :=
  match total with Num n => n | _ => 0 end.

(** The steps of [downloadToCache] up to the transfer. *)
Definition prepare (env : Env) (url tmp : string) : M Number :=
  tryCatch (readdir env ;;; ret tt) (fun _ => mkdir env) ;;;
  headResponse <- http env (Head url) ;;
  tryCatch (deleteFile env tmp) (fun _ => ret tt) ;;;
  ret (parseInt (contentLengthText (headers headResponse))).

Definition transfer (env : Env) (fuel : nat) (url tmp : string) (total : Number) : P unit :=
  if useChunks total then chunkLoop env fuel url tmp total 0
  else settles (singleTransfer env url tmp).

(** The steps after the transfer. *)
Definition promote (env : Env) (tmp fileName : string) : M string :=
  rename env tmp fileName ;;; detach env ;;; getUri env fileName.

(** The [try] block of [downloadToCache]. *)
Definition attempt (env : Env) (fuel : nat) (url fileName : string) : P string :=
  bindP (settles (prepare env url (fileName ++ ".tmp"))) (fun total =>
  bindP (transfer env fuel url (fileName ++ ".tmp") total) (fun _ =>
  settles (promote env (fileName ++ ".tmp") fileName))).

(** Its [catch] block. *)
Definition cleanup (env : Env) (tmp : string) (err : Thrown) : M string :=
  tryCatch (deleteFile env tmp) (fun _ => ret tt) ;;; throw err.

(** Everything a complete transfer stores. *)
Definition fullPayload (env : Env) (url : string) : list Payload :=
  if useChunks (probe env url)
  then map (payload env url) (chunkRanges (knownSize (probe env url)))
  else [data (respond env (Get url None))].

(** [c] leaves the file named [m] as it is, however it ends. *)
Definition Keeps {A} (m : string) (c : M A) : Prop :=
  forall w, lookupFile m (fs (snd (c w))) = lookupFile m (fs w).

(** The calls every download starts with. *)
Definition openingOps (d : FS) (url tmp : string) : list Op :=
  ((if dirExists d then [Readdir] else [Readdir; Mkdir])
   ++ [Http (Head url); DeleteFile tmp])%list.

(** The calls a download ends with when the transfer went well. *)
Definition closingOps (tmp fileName : string) : list Op :=
  [Rename tmp fileName; Detach; Readdir; GetUri fileName].


(** [w'] comes from [w] by steps that keep the directory well formed and
    start no pass. *)
Definition tidy (w w' : World) : Prop :=
  (wellFormed (fs w) -> wellFormed (fs w')) /\ inFlight w' = inFlight w.

Definition Tidy {A} (c : M A) : Prop := forall w, tidy w (snd (c w)).


Definition GiB : Z := 1024 * 1024 * 1024.

(** A file holding one body of [n] bytes. *)
Definition fileOf (n : string) (sz : Z) (mt : Z) : File :=
  {| f_name := n; f_data := [{| bytes := Z.to_N sz; tag := 0 |}]; f_mtime := mt |}.

(** A server that announces [len] as the content length, answers a ranged
    request with status 206 and the bytes asked for, and any other request
    with status 200; [failing] tells the platform calls that fail. *)
Definition server (len : string) (failing : nat -> option string) : Env :=
  {| fault := failing;
     respond := fun q =>
       match q with
       | Head _ => {| status := 200; headers := [("content-length", len)];
                      data := {| bytes := 0; tag := 0 |} |}
       | Get _ None => {| status := 200; headers := []; data := {| bytes := 7; tag := 1 |} |}
       | Get _ (Some (a, b)) =>
           {| status := 206; headers := [];
              data := {| bytes := Z.to_N (b - a + 1); tag := Z.to_nat (a / CHUNK_SIZE) |} |}
       end;
     clockAt := fun n => Z.of_nat n;
     uriOf := fun p => "file:///data/" ++ p |}.

(** A server that announces no size and sends a body of 3 GiB. *)
Definition bulky : Env :=
  {| fault := fun _ => None;
     respond := fun q =>
       {| status := 200; headers := [];
          data := {| bytes := Z.to_N (3 * 1024 * 1024 * 1024); tag := 0 |} |};
     clockAt := fun n => Z.of_nat n;
     uriOf := fun p => "file:///data/" ++ p |}.

Definition never : nat -> option string := fun _ => None.

Definition failingAt (k : nat) : nat -> option string :=
  fun n => if (n =? k)%nat then Some "I/O error" else None.

Definition worldOf (l : list File) : World :=
  {| fs := {| dirExists := true; entries := l |}; tick := 0; trace := [];
     inFlight := [] |}.

(** Four files of 1 GiB and a temp file. *)
Definition fourGiB : World :=
  worldOf [fileOf "a.mp3" GiB 4; fileOf "b.mp3" GiB 2; fileOf "c.mp3" GiB 3;
           fileOf "d.mp3" GiB 1; fileOf "e.mp3.tmp" GiB 0].

(** Fifty-one files of 1 MiB, the one named "0" being the oldest. *)
Definition fiftyOne : World :=
  worldOf (map (fun i => fileOf (String (ascii_of_nat (48 + i)) ".mp3") MiB (Z.of_nat i))
             (seq 0 51)).

Definition oneFile : World := worldOf [fileOf "a.mp3" 5 1; fileOf "empty.mp3" 0 2].

Fixpoint distinctb {A} (eqb : A -> A -> bool) (l : list A) : bool :=
  match l with
  | [] => true
  | x :: rest => negb (existsb (eqb x) rest) && distinctb eqb rest
  end.

End CacheSpec.

(** ** What the further properties speak of: the queue *)

Module QueueSpec.

Import DownloadStore StoreSpec.

(** Everything that can be done to the store from outside, and the
    settlement of a transfer. *)
Inductive Action :=
| DoAddTask (taskInfo : TaskInfo) (now : Z)
| DoSettle (i : string) (o : Settlement)
| DoRetryTask (i : string)
| DoRemoveTask (i : string)
| DoClearCompleted
| DoClearAllTasks
| DoUpdateTaskProgress (i : string) (p : Z)
| DoInitializeQueue
| DoRedownloadCover (i : string).

Definition perform (host : Host) (r : Runtime) (a : Action) : Runtime :=
  match a with
  | DoAddTask taskInfo now => addTask host taskInfo now r
  | DoSettle i o => settle host i o r
  | DoRetryTask i => retryTask host i r
  | DoRemoveTask i => removeTask i r
  | DoClearCompleted => clearCompleted r
  | DoClearAllTasks => clearAllTasks r
  | DoUpdateTaskProgress i p => updateTaskProgress i p r
  | DoInitializeQueue => initializeQueue host r
  | DoRedownloadCover i => redownloadCover host i r
  end.

Definition performAll (host : Host) (acts : list Action) (r : Runtime) : Runtime :=
  fold_left (perform host) acts r.

(** No task waits while nothing is in transfer. *)
Definition neverIdleWithWork (r : Runtime) : Prop :=
  activeTaskId (store r) = None ->
  forall t, In t (tasks (store r)) -> status t <> pending.

(** The actions under which one transfer at a time is kept: tasks are
    added with a name, and the queue is neither cleared nor initialized
    while a transfer may be suspended. *)
Definition orderly (a : Action) : Prop :=
  match a with
  | DoAddTask taskInfo _ => id taskInfo <> ""
  | DoClearAllTasks | DoInitializeQueue => False
  | _ => True
  end.

(** The reset [retryTask] applies, and the marks of [startDownload]. *)
Definition resetTask (t : DownloadTask) : DownloadTask :=
  withError (withProgress (withStatus t pending) 0) None.

Definition markDownloading (t : DownloadTask) : DownloadTask :=
  withError (withStatus t downloading) None.

Definition pendingCount (r : Runtime) : nat :=
  List.length (filter isPending (tasks (store r))).

Definition settled (t : DownloadTask) : Prop :=
  status t = completed \/ status t = failed.

Definition isFailed (t : DownloadTask) : bool := Status_eqb (status t) failed.

(** Some task of [l] has the id of [t]. *)
Definition idIn (l : list DownloadTask) (t : DownloadTask) : bool :=
  existsb (fun x => (taskId x =? taskId t)%string) l.

(** A chapter added at time 1 whose transfer went well. *)
Definition doneChapter : DownloadTask :=
  {| info := chapter "a"; status := completed; progress := 100; error := None;
     timestamp := 1 |}.

(** Two chapters are added; the first one fails, is retried and waits
    behind the second; the second is removed while in transfer. *)
Definition mixedActions : list Action :=
  [DoAddTask (chapter "a") 1; DoAddTask (chapter "b") 2; DoUpdateTaskProgress "a" 40;
   DoSettle "a" (Rejected OtherValue); DoRetryTask "a"; DoRemoveTask "b";
   DoClearCompleted; DoRedownloadCover "a"].

(** The suspended call of [threeQueued]. *)
Definition firstCall : Suspended :=
  {| call_taskId := "T1"; call_task := newTask (chapter "T1") 1; call_stage := AwaitMobile |}.

(** A persisted list that says two tasks were in transfer. *)
Definition afterCrash : Runtime :=
  rehydrate [persistedTask "a" downloading; persistedTask "b" downloading;
             persistedTask "c" pending].

Definition withFailures : Runtime :=
  rehydrate [persistedTask "a" failed; persistedTask "b" pending; persistedTask "c" failed].

End QueueSpec.

(** ** What the further properties speak of: the size probe *)

Module ProbeSpec.

Import MobileCacheManager.

(** A number as a server writes it in a header. *)
Definition decimal (n : N) : string := NilZero.string_of_uint (N.to_uint n).

(** The response to the probe announces [n] bytes: under [Content-Length],
    or under [content-length] when the first is absent or empty. *)
Definition announces (h : list (string * string)) (n : N) : Prop :=
  lookupHeader "Content-Length" h = Some (decimal n) \/
  (Js.truthy (lookupHeader "Content-Length" h) = false /\
   lookupHeader "content-length" h = Some (decimal n)).

End ProbeSpec.

(** ** Lists *)

Module ListFacts.

Lemma find_none_iff {A} (p : A -> bool) (l : list A) :
  find p l = None <-> forall x, In x l -> p x = false.
Proof.
  split.
  - intros H x Hx. exact (find_none p l H x Hx).
  - induction l as [|a l IH]; intros H; simpl; [reflexivity|].
    rewrite (H a (or_introl eq_refl)). apply IH. intros x Hx. apply H. now right.
Qed.

End ListFacts.

(** ** The download store: proofs *)

Module StoreTheory.

Import DownloadStore StoreSpec ListFacts.

Section StoreFacts.

Variable host : Host.

Lemma taskId_mapTask_fun i f :
  (forall t, info (f t) = info t) ->
  forall t, taskId (if (taskId t =? i)%string then f t else t) = taskId t.
Proof. intros Hf t. destruct (taskId t =? i)%string; unfold taskId; now rewrite ?Hf. Qed.

Lemma map_taskId_mapTask i f ts :
  (forall t, info (f t) = info t) -> map taskId (mapTask i f ts) = map taskId ts.
Proof.
  intros Hf. unfold mapTask. rewrite map_map. apply map_ext.
  apply taskId_mapTask_fun, Hf.
Qed.

Lemma Forall_named_mapTask i f ts :
  (forall t, info (f t) = info t) ->
  Forall (fun t => taskId t <> "") ts ->
  Forall (fun t => taskId t <> "") (mapTask i f ts).
Proof.
  intros Hf H. unfold mapTask. apply Forall_map.
  eapply Forall_impl; [|exact H]. intros t Ht.
  now rewrite taskId_mapTask_fun.
Qed.

Lemma in_mapTask i f ts t' :
  In t' (mapTask i f ts) ->
  exists t, In t ts /\ t' = (if (taskId t =? i)%string then f t else t).
Proof.
  unfold mapTask. rewrite in_map_iff. intros [t [E H]]. exists t. now split.
Qed.

Lemma truthy_named a : a <> "" -> Js.truthy (Some a) = true.
Proof. intros H. simpl. apply String.eqb_neq in H. now rewrite H. Qed.

Lemma startDownload_absent i r :
  (forall t, In t (tasks (store r)) -> taskId t <> i) ->
  startDownload host i r = setActive None r.
Proof.
  intros H. unfold startDownload.
  replace (find _ _) with (@None DownloadTask).
  - reflexivity.
  - symmetry. apply find_none_iff. intros t Ht. simpl in Ht.
    apply String.eqb_neq. now apply H.
Qed.

(** What [startDownload] leaves behind when the task is there. *)
Lemma startDownload_present i r p :
  In p (tasks (store r)) -> taskId p = i ->
  exists c,
    call_taskId c = i /\
    tasks (store (startDownload host i r)) =
      mapTask i (fun t => withError (withStatus t downloading) None) (tasks (store r)) /\
    activeTaskId (store (startDownload host i r)) = Some i /\
    suspended (startDownload host i r) = (suspended r ++ [c])%list /\
    launched (startDownload host i r) = (launched r ++ [i])%list.
Proof.
  intros Hin Hid. unfold startDownload. simpl.
  destruct (find (fun t => (taskId t =? i)%string) (tasks (store r))) as [task|] eqn:F.
  - destruct (electronAPI host); eexists; simpl; repeat split; reflexivity.
  - exfalso. rewrite find_none_iff in F. specialize (F p Hin). simpl in F.
    apply String.eqb_neq in F. contradiction.
Qed.

Lemma single_flight_start r p :
  NoDup (map taskId (tasks (store r))) ->
  Forall (fun t => taskId t <> "") (tasks (store r)) ->
  suspended r = [] ->
  (forall t, In t (tasks (store r)) -> status t <> downloading) ->
  In p (tasks (store r)) ->
  SingleFlight (startDownload host (taskId p) r).
Proof.
  intros Hnd Hnm Hs Hq Hin.
  destruct (startDownload_present (taskId p) r p Hin eq_refl)
    as [c [Hc [Ht [Ha [Hsu _]]]]].
  constructor.
  - rewrite Ht, map_taskId_mapTask; auto.
  - rewrite Ht. apply Forall_named_mapTask; auto.
  - rewrite Ha, Ht, Hsu, Hs. split; [|split].
    + rewrite Forall_forall in Hnm. now apply Hnm.
    + exists c. now split.
    + intros t' Hin' Hst. apply in_mapTask in Hin' as [t [Hint E]]. subst t'.
      destruct (taskId t =? taskId p)%string eqn:E.
      * apply String.eqb_eq in E. exact E.
      * exfalso. exact (Hq t Hint Hst).
Qed.

Lemma single_flight_processQueue r :
  NoDup (map taskId (tasks (store r))) ->
  Forall (fun t => taskId t <> "") (tasks (store r)) ->
  activeTaskId (store r) = None ->
  suspended r = [] ->
  (forall t, In t (tasks (store r)) -> status t <> downloading) ->
  SingleFlight (processQueue host r).
Proof.
  intros Hnd Hnm Ha Hs Hq. unfold processQueue. rewrite Ha. simpl.
  destruct (find _ _) as [p|] eqn:F.
  - apply find_some in F as [Hin _]. now apply single_flight_start.
  - constructor; auto. rewrite Ha. now split.
Qed.

Lemma processQueue_busy r a :
  activeTaskId (store r) = Some a -> a <> "" -> processQueue host r = r.
Proof. intros Ha Hn. unfold processQueue. rewrite Ha, truthy_named; auto. Qed.

(** After the transfer of [a] is over, in either way, nothing is in
    transfer and the queue moves on. *)
Lemma single_flight_finally r a f :
  (forall t, info (f t) = info t) ->
  (forall t, status (f t) <> downloading) ->
  NoDup (map taskId (tasks (store r))) ->
  Forall (fun t => taskId t <> "") (tasks (store r)) ->
  suspended r = [] ->
  (forall t, In t (tasks (store r)) -> status t = downloading -> taskId t = a) ->
  SingleFlight (finallyBlock host (setTasks (mapTask a f) r)).
Proof.
  intros Hf Hst Hnd Hnm Hs Hd. unfold finallyBlock.
  apply single_flight_processQueue; simpl.
  - rewrite map_taskId_mapTask; auto.
  - apply Forall_named_mapTask; auto.
  - reflexivity.
  - exact Hs.
  - intros t' Hin' Hdl. apply in_mapTask in Hin' as [t [Hint E]]. subst t'.
    destruct (taskId t =? a)%string eqn:E.
    + exact (Hst t Hdl).
    + apply String.eqb_neq in E. apply E. now apply Hd.
Qed.

Lemma single_flight_addTask taskInfo now r :
  id taskInfo <> "" -> SingleFlight r -> SingleFlight (addTask host taskInfo now r).
Proof.
  intros Hn [Hnd Hnm Hfl]. unfold addTask.
  destruct (find _ _) as [x|] eqn:F1; [now constructor|].
  destruct (find (fun t => (taskId t =? id taskInfo)%string && Status_eqb (status t) failed) _)
    as [x|] eqn:F2.
  - (* a failed task of that id is reset *)
    unfold retryTask.
    set (f := fun t => withError (withProgress (withStatus t pending) 0) None).
    destruct (activeTaskId (store r)) as [a|] eqn:Ha.
    + destruct Hfl as [Hna [[c [Hs Hc]] Hd]].
      rewrite (processQueue_busy _ a); auto.
      constructor; simpl.
      * rewrite map_taskId_mapTask; auto.
      * apply Forall_named_mapTask; auto.
      * rewrite Ha. split; [auto|split; [eauto|]].
        intros t' Hin' Hdl. apply in_mapTask in Hin' as [t [Hint E]]. subst t'.
        destruct (taskId t =? id taskInfo)%string; [discriminate|]. now apply Hd.
    + destruct Hfl as [Hs Hq].
      apply single_flight_processQueue; simpl; auto.
      * rewrite map_taskId_mapTask; auto.
      * apply Forall_named_mapTask; auto.
      * intros t' Hin' Hdl. apply in_mapTask in Hin' as [t [Hint E]]. subst t'.
        destruct (taskId t =? id taskInfo)%string; [discriminate|]. now apply (Hq t).
  - (* a new task goes to the front *)
    assert (Hfresh : ~ In (id taskInfo) (map taskId (tasks (store r)))).
    { rewrite in_map_iff. intros [t [E Hin]].
      rewrite find_none_iff in F1, F2.
      specialize (F1 t Hin). specialize (F2 t Hin). simpl in F1, F2.
      apply String.eqb_eq in E. rewrite E in F1, F2. simpl in F1, F2.
      destruct (Status_eqb (status t) failed); discriminate. }
    set (newTask := {| info := taskInfo; status := pending; progress := 0;
                       error := None; timestamp := now |}).
    assert (Hnd' : NoDup (map taskId (newTask :: tasks (store r)))).
    { simpl. constructor; auto. }
    assert (Hnm' : Forall (fun t => taskId t <> "") (newTask :: tasks (store r))).
    { constructor; auto. }
    destruct (activeTaskId (store r)) as [a|] eqn:Ha.
    + destruct Hfl as [Hna [[c [Hs Hc]] Hd]].
      rewrite (processQueue_busy _ a); auto.
      constructor; simpl; auto.
      rewrite Ha. split; [auto|split; [eauto|]].
      intros t [<-|Hin] Hdl; [discriminate|]. now apply Hd.
    + destruct Hfl as [Hs Hq].
      apply single_flight_processQueue; simpl; auto.
      intros t [<-|Hin]; [discriminate|]. now apply Hq.
Qed.

Lemma single_flight_settle i o r :
  SingleFlight r -> SingleFlight (settle host i o r).
Proof.
  intros [Hnd Hnm Hfl]. unfold settle.
  destruct (takeCall i (suspended r)) as [[c rest]|] eqn:T; [|now constructor].
  destruct (activeTaskId (store r)) as [a|] eqn:Ha.
  2:{ destruct Hfl as [Hs _]. rewrite Hs in T. discriminate. }
  destruct Hfl as [Hna [[c0 [Hs Hc]] Hd]].
  rewrite Hs in T. simpl in T.
  destruct (call_taskId c0 =? i)%string eqn:E; [|discriminate].
  injection T as <- <-. apply String.eqb_eq in E.
  set (r0 := {| store := store r; suspended := []; effects := effects r;
                launched := launched r |}).
  assert (Hfin : forall f, (forall t, info (f t) = info t) ->
                           (forall t, status (f t) <> downloading) ->
                           SingleFlight (finallyBlock host (setTasks (mapTask a f) r0))).
  { intros f H1 H2. apply single_flight_finally; auto. }
  unfold resume. rewrite Hc.
  destruct o as [|e].
  - destruct (call_stage c0).
    + destruct (Js.truthy (coverUrl (info (call_task c0)))).
      * constructor; simpl; auto. rewrite Ha. split; [auto|split; [|auto]].
        eexists. split; [reflexivity|]. reflexivity.
      * apply Hfin; intros; [reflexivity|discriminate].
    + apply Hfin; intros; [reflexivity|discriminate].
    + apply Hfin; intros; [reflexivity|discriminate].
  - apply Hfin; intros; [reflexivity|discriminate].
Qed.

Lemma single_flight_initial : SingleFlight initial.
Proof.
  constructor; simpl.
  - constructor.
  - constructor.
  - split; [reflexivity|]. intros t [].
Qed.

Lemma single_flight_run es r :
  Forall namedEvent es -> SingleFlight r -> SingleFlight (run host es r).
Proof.
  revert r. induction es as [|e es IH]; intros r Hes Hr; simpl; [exact Hr|].
  inversion Hes as [|? ? He Hes']; subst. apply IH; [exact Hes'|].
  destruct e as [taskInfo now|i o]; simpl.
  - now apply single_flight_addTask.
  - now apply single_flight_settle.
Qed.

Lemma filter_at_most_one {A} (g : A -> string) (p : A -> bool) a (l : list A) :
  NoDup (map g l) ->
  (forall x, In x l -> p x = true -> g x = a) ->
  (List.length (filter p l) <= 1)%nat.
Proof.
  induction l as [|x l IH]; intros Hnd H; simpl; [lia|].
  inversion Hnd as [|? ? Hx Hnd']; subst.
  destruct (p x) eqn:Px.
  - assert (Hnone : filter p l = []).
    { destruct (filter p l) as [|y ys] eqn:F; [reflexivity|].
      assert (Hy : In y (filter p l)) by (rewrite F; now left).
      apply filter_In in Hy as [Hy Py].
      exfalso. apply Hx. rewrite in_map_iff. exists y. split; [|exact Hy].
      rewrite (H y (or_intror Hy) Py). symmetry. apply H; [now left|exact Px]. }
    simpl. rewrite Hnone. simpl. lia.
  - apply IH; auto. intros y Hy. apply H. now right.
Qed.

Lemma Status_eqb_eq a b : Status_eqb a b = true <-> a = b.
Proof. destruct a, b; simpl; split; intros H; congruence. Qed.

Lemma single_flight_count r : SingleFlight r -> (downloadingCount r <= 1)%nat.
Proof.
  intros [Hnd Hnm Hfl]. unfold downloadingCount.
  destruct (activeTaskId (store r)) as [a|].
  - destruct Hfl as [_ [_ Hd]].
    apply (filter_at_most_one taskId _ a); auto.
    intros t Hin Ht. apply Hd; auto. now apply Status_eqb_eq.
  - destruct Hfl as [_ Hq].
    replace (filter _ _) with (@nil DownloadTask); [simpl; lia|].
    symmetry. destruct (filter _ _) as [|y ys] eqn:F; [reflexivity|].
    assert (Hy : In y (y :: ys)) by now left.
    rewrite <- F in Hy. apply filter_In in Hy as [Hy Py].
    apply Status_eqb_eq in Py. exfalso. exact (Hq y Hy Py).
Qed.

(** Single flight, for runs in which every added task has a name: at most
    one task is [downloading] after any sequence of [addTask] calls and
    settled transfers. *)
Theorem named_runs_single_flight es :
  Forall namedEvent es -> (downloadingCount (run host es initial) <= 1)%nat.
Proof.
  intros Hes. apply single_flight_count, single_flight_run; auto.
  apply single_flight_initial.
Qed.

End StoreFacts.

Section QueueProgress.

Variable host : Host.

Lemma settleAll_split n os r :
  settleAll host os r = settleAll host (skipn n os) (settleAll host (firstn n os) r).
Proof.
  unfold settleAll. rewrite <- fold_left_app, firstn_skipn. reflexivity.
Qed.

Lemma settleAll_firstn_add a b os r :
  settleAll host (firstn (a + b) os) r =
  settleAll host (firstn b (skipn a os)) (settleAll host (firstn a os) r).
Proof.
  unfold settleAll. rewrite <- fold_left_app. f_equal.
  revert os. induction a as [|a IH]; intros os; simpl; [reflexivity|].
  destruct os as [|o os]; simpl.
  - now rewrite firstn_nil.
  - now rewrite IH.
Qed.

Lemma settleAll_idle os r : suspended r = [] -> settleAll host os r = r.
Proof.
  intros H. induction os as [|o os IH]; [reflexivity|].
  change (settleAll host os (settleNext host o r) = r).
  unfold settleNext. rewrite H. exact IH.
Qed.

(** A transfer in flight alone is over after one settlement, or after two
    when a cover is fetched as well; the queue then moves on. *)
Lemma settle_in_flight r c os :
  suspended r = [c] -> (2 <= List.length os)%nat ->
  exists n r',
    (n = 1 \/ n = 2)%nat /\
    finishedAs (call_taskId c) r r' /\
    settleAll host (firstn n os) r = processQueue host r'.
Proof.
  intros Hs Hlen.
  destruct os as [|o1 [|o2 os]]; simpl in Hlen; try lia.
  set (r0 := {| store := store r; suspended := []; effects := effects r;
                launched := launched r |}).
  assert (Hstep : forall o, settleNext host o r = resume host c o r0).
  { intros o. unfold settleNext, settle. rewrite Hs. simpl.
    now rewrite String.eqb_refl. }
  assert (Hfail : forall e (x : Runtime), tasks (store x) = tasks (store r) ->
            launched x = launched r -> suspended x = [] ->
            finishedAs (call_taskId c) r
              (setActive None (failTask (call_taskId c) (messageOf e) x))).
  { intros e x Ht Hl Hsx. unfold finishedAs. simpl.
    split; [exact Hl|]. split; [exact Hsx|]. split; [reflexivity|].
    exists (fun t => withError (withStatus t failed) (Some (messageOf e))).
    split; [intros; reflexivity|]. split; [intros; now right|]. now rewrite Ht. }
  assert (Hdone : forall (x : Runtime), tasks (store x) = tasks (store r) ->
            launched x = launched r -> suspended x = [] ->
            finishedAs (call_taskId c) r
              (setActive None (completeTask (call_taskId c) x))).
  { intros x Ht Hl Hsx. unfold finishedAs. simpl.
    split; [exact Hl|]. split; [exact Hsx|]. split; [reflexivity|].
    exists (fun t => withProgress (withStatus t completed) 100).
    split; [intros; reflexivity|]. split; [intros; now left|]. now rewrite Ht. }
  destruct o1 as [|e].
  - destruct (call_stage c) eqn:St.
    + destruct (Js.truthy (coverUrl (info (call_task c)))) eqn:Cv.
      * (* the cover is fetched next *)
        exists 2%nat.
        set (c' := {| call_taskId := call_taskId c; call_task := call_task c;
                      call_stage := AwaitCover |}).
        set (e1 := DownloadCover
                     (coverDownloadUrl host (Js.render (coverUrl (info (call_task c)))))
                     (bookId (info (call_task c))) true).
        set (x := {| store := store r; suspended := [];
                     effects := (effects r ++ [e1])%list; launched := launched r |}).
        assert (H1 : settleNext host Resolved r = park c' (emit e1 r0)).
        { rewrite Hstep. unfold resume. rewrite St, Cv. reflexivity. }
        assert (H2 : forall o, settleNext host o (park c' (emit e1 r0)) = resume host c' o x).
        { intros o. unfold settleNext, settle. simpl. now rewrite String.eqb_refl. }
        destruct o2 as [|e].
        -- exists (setActive None (completeTask (call_taskId c) x)).
           split; [now right|]. split; [now apply Hdone|].
           simpl. rewrite H1, H2. reflexivity.
        -- exists (setActive None (failTask (call_taskId c) (messageOf e) x)).
           split; [now right|]. split; [now apply Hfail|].
           simpl. rewrite H1, H2. reflexivity.
      * exists 1%nat, (setActive None (completeTask (call_taskId c) r0)).
        split; [now left|]. split; [now apply Hdone|].
        simpl. rewrite Hstep. unfold resume. rewrite St, Cv. reflexivity.
    + exists 1%nat, (setActive None (completeTask (call_taskId c) r0)).
      split; [now left|]. split; [now apply Hdone|].
      simpl. rewrite Hstep. unfold resume. rewrite St. reflexivity.
    + exists 1%nat, (setActive None (completeTask (call_taskId c) r0)).
      split; [now left|]. split; [now apply Hdone|].
      simpl. rewrite Hstep. unfold resume. rewrite St. reflexivity.
  - exists 1%nat, (setActive None (failTask (call_taskId c) (messageOf e) r0)).
    split; [now left|]. split; [now apply Hfail|].
    simpl. rewrite Hstep. reflexivity.
Qed.

Lemma find_first_before {A} (p : A -> bool) l k x y :
  find p l = Some x -> nth_error l k = Some y -> p y = true ->
  In x (firstn k l) \/ x = y.
Proof.
  revert k. induction l as [|a l IH]; intros k F N Py; [discriminate|].
  simpl in F. destruct k as [|k]; simpl in N.
  - injection N as ->. rewrite Py in F. injection F as ->. now right.
  - destruct (p a) eqn:Pa.
    + injection F as ->. left. now left.
    + destruct (IH k F N Py) as [H|H]; [left; now right|now right].
Qed.

Lemma pending_filter_mapTask_le i f l :
  (forall t, isPending (f t) = false) ->
  (List.length (filter isPending (mapTask i f l)) <= List.length (filter isPending l))%nat.
Proof.
  intros Hf. induction l as [|a l IH]; simpl; [lia|].
  destruct (taskId a =? i)%string.
  - rewrite Hf. destruct (isPending a); simpl; lia.
  - destruct (isPending a); simpl; lia.
Qed.

Lemma pending_filter_mapTask_lt i f l x :
  (forall t, isPending (f t) = false) ->
  In x l -> isPending x = true -> taskId x = i ->
  (List.length (filter isPending (mapTask i f l)) < List.length (filter isPending l))%nat.
Proof.
  intros Hf. induction l as [|a l IH]; intros Hin Px Hx; [destruct Hin|].
  simpl. destruct Hin as [->|Hin].
  - rewrite Hx, String.eqb_refl, Hf, Px. simpl.
    pose proof (pending_filter_mapTask_le i f l Hf). lia.
  - specialize (IH Hin Px Hx).
    destruct (taskId a =? i)%string.
    + rewrite Hf. destruct (isPending a); simpl; lia.
    + destruct (isPending a); simpl; lia.
Qed.

Lemma firstn_mapTask k i f l : firstn k (mapTask i f l) = mapTask i f (firstn k l).
Proof. unfold mapTask. apply firstn_map. Qed.

Lemma nth_error_mapTask k i f l :
  nth_error (mapTask i f l) k =
  option_map (fun t => if (taskId t =? i)%string then f t else t) (nth_error l k).
Proof. unfold mapTask. apply nth_error_map. Qed.

(** Every pending task gets its turn: from an idle store, a pending task
    at position [k] with [m] pending tasks before it is in transfer after
    at most [2 * m] settlements, whatever their outcomes. *)
Lemma pending_task_is_served m :
  forall r k,
    suspended r = [] -> activeTaskId (store r) = None ->
    statusAt k r = Some pending ->
    (pendingBefore k (tasks (store r)) <= m)%nat ->
    forall os, (2 * m <= List.length os)%nat ->
    exists n, (n <= 2 * m)%nat /\
      statusAt k (settleAll host (firstn n os) (processQueue host r)) = Some downloading.
Proof.
  induction m as [|m IH]; intros r k Hs Ha Hk Hm os Hos.
  all: unfold statusAt in Hk;
    destruct (nth_error (tasks (store r)) k) as [tk|] eqn:Nk; [|discriminate];
    simpl in Hk; injection Hk as Hk.
  all: assert (Ptk : isPending tk = true) by (unfold isPending; now rewrite Hk).
  all: unfold processQueue; rewrite Ha; simpl;
    destruct (find (fun t => Status_eqb (status t) pending) (tasks (store r)))
      as [p|] eqn:F;
    [|rewrite find_none_iff in F; apply nth_error_In in Nk;
      specialize (F tk Nk); simpl in F; unfold isPending in Ptk; congruence].
  all: pose proof (find_some _ _ F) as [Hp Pp];
    destruct (startDownload_present host (taskId p) r p Hp eq_refl)
      as [c [Hc [Ht [Hact [Hsu Hla]]]]];
    rewrite Hs in Hsu; simpl in Hsu.
  all: destruct (taskId tk =? taskId p)%string eqn:E.
  1,3: exists 0%nat; split; [lia|]; simpl; unfold statusAt;
    rewrite Ht, nth_error_mapTask, Nk; simpl; rewrite E; reflexivity.
  all: assert (Hbefore : In p (firstn k (tasks (store r))))
    by (destruct (find_first_before _ _ _ _ _ F Nk Ptk) as [H|H]; [exact H|];
        subst p; rewrite String.eqb_refl in E; discriminate).
  all: assert (Hlt : (pendingBefore k (tasks (store (startDownload host (taskId p) r)))
                      < pendingBefore k (tasks (store r)))%nat)
    by (unfold pendingBefore; rewrite Ht, firstn_mapTask;
        apply (pending_filter_mapTask_lt _ _ _ p); auto).
  - lia.
  - assert (Hos2 : (2 <= List.length os)%nat) by lia.
    destruct (settle_in_flight _ c os Hsu Hos2)
      as [n1 [r' [Hn1 [[Hl' [Hs' [Ha' [f [Hf1 [Hf2 Ht']]]]]] Hrun]]]].
    assert (Hnp : forall t, isPending (f t) = false).
    { intros t. unfold isPending. destruct (Hf2 t) as [-> | ->]; reflexivity. }
    destruct (IH r' k Hs' Ha') with (os := skipn n1 os) as [n2 [Hn2 Hfin]].
    + unfold statusAt. rewrite Ht', Hc, nth_error_mapTask, Ht, nth_error_mapTask, Nk.
      simpl. rewrite E. simpl. rewrite E. simpl. now rewrite Hk.
    + unfold pendingBefore in *. rewrite Ht', firstn_mapTask.
      pose proof (pending_filter_mapTask_le (call_taskId c) f
                    (firstn k (tasks (store (startDownload host (taskId p) r)))) Hnp).
      lia.
    + rewrite length_skipn. lia.
    + exists (n1 + n2)%nat. split; [lia|].
      rewrite settleAll_firstn_add, Hrun. exact Hfin.
Qed.

End QueueProgress.

Section Claims.
Variable host : Host.

Lemma pendingBefore_le k ts : (pendingBefore k ts <= k)%nat.
Proof.
  unfold pendingBefore.
  pose proof (filter_length_le isPending (firstn k ts)).
  pose proof (firstn_le_length k ts). lia.
Qed.

(** Claim C8. [initializeQueue] demotes every [downloading] task to
    [pending], clears the active-task marker and runs [processQueue]. With
    no call suspended, a task that was persisted as [downloading] at position
    [k] is [pending] after the demotion and is [downloading] again after at
    most [2 * k] settlements of the transfers served before it, whatever
    their outcomes. *)
Theorem initializeQueue_recovers r k t os :
  suspended r = [] ->
  nth_error (tasks (store r)) k = Some t ->
  status t = downloading ->
  (2 * k <= List.length os)%nat ->
  let demoted := setActive None (setTasks (map demote) r) in
  initializeQueue host r = processQueue host demoted /\
  (forall j tj, nth_error (tasks (store r)) j = Some tj ->
                nth_error (tasks (store demoted)) j = Some (demote tj)) /\
  (forall j, statusAt j demoted <> Some downloading) /\
  activeTaskId (store demoted) = None /\
  statusAt k demoted = Some pending /\
  exists n, (n <= 2 * k)%nat /\
    statusAt k (settleAll host (firstn n os) (initializeQueue host r)) = Some downloading.
Proof.
  intros Hs Hk Ht Hos demoted.
  assert (Hnth : forall j tj, nth_error (tasks (store r)) j = Some tj ->
                   nth_error (tasks (store demoted)) j = Some (demote tj)).
  { intros j tj Hj. simpl. rewrite nth_error_map, Hj. reflexivity. }
  assert (Hpk : statusAt k demoted = Some pending).
  { unfold statusAt. rewrite (Hnth k t Hk). unfold demote. rewrite Ht. reflexivity. }
  split; [reflexivity|]. split; [exact Hnth|]. split; [|split; [reflexivity|split; [exact Hpk|]]].
  - intros j. unfold statusAt. simpl. rewrite nth_error_map.
    destruct (nth_error (tasks (store r)) j) as [tj|]; simpl; [|discriminate].
    unfold demote. destruct (status tj) eqn:E; simpl; rewrite ?E; discriminate.
  - change (initializeQueue host r) with (processQueue host demoted).
    apply (pending_task_is_served host k demoted k); auto.
    apply pendingBefore_le.
Qed.

Lemma addTask_first taskInfo now :
  addTask host taskInfo now initial = startDownload host (id taskInfo)
    (setTasks (fun _ => [newTask taskInfo now]) initial).
Proof. reflexivity. Qed.

Lemma addTask_queued taskInfo now r a :
  activeTaskId (store r) = Some a -> a <> "" ->
  (forall t, In t (tasks (store r)) -> taskId t <> id taskInfo) ->
  addTask host taskInfo now r = setTasks (fun ts => newTask taskInfo now :: ts) r.
Proof.
  intros Ha Hn Hfresh. unfold addTask.
  assert (F : forall q, find (fun t => (taskId t =? id taskInfo)%string && q t)
                          (tasks (store r)) = None).
  { intros q. apply find_none_iff. intros t Hin.
    apply Hfresh in Hin. apply String.eqb_neq in Hin. now rewrite Hin. }
  rewrite (F (fun t => negb (Status_eqb (status t) failed))).
  rewrite (F (fun t => Status_eqb (status t) failed)).
  apply processQueue_busy with (a := a); auto.
Qed.

Lemma processQueue_idle_pick r p :
  activeTaskId (store r) = None ->
  find (fun t => Status_eqb (status t) pending) (tasks (store r)) = Some p ->
  processQueue host r = startDownload host (taskId p) r.
Proof. intros Ha F. unfold processQueue. now rewrite Ha, F. Qed.

Lemma processQueue_idle_none r :
  activeTaskId (store r) = None ->
  find (fun t => Status_eqb (status t) pending) (tasks (store r)) = None ->
  processQueue host r = r.
Proof. intros Ha F. unfold processQueue. now rewrite Ha, F. Qed.

(** From an idle store the first pending task is served to its end. *)
Lemma serve_next r p os :
  suspended r = [] -> activeTaskId (store r) = None ->
  find (fun t => Status_eqb (status t) pending) (tasks (store r)) = Some p ->
  (2 <= List.length os)%nat ->
  exists n r' f,
    (n = 1 \/ n = 2)%nat /\
    (forall t, info (f t) = info t) /\
    (forall t, status (f t) = completed \/ status (f t) = failed) /\
    suspended r' = [] /\ activeTaskId (store r') = None /\
    launched r' = (launched r ++ [taskId p])%list /\
    tasks (store r') =
      mapTask (taskId p) f
        (mapTask (taskId p) (fun t => withError (withStatus t downloading) None)
           (tasks (store r))) /\
    settleAll host (firstn n os) (processQueue host r) = processQueue host r'.
Proof.
  intros Hs Ha F Hos.
  rewrite (processQueue_idle_pick r p Ha F).
  pose proof (find_some _ _ F) as [Hp _].
  destruct (startDownload_present host (taskId p) r p Hp eq_refl)
    as [c [Hc [Ht [Hact [Hsu Hla]]]]].
  rewrite Hs in Hsu. simpl in Hsu.
  destruct (settle_in_flight host _ c os Hsu Hos)
    as [n [r' [Hn [[Hl' [Hs' [Ha' [f [Hf1 [Hf2 Ht']]]]]] Hrun]]]].
  exists n, r', f. repeat (split; [assumption|]).
  split; [congruence|]. split; [|exact Hrun].
  rewrite Ht', Hc, Ht. reflexivity.
Qed.

(** Claim C1, as the code has it: tasks added while a transfer is in
    flight are served newest first. With three tasks of distinct ids added
    in the order T1, T2, T3 to the empty store, T1 being named, T1 starts
    at once, the task list reads T3, T2, T1, and in every run in which the
    transfers settle the tasks are started in the order T1, T3, T2. *)
Theorem queued_tasks_start_newest_first i1 i2 i3 n1 n2 n3 os :
  id i1 <> "" -> id i1 <> id i2 -> id i1 <> id i3 -> id i2 <> id i3 ->
  (6 <= List.length os)%nat ->
  let queued := addTask host i3 n3 (addTask host i2 n2 (addTask host i1 n1 initial)) in
  launched queued = [id i1] /\
  map taskId (tasks (store queued)) = [id i3; id i2; id i1] /\
  launched (settleAll host os queued) = [id i1; id i3; id i2].
Proof.
  intros H1 H12 H13 H23 Hos queued.
  set (t1 := newTask i1 n1). set (t2 := newTask i2 n2). set (t3 := newTask i3 n3).
  set (dl := fun t => withError (withStatus t downloading) None).
  destruct (startDownload_present host (id i1) (setTasks (fun _ => [t1]) initial) t1)
    as [c1 [Hc1 [Ht1 [Ha1 [Hs1 Hl1]]]]]; [now left|reflexivity|].
  change (startDownload host (id i1) (setTasks (fun _ => [t1]) initial))
    with (addTask host i1 n1 initial) in *.
  simpl in Ht1, Hs1, Hl1.
  unfold taskId in Ht1. simpl in Ht1. rewrite String.eqb_refl in Ht1.
  set (r1 := addTask host i1 n1 initial) in *.
  assert (E2 : addTask host i2 n2 r1 = setTasks (fun ts => t2 :: ts) r1).
  { apply addTask_queued with (a := id i1); auto.
    intros t. rewrite Ht1. intros [<-|[]]. exact H12. }
  set (r2 := addTask host i2 n2 r1) in *.
  assert (E3 : addTask host i3 n3 r2 = setTasks (fun ts => t3 :: ts) r2).
  { apply addTask_queued with (a := id i1); auto.
    - rewrite E2. exact Ha1.
    - intros t. rewrite E2. simpl. rewrite Ht1. intros [<-|[<-|[]]]; auto. }
  assert (Eq : queued = setTasks (fun ts => t3 :: ts) r2) by exact E3.
  assert (Hq_t : tasks (store queued) = [t3; t2; dl t1]).
  { rewrite Eq, E2. simpl. now rewrite Ht1. }
  assert (Hq_s : suspended queued = [c1]) by (rewrite Eq, E2; exact Hs1).
  assert (Hq_l : launched queued = [id i1]) by (rewrite Eq, E2; exact Hl1).
  split; [exact Hq_l|]. split; [rewrite Hq_t; reflexivity|].
  assert (N21 : (id i2 =? id i1)%string = false) by (apply String.eqb_neq; congruence).
  assert (N31 : (id i3 =? id i1)%string = false) by (apply String.eqb_neq; congruence).
  assert (N32 : (id i3 =? id i2)%string = false) by (apply String.eqb_neq; congruence).
  assert (N12 : (id i1 =? id i2)%string = false) by (apply String.eqb_neq; congruence).
  assert (N13 : (id i1 =? id i3)%string = false) by (apply String.eqb_neq; congruence).
  assert (N23 : (id i2 =? id i3)%string = false) by (apply String.eqb_neq; congruence).
  assert (Hnp : forall s, s = completed \/ s = failed -> Status_eqb s pending = false).
  { intros s [-> | ->]; reflexivity. }
  (* the transfer of T1 ends *)
  destruct (settle_in_flight host queued c1 os Hq_s) as
    [k1 [q1 [Hk1 [[Hl [Hs [Ha [f1 [Hf1 [Hf1' Ht]]]]]] Hrun1]]]]; [lia|].
  rewrite (settleAll_split host k1 os), Hrun1.
  rewrite Hq_t, Hc1 in Ht. rewrite Hq_l in Hl.
  unfold mapTask, taskId in Ht. simpl in Ht.
  rewrite N31, N21, String.eqb_refl in Ht.
  (* T3, the newest, is served next *)
  destruct (serve_next q1 t3 (skipn k1 os)) as
    [k2 [q2 [f2 [Hk2 [Hf2 [Hf2' [Hs2 [Ha2 [Hl2 [Ht2 Hrun2]]]]]]]]]]; auto.
  { rewrite Ht. reflexivity. }
  { rewrite length_skipn. lia. }
  rewrite (settleAll_split host k2 (skipn k1 os)), Hrun2.
  rewrite Ht in Ht2. rewrite Hl in Hl2. clear Hrun1 Hrun2.
  unfold mapTask, taskId in Ht2.
  repeat (progress (simpl in Ht2;
    rewrite ?String.eqb_refl, ?N12, ?N13, ?N21, ?N23, ?N31, ?N32, ?Hf1 in Ht2)).
  (* T2 is served last *)
  destruct (serve_next q2 t2 (skipn k2 (skipn k1 os))) as
    [k3 [q3 [f3 [Hk3 [Hf3 [Hf3' [Hs3 [Ha3 [Hl3 [Ht3 Hrun3]]]]]]]]]]; auto.
  { rewrite Ht2. simpl. rewrite Hnp by auto. reflexivity. }
  { rewrite !length_skipn. lia. }
  rewrite (settleAll_split host k3 (skipn k2 (skipn k1 os))), Hrun3.
  rewrite Ht2 in Ht3. rewrite Hl2 in Hl3. clear Hrun3.
  unfold mapTask, taskId in Ht3.
  repeat (progress (simpl in Ht3;
    rewrite ?String.eqb_refl, ?N12, ?N13, ?N21, ?N23, ?N31, ?N32, ?Hf1, ?Hf2 in Ht3)).
  (* nothing is left to serve *)
  rewrite processQueue_idle_none; auto.
  - rewrite settleAll_idle; auto.
  - rewrite Ht3. simpl. rewrite !Hnp by auto. reflexivity.
Qed.

(** Claim C10. [startDownload] for an id that no task carries resets the
    active-task marker and changes nothing else: the task list stays as it
    was, no download or other platform call is issued, no call stays
    suspended. *)
Theorem startDownload_unknown_task i r :
  (forall t, In t (tasks (store r)) -> taskId t <> i) ->
  activeTaskId (store (startDownload host i r)) = None /\
  tasks (store (startDownload host i r)) = tasks (store r) /\
  effects (startDownload host i r) = effects r /\
  suspended (startDownload host i r) = suspended r /\
  launched (startDownload host i r) = launched r.
Proof. intros H. rewrite startDownload_absent by exact H. repeat split. Qed.

End Claims.

(** Against claim C1 as stated: T1, T2, T3 added in this order to the empty
    store are started in the order T1, T3, T2. *)
Lemma fifo_order_fails :
  launched (settleAll phone [Resolved; Resolved; Resolved] threeQueued) = ["T1"; "T3"; "T2"] /\
  launched (settleAll phone [Resolved; Resolved; Resolved] threeQueued) <> ["T1"; "T2"; "T3"].
Proof. split; [vm_compute; reflexivity|vm_compute; discriminate]. Qed.

(** [queued_tasks_start_newest_first] at three chapters, the second
    transfer failing. *)
Lemma queued_tasks_start_newest_first_witness :
  let os := [Resolved; Rejected OtherValue; Resolved; Resolved; Resolved; Resolved] in
  launched threeQueued = ["T1"] /\
  map taskId (tasks (store threeQueued)) = ["T3"; "T2"; "T1"] /\
  launched (settleAll phone os threeQueued) = ["T1"; "T3"; "T2"].
Proof.
  apply (queued_tasks_start_newest_first phone (chapter "T1") (chapter "T2") (chapter "T3")
           1 2 3); simpl; try discriminate; lia.
Defined.

(** Claim C2, at the input where the code departs from it: [processQueue]
    tests the marker for truthiness, so a task whose id is the empty string
    does not hold the queue, and the task added next starts beside it. Two
    tasks are [downloading] at once. *)
Theorem unnamed_task_breaks_single_flight :
  downloadingCount (run phone [AddTask (chapter "") 1; AddTask (chapter "a") 2] initial) = 2%nat.
Proof. vm_compute. reflexivity. Qed.

(** [initializeQueue_recovers] at a persisted list of a pending and a
    downloading task. *)
Lemma initializeQueue_recovers_witness :
  exists n, (n <= 2)%nat /\
    statusAt 1 (settleAll phone (firstn n [Resolved; Resolved])
                  (initializeQueue phone
                     (rehydrate [persistedTask "a" pending; persistedTask "b" downloading])))
    = Some downloading.
Proof.
  apply (initializeQueue_recovers phone
           (rehydrate [persistedTask "a" pending; persistedTask "b" downloading])
           1 (persistedTask "b" downloading) [Resolved; Resolved]);
    [reflexivity|reflexivity|reflexivity|simpl; lia].
Defined.

(** [startDownload_unknown_task] at an id no queued task carries, while
    T1 is in transfer. *)
Lemma startDownload_unknown_task_witness :
  activeTaskId (store threeQueued) = Some "T1" /\
  activeTaskId (store (startDownload phone "T9" threeQueued)) = None /\
  tasks (store (startDownload phone "T9" threeQueued)) = tasks (store threeQueued) /\
  effects (startDownload phone "T9" threeQueued) = effects threeQueued.
Proof.
  split; [reflexivity|].
  destruct (startDownload_unknown_task phone "T9" threeQueued) as [Ha [Ht [He _]]].
  - intros t Ht. vm_compute in Ht.
    destruct Ht as [<-|[<-|[<-|[]]]]; discriminate.
  - split; [exact Ha|]. split; [exact Ht|exact He].
Defined.

End StoreTheory.

(** ** The cache: proofs *)

Module CacheTheory.

Import MobileCacheManager CacheSpec ProbeSpec ListFacts.

Section Selection.

Lemma insertByMtime_perm x l : Permutation (x :: l) (insertByMtime x l).
Proof.
  induction l as [|g l IH]; simpl; [apply Permutation_refl|].
  destruct (mtime x <=? mtime g); [apply Permutation_refl|].
  eapply Permutation_trans; [apply perm_swap|]. now apply perm_skip.
Qed.

Lemma sortByMtime_perm l : Permutation l (sortByMtime l).
Proof.
  induction l as [|x l IH]; simpl; [constructor|].
  eapply Permutation_trans; [|apply insertByMtime_perm]. now apply perm_skip.
Qed.

Lemma insertByMtime_sorted x l :
  StronglySorted byMtime l -> StronglySorted byMtime (insertByMtime x l).
Proof.
  induction l as [|g l IH]; intros Hs; simpl.
  - constructor; constructor.
  - inversion Hs as [|? ? Hl Hg]; subst.
    destruct (mtime x <=? mtime g) eqn:E.
    + apply Z.leb_le in E. constructor; [exact Hs|].
      constructor; [exact E|].
      eapply Forall_impl; [|exact Hg]. unfold byMtime. intros a Ha. lia.
    + apply Z.leb_gt in E. constructor; [now apply IH|].
      eapply Permutation_Forall; [apply insertByMtime_perm|].
      constructor; [unfold byMtime; lia|exact Hg].
Qed.

Lemma sortByMtime_sorted l : StronglySorted byMtime (sortByMtime l).
Proof.
  induction l as [|x l IH]; simpl; [constructor|]. now apply insertByMtime_sorted.
Qed.

Lemma sortByMtime_length l : List.length (sortByMtime l) = List.length l.
Proof. symmetry. apply Permutation_length, sortByMtime_perm. Qed.

Lemma sumSizes_app a b : sumSizes (a ++ b) = sumSizes a + sumSizes b.
Proof. induction a as [|x a IH]; simpl; [reflexivity|]. rewrite IH. lia. Qed.

Lemma sumSizes_perm a b : Permutation a b -> sumSizes a = sumSizes b.
Proof. induction 1; simpl; lia. Qed.

Lemma sumSizes_split k l : sumSizes l = sumSizes (firstn k l) + sumSizes (skipn k l).
Proof. rewrite <- sumSizes_app, firstn_skipn. reflexivity. Qed.

Lemma firstn_plus {A} a b (l : list A) :
  firstn (a + b) l = (firstn a l ++ firstn b (skipn a l))%list.
Proof.
  revert l. induction a as [|a IH]; intros l; simpl; [reflexivity|].
  destruct l as [|x l]; simpl.
  - now rewrite firstn_nil.
  - now rewrite IH.
Qed.

Lemma skipn_plus {A} a b (l : list A) : skipn (a + b) l = skipn b (skipn a l).
Proof.
  revert l. induction a as [|a IH]; intros l; simpl; [reflexivity|].
  destruct l as [|x l]; simpl; [now rewrite skipn_nil|apply IH].
Qed.

Lemma sizePass_prefix l s : sizePass l s = firstn (List.length (sizePass l s)) l.
Proof.
  revert s. induction l as [|x l IH]; intros s; simpl; [reflexivity|].
  destruct (s <=? MAX_CACHE_SIZE_BYTES); simpl; [reflexivity|]. now rewrite <- IH.
Qed.

(** The second pass stops as soon as what is left fits. *)
Lemma sizePass_fits l :
  sumSizes (skipn (List.length (sizePass l (sumSizes l))) l) <= MAX_CACHE_SIZE_BYTES.
Proof.
  induction l as [|x l IH]; simpl.
  - unfold MAX_CACHE_SIZE_BYTES. lia.
  - destruct (size x + sumSizes l <=? MAX_CACHE_SIZE_BYTES) eqn:E; simpl.
    + now apply Z.leb_le in E.
    + replace (size x + sumSizes l - size x) with (sumSizes l) by lia. exact IH.
Qed.

(** It takes no entry it does not need. *)
Lemma sizePass_needed l j :
  (j < List.length (sizePass l (sumSizes l)))%nat ->
  MAX_CACHE_SIZE_BYTES < sumSizes (skipn j l).
Proof.
  revert j. induction l as [|x l IH]; intros j; simpl; [lia|].
  destruct (size x + sumSizes l <=? MAX_CACHE_SIZE_BYTES) eqn:E; simpl; [lia|].
  apply Z.leb_gt in E.
  replace (size x + sumSizes l - size x) with (sumSizes l) by lia.
  destruct j as [|j]; simpl; [lia|]. intros H. apply IH. lia.
Qed.

Lemma countToDelete_le l : (countToDelete l <= List.length l)%nat.
Proof. unfold countToDelete. destruct (MAX_FILES <? List.length l)%nat; lia. Qed.

Section OfStats.

Variable st : CacheStats.
Hypothesis total_is_sum : totalSize st = sumSizes (validFiles st).

(** What the count pass leaves has the size the code carries on with. *)
Lemma size_after_count_pass :
  totalSize st
  - sumSizes (firstn (countToDelete (sortByMtime (validFiles st)))
                (sortByMtime (validFiles st)))
  = sumSizes (skipn (countToDelete (sortByMtime (validFiles st)))
                (sortByMtime (validFiles st))).
Proof.
  rewrite total_is_sum, (sumSizes_perm _ _ (sortByMtime_perm (validFiles st))).
  rewrite (sumSizes_split (countToDelete (sortByMtime (validFiles st)))
             (sortByMtime (validFiles st))).
  lia.
Qed.

Lemma filesToDelete_prefix :
  filesToDelete st =
  firstn (evictCount (validFiles st) (totalSize st)) (sortByMtime (validFiles st)).
Proof.
  unfold filesToDelete, evictCount.
  rewrite firstn_plus. f_equal. apply sizePass_prefix.
Qed.

Lemma evictCount_le :
  (evictCount (validFiles st) (totalSize st)
   <= List.length (sortByMtime (validFiles st)))%nat.
Proof.
  unfold evictCount.
  rewrite (sizePass_prefix
             (skipn (countToDelete (sortByMtime (validFiles st)))
                (sortByMtime (validFiles st)))).
  rewrite length_firstn, length_skipn.
  pose proof (countToDelete_le (sortByMtime (validFiles st))). lia.
Qed.

Lemma evicted_rest_fits :
  let rest :=
    skipn (evictCount (validFiles st) (totalSize st)) (sortByMtime (validFiles st)) in
  sumSizes rest <= MAX_CACHE_SIZE_BYTES /\ (List.length rest <= MAX_FILES)%nat.
Proof.
  unfold evictCount. cbv zeta.
  rewrite skipn_plus, size_after_count_pass. split.
  - apply sizePass_fits.
  - rewrite !length_skipn. unfold countToDelete.
    destruct (MAX_FILES <? List.length (sortByMtime (validFiles st)))%nat eqn:E.
    + lia.
    + apply Nat.ltb_ge in E. lia.
Qed.

Lemma evictCount_minimal j :
  (j < evictCount (validFiles st) (totalSize st))%nat ->
  (MAX_FILES < List.length (skipn j (sortByMtime (validFiles st))))%nat \/
  MAX_CACHE_SIZE_BYTES < sumSizes (skipn j (sortByMtime (validFiles st))).
Proof.
  unfold evictCount. rewrite size_after_count_pass. intros Hj.
  pose (count := countToDelete (sortByMtime (validFiles st))).
  destruct (Nat.lt_ge_cases j count) as [Hc|Hc]; unfold count in Hc.
  - left. rewrite length_skipn. unfold countToDelete in Hc.
    destruct (MAX_FILES <? List.length (sortByMtime (validFiles st)))%nat; lia.
  - right. replace j with (count + (j - count))%nat by (unfold count; lia).
    unfold count. rewrite skipn_plus. apply sizePass_needed. lia.
Qed.

End OfStats.

End Selection.

Section Platform.

Variable env : Env.

Lemma advance_nil w : advance w (fs w) [] = w.
Proof.
  destruct w as [d t tr]. unfold advance. simpl.
  rewrite Nat.add_0_r, app_nil_r. reflexivity.
Qed.

Lemma advance_advance w d1 ops1 d2 ops2 :
  advance (advance w d1 ops1) d2 ops2 = advance w d2 (ops1 ++ ops2).
Proof.
  unfold advance. simpl. rewrite length_app, Nat.add_assoc, app_assoc. reflexivity.
Qed.

Lemma quietFor_S w n :
  quietFor env w (S n) ->
  fault env (tick w) = None /\
  forall d op, quietFor env (advance w d [op]) n.
Proof.
  intros H. split.
  - specialize (H 0%nat). rewrite Nat.add_0_r in H. apply H. lia.
  - intros d op j Hj. simpl. replace (tick w + 1 + j)%nat with (tick w + S j)%nat by lia.
    apply H. lia.
Qed.

Lemma quietFor_le w n m : (m <= n)%nat -> quietFor env w n -> quietFor env w m.
Proof. intros Hle H j Hj. apply H. lia. Qed.

Lemma quietFor_advance w d ops n :
  quietFor env w (List.length ops + n) -> quietFor env (advance w d ops) n.
Proof.
  intros H j Hj. simpl. rewrite <- Nat.add_assoc. apply H. lia.
Qed.

Lemma call_ok {A} op (act : FS -> Z -> Result A * FS) w :
  fault env (tick w) = None ->
  call env op act w =
    (fst (act (fs w) (clockAt env (tick w))),
     advance w (snd (act (fs w) (clockAt env (tick w)))) [op]).
Proof.
  intros H. unfold call, advance. rewrite H.
  destruct (act (fs w) (clockAt env (tick w))) as [r d]. simpl.
  now rewrite Nat.add_1_r.
Qed.

Lemma call_fault {A} op (act : FS -> Z -> Result A * FS) w msg :
  fault env (tick w) = Some msg ->
  call env op act w = (inl (NativeError msg), advance w (fs w) [op]).
Proof.
  intros H. unfold call, advance. rewrite H. simpl. now rewrite Nat.add_1_r.
Qed.

Lemma lookup_listed l f :
  NoDup (map f_name l) -> In f l ->
  find (fun g => (f_name g =? f_name f)%string) l = Some f.
Proof.
  induction l as [|g l IH]; intros Hnd Hin; [destruct Hin|].
  simpl in Hnd. inversion Hnd as [|? ? Hg Hnd']; subst. simpl.
  destruct Hin as [->|Hin].
  - now rewrite String.eqb_refl.
  - destruct (f_name g =? f_name f)%string eqn:E.
    + apply String.eqb_eq in E. exfalso. apply Hg. rewrite E. now apply in_map.
    + now apply IH.
Qed.

Lemma lookup_removeEntry_other n m l :
  n <> m ->
  find (fun g => (f_name g =? n)%string) (removeEntry m l) =
  find (fun g => (f_name g =? n)%string) l.
Proof.
  intros Hnm. induction l as [|g l IH]; simpl; [reflexivity|].
  destruct (f_name g =? m)%string eqn:Em; simpl.
  - apply String.eqb_eq in Em.
    assert (E : (f_name g =? n)%string = false) by (apply String.eqb_neq; congruence).
    now rewrite E.
  - destruct (f_name g =? n)%string; [reflexivity|exact IH].
Qed.

Lemma lookup_removeEntry_same n l :
  find (fun g => (f_name g =? n)%string) (removeEntry n l) = None.
Proof.
  induction l as [|g l IH]; simpl; [reflexivity|].
  destruct (f_name g =? n)%string eqn:E; simpl; [exact IH|]. now rewrite E.
Qed.

(** The loop of [getCacheStats] over files that are all there. *)
Lemma statLoop_run l : forall acc w,
  (forall f, In f l -> lookupFile (f_name f) (fs w) = Some f) ->
  quietFor env w (List.length (filter isCached l)) ->
  statLoop env (map f_name l) acc w =
    (inr {| totalSize := totalSize acc + sizeSum (filter isCached l);
            validFiles := (validFiles acc ++ map (infoOf env) (filter isCached l))%list |},
     advance w (fs w) (map (fun f => Stat (f_name f)) (filter isCached l))).
Proof.
  induction l as [|f l IH]; intros acc w Hl Hq.
  - simpl. unfold ret. rewrite advance_nil, app_nil_r, Z.add_0_r. now destruct acc.
  - assert (Hc : isCached f = negb (Js.endsWith (f_name f) ".tmp")) by reflexivity.
    cbn [map statLoop filter] in *.
    destruct (Js.endsWith (f_name f) ".tmp") eqn:E; rewrite Hc in *; cbn [negb] in *.
    + apply IH; [intros g Hg; apply Hl; now right|exact Hq].
    + cbn [List.length] in Hq. apply quietFor_S in Hq as [H0 Hq].
      unfold bind at 1, tryCatch, bind at 1, stat. rewrite call_ok by exact H0.
      rewrite (Hl f (or_introl eq_refl)). cbn [fst snd ret].
      rewrite IH.
      * cbn [totalSize validFiles st_size st_mtime st_uri map sizeSum fold_right].
        rewrite advance_advance. f_equal. f_equal. f_equal.
        -- unfold sizeSum. lia.
        -- now rewrite <- app_assoc.
      * intros g Hg. simpl. apply Hl. now right.
      * apply Hq.
Qed.

Lemma getCacheStats_run w :
  dirExists (fs w) = true ->
  NoDup (map f_name (entries (fs w))) ->
  quietFor env w (2 + List.length (cached (fs w))) ->
  getCacheStats env w =
    (inr (statsOf env (fs w)),
     advance w (fs w)
       (Readdir :: Readdir :: map (fun f => Stat (f_name f)) (cached (fs w)))).
Proof.
  intros Hd Hnd Hq.
  apply quietFor_S in Hq as [H0 Hq].
  specialize (Hq (fs w) Readdir).
  apply quietFor_S in Hq as [H1 Hq].
  specialize (Hq (fs w) Readdir).
  unfold getCacheStats, tryCatch at 1, bind at 1, tryCatch, bind at 1, readdir.
  rewrite call_ok by exact H0. rewrite Hd. simpl.
  unfold bind. rewrite call_ok by exact H1. simpl. rewrite Hd. simpl.
  rewrite statLoop_run.
  - simpl. rewrite !advance_advance. reflexivity.
  - intros f Hf. simpl. unfold lookupFile. now apply lookup_listed.
  - exact Hq.
Qed.

Lemma getCacheStats_missing w :
  dirExists (fs w) = false -> quietFor env w 2 ->
  getCacheStats env w =
    (inr emptyStats,
     advance w {| dirExists := true; entries := entries (fs w) |} [Readdir; Mkdir]).
Proof.
  intros Hd Hq.
  apply quietFor_S in Hq as [H0 Hq].
  specialize (Hq (fs w) Readdir).
  apply quietFor_S in Hq as [H1 _].
  unfold getCacheStats, tryCatch at 1, bind at 1, tryCatch, bind at 1, readdir.
  rewrite call_ok by exact H0. rewrite Hd. simpl.
  unfold bind, mkdir. rewrite call_ok by exact H1. simpl. rewrite Hd. simpl.
  rewrite advance_advance. reflexivity.
Qed.

End Platform.

Section Eviction.

Variable env : Env.

Lemma removeAll_filter names l :
  removeAll names l = filter (fun f => negb (listed names (f_name f))) l.
Proof.
  revert l. induction names as [|n names IH]; intros l; simpl.
  - induction l as [|f l IHl]; simpl; [reflexivity|]. now rewrite <- IHl.
  - unfold removeAll in *. simpl. rewrite IH. unfold removeEntry.
    induction l as [|f l IHl]; simpl; [reflexivity|].
    rewrite String.eqb_sym.
    destruct (n =? f_name f)%string; simpl; [exact IHl|].
    destruct (listed names (f_name f)); simpl; [exact IHl|]. now rewrite IHl.
Qed.

Lemma removeAll_app a b l : removeAll (a ++ b) l = removeAll b (removeAll a l).
Proof. unfold removeAll. apply fold_left_app. Qed.

Lemma lookup_removeAll_other names n l :
  ~ In n names ->
  find (fun g => (f_name g =? n)%string) (removeAll names l) =
  find (fun g => (f_name g =? n)%string) l.
Proof.
  revert l. induction names as [|m names IH]; intros l Hn; [reflexivity|].
  unfold removeAll in *. simpl. rewrite IH by (intros H; apply Hn; now right).
  apply lookup_removeEntry_other. intros ->. apply Hn. now left.
Qed.

Lemma deleteLoop_ok D : forall w,
  NoDup (map name D) ->
  (forall x, In x D -> lookupFile (name x) (fs w) <> None) ->
  quietFor env w (List.length D) ->
  deleteLoop env D w =
    (inr tt, advance w (without (map name D) (fs w)) (deleteOps D)).
Proof.
  induction D as [|x D IH]; intros w Hnd Hin Hq.
  - simpl. unfold ret, without. simpl.
    replace {| dirExists := dirExists (fs w); entries := entries (fs w) |} with (fs w)
      by now destruct (fs w).
    now rewrite advance_nil.
  - simpl in Hnd. inversion Hnd as [|? ? Hx Hnd']; subst.
    cbn [List.length] in Hq. apply quietFor_S in Hq as [H0 Hq].
    cbn [deleteLoop]. unfold bind, deleteFile. rewrite call_ok by exact H0.
    destruct (lookupFile (name x) (fs w)) as [f|] eqn:L;
      [|exfalso; now apply (Hin x (or_introl eq_refl))].
    cbn [fst snd]. rewrite IH; auto.
    + rewrite advance_advance. reflexivity.
    + intros y Hy. cbn [advance fs entries]. unfold lookupFile. cbn [entries].
      rewrite lookup_removeEntry_other.
      * apply Hin. now right.
      * intros E. apply Hx. rewrite <- E. now apply in_map.
Qed.

(** The loop ends at the first deletion that fails. *)
Lemma deleteLoop_stops D1 x D2 msg w :
  NoDup (map name D1) ->
  (forall y, In y D1 -> lookupFile (name y) (fs w) <> None) ->
  quietFor env w (List.length D1) ->
  fault env (tick w + List.length D1) = Some msg ->
  deleteLoop env (D1 ++ x :: D2) w =
    (inl (NativeError msg),
     advance w (without (map name D1) (fs w)) (deleteOps D1 ++ [DeleteFile (name x)])).
Proof.
  revert w. induction D1 as [|y D1 IH]; intros w Hnd Hin Hq Hf.
  - simpl in *. rewrite Nat.add_0_r in Hf.
    unfold bind, deleteFile. rewrite (call_fault env _ _ w msg Hf).
    unfold without. simpl.
    replace {| dirExists := dirExists (fs w); entries := entries (fs w) |} with (fs w)
      by now destruct (fs w).
    reflexivity.
  - simpl in Hnd. inversion Hnd as [|? ? Hy Hnd']; subst.
    cbn [List.length] in Hq. apply quietFor_S in Hq as [H0 Hq].
    cbn [app deleteLoop]. unfold bind at 1, deleteFile. rewrite call_ok by exact H0.
    destruct (lookupFile (name y) (fs w)) as [f|] eqn:L;
      [|exfalso; now apply (Hin y (or_introl eq_refl))].
    cbn [fst snd]. rewrite IH; auto.
    + rewrite advance_advance. reflexivity.
    + intros z Hz. cbn [advance fs entries]. unfold lookupFile. cbn [entries].
      rewrite lookup_removeEntry_other.
      * apply Hin. now right.
      * intros E. apply Hy. rewrite <- E. now apply in_map.
    + cbn [advance tick List.length]. cbn [List.length] in Hf.
      replace (tick w + 1 + List.length D1)%nat with (tick w + S (List.length D1))%nat by lia.
      exact Hf.
Qed.

Lemma NoDup_map_filter {A B} (g : A -> B) (p : A -> bool) l :
  NoDup (map g l) -> NoDup (map g (filter p l)).
Proof.
  induction l as [|a l IH]; intros H; simpl; [constructor|].
  simpl in H. inversion H as [|? ? Ha Hl]; subst.
  destruct (p a); simpl; [|now apply IH].
  constructor; [|now apply IH].
  intros Hin. apply Ha. rewrite in_map_iff in *.
  destruct Hin as [b [E Hb]]. exists b. split; [exact E|].
  now apply filter_In in Hb as [Hb _].
Qed.

Lemma map_name_infoOf l : map name (map (infoOf env) l) = map f_name l.
Proof. rewrite map_map. reflexivity. Qed.

Lemma sumSizes_infoOf l : sumSizes (map (infoOf env) l) = sizeSum l.
Proof. induction l as [|f l IH]; simpl; [reflexivity|]. now rewrite IH. Qed.

Lemma statsOf_total d : totalSize (statsOf env d) = sumSizes (validFiles (statsOf env d)).
Proof. unfold statsOf. simpl. rewrite sumSizes_infoOf. reflexivity. Qed.

Lemma selected_prefix d :
  exists k, selected env d = firstn k (sortByMtime (validFiles (statsOf env d))).
Proof.
  unfold selected. destruct (overLimit (statsOf env d)).
  - eexists. apply filesToDelete_prefix.
  - exists 0%nat. reflexivity.
Qed.

Lemma sorted_names_NoDup d :
  NoDup (map f_name (entries d)) ->
  NoDup (map name (sortByMtime (validFiles (statsOf env d)))).
Proof.
  intros H.
  eapply Permutation_NoDup.
  - apply Permutation_map, sortByMtime_perm.
  - simpl. rewrite map_name_infoOf. now apply NoDup_map_filter.
Qed.

Lemma selected_NoDup d :
  NoDup (map f_name (entries d)) -> NoDup (map name (selected env d)).
Proof.
  intros H. destruct (selected_prefix d) as [k ->].
  pose proof (sorted_names_NoDup d H) as Hs.
  rewrite <- (firstn_skipn k (sortByMtime _)), map_app in Hs.
  now apply NoDup_app_remove_r in Hs.
Qed.

Lemma in_firstn {A} k (l : list A) x : In x (firstn k l) -> In x l.
Proof. intros H. rewrite <- (firstn_skipn k l). apply in_or_app. now left. Qed.

Lemma selected_listed d x :
  In x (selected env d) -> lookupFile (name x) d <> None.
Proof.
  intros Hx. destruct (selected_prefix d) as [k E]. rewrite E in Hx.
  apply in_firstn in Hx.
  apply (Permutation_in _ (Permutation_sym (sortByMtime_perm _))) in Hx.
  simpl in Hx. apply in_map_iff in Hx as [f [<- Hf]].
  apply filter_In in Hf as [Hf _].
  unfold lookupFile. intros Hnone.
  rewrite find_none_iff in Hnone. specialize (Hnone f Hf). simpl in Hnone.
  now rewrite String.eqb_refl in Hnone.
Qed.

End Eviction.

Section EvictionRuns.

Variable env : Env.

Lemma ensureCacheLimits_returns w : fst (ensureCacheLimits env w) = inr tt.
Proof.
  unfold ensureCacheLimits, tryCatch, ret.
  destruct (bind _ _ w) as [[e|[]] w1]; reflexivity.
Qed.

Lemma ensureCacheLimits_run w :
  dirExists (fs w) = true ->
  NoDup (map f_name (entries (fs w))) ->
  quietFor env w (2 + List.length (cached (fs w)) + List.length (selected env (fs w))) ->
  ensureCacheLimits env w =
    (inr tt,
     advance w (without (map name (selected env (fs w))) (fs w))
       (statOps (fs w) ++ deleteOps (selected env (fs w)))).
Proof.
  intros Hd Hnd Hq.
  unfold ensureCacheLimits, tryCatch, bind.
  rewrite getCacheStats_run; auto; [|eapply quietFor_le; [|exact Hq]; lia].
  fold (statOps (fs w)).
  assert (Hq' : quietFor env (advance w (fs w) (statOps (fs w)))
                  (List.length (selected env (fs w)))).
  { apply quietFor_advance. unfold statOps. simpl List.length. rewrite length_map.
    eapply quietFor_le; [|exact Hq]. lia. }
  unfold selected in *. destruct (overLimit (statsOf env (fs w))) eqn:O.
  - rewrite deleteLoop_ok; simpl fs.
    + rewrite advance_advance. reflexivity.
    + pose proof (selected_NoDup env (fs w) Hnd) as H. unfold selected in H.
      now rewrite O in H.
    + intros x Hx. apply (selected_listed env). unfold selected. now rewrite O.
    + exact Hq'.
  - unfold ret, without. simpl.
    replace {| dirExists := dirExists (fs w); entries := entries (fs w) |} with (fs w)
      by now destruct (fs w).
    unfold deleteOps. simpl. now rewrite app_nil_r.
Qed.

Lemma ensureCacheLimits_run_stops w D1 x D2 msg :
  dirExists (fs w) = true ->
  NoDup (map f_name (entries (fs w))) ->
  selected env (fs w) = (D1 ++ x :: D2)%list ->
  quietFor env w (2 + List.length (cached (fs w)) + List.length D1) ->
  fault env (tick w + (2 + List.length (cached (fs w)) + List.length D1)) = Some msg ->
  ensureCacheLimits env w =
    (inr tt,
     advance w (without (map name D1) (fs w))
       (statOps (fs w) ++ deleteOps D1 ++ [DeleteFile (name x)])).
Proof.
  intros Hd Hnd Hsel Hq Hf.
  unfold ensureCacheLimits, tryCatch, bind.
  rewrite getCacheStats_run; auto; [|eapply quietFor_le; [|exact Hq]; lia].
  fold (statOps (fs w)).
  assert (Hlen : List.length (statOps (fs w)) = (2 + List.length (cached (fs w)))%nat).
  { unfold statOps. simpl. now rewrite length_map. }
  pose proof (selected_NoDup env (fs w) Hnd) as HndS.
  pose proof (selected_listed env (fs w)) as Hin.
  unfold selected in *. destruct (overLimit (statsOf env (fs w))) eqn:O.
  2:{ destruct D1; discriminate. }
  rewrite Hsel in *.
  rewrite (deleteLoop_stops env D1 x D2 msg); simpl fs.
  - unfold ret. rewrite advance_advance. reflexivity.
  - rewrite map_app in HndS. now apply NoDup_app_remove_r in HndS.
  - intros y Hy. apply Hin. apply in_or_app. now left.
  - apply quietFor_advance. rewrite Hlen. eapply quietFor_le; [|exact Hq]. lia.
  - unfold advance. cbn [tick]. rewrite Hlen, <- Nat.add_assoc. exact Hf.
Qed.

Lemma ensureCacheLimits_missing w :
  dirExists (fs w) = false -> quietFor env w 2 ->
  ensureCacheLimits env w =
    (inr tt, advance w {| dirExists := true; entries := entries (fs w) |} [Readdir; Mkdir]).
Proof.
  intros Hd Hq. unfold ensureCacheLimits, tryCatch, bind.
  rewrite getCacheStats_missing; auto.
Qed.

Lemma noFault_quietFor w n : noFault env -> quietFor env w n.
Proof. intros H j _. apply H. Qed.

Lemma Permutation_filter {A} (p : A -> bool) l l' :
  Permutation l l' -> Permutation (filter p l) (filter p l').
Proof.
  induction 1 as [|x l l' H IH|x y l|l l' l'' H1 IH1 H2 IH2]; simpl.
  - constructor.
  - destruct (p x); [now constructor|exact IH].
  - destruct (p x), (p y); try apply Permutation_refl. apply perm_swap.
  - eapply Permutation_trans; eauto.
Qed.

Lemma filter_none {A} (p : A -> bool) l :
  (forall x, In x l -> p x = false) -> filter p l = [].
Proof.
  induction l as [|a l IH]; intros H; simpl; [reflexivity|].
  rewrite (H a (or_introl eq_refl)). apply IH. intros x Hx. apply H. now right.
Qed.

Lemma filter_all {A} (p : A -> bool) l :
  (forall x, In x l -> p x = true) -> filter p l = l.
Proof.
  induction l as [|a l IH]; intros H; simpl; [reflexivity|].
  rewrite (H a (or_introl eq_refl)). f_equal. apply IH. intros x Hx. apply H. now right.
Qed.

Lemma filter_swap {A} (p q : A -> bool) l :
  filter p (filter q l) = filter q (filter p l).
Proof.
  induction l as [|a l IH]; simpl; [reflexivity|].
  destruct (q a) eqn:Q, (p a) eqn:P; simpl; rewrite ?Q, ?P, IH; reflexivity.
Qed.

Lemma listed_In names n : listed names n = true <-> In n names.
Proof.
  unfold listed. rewrite existsb_exists. split.
  - intros [m [Hm E]]. apply String.eqb_eq in E. now subst.
  - intros H. exists n. split; [exact H|apply String.eqb_refl].
Qed.

Lemma NoDup_app_disjoint {A} (a b : list A) x :
  NoDup (a ++ b) -> In x a -> In x b -> False.
Proof.
  induction a as [|y a IH]; intros H Ha Hb; [destruct Ha|].
  simpl in H. inversion H as [|? ? Hy H']; subst.
  destruct Ha as [->|Ha].
  - apply Hy. apply in_or_app. now right.
  - now apply IH.
Qed.

(** What a pass keeps, when it deletes the [k] oldest entries. *)
Lemma kept_after_prefix d k :
  NoDup (map f_name (entries d)) ->
  let sorted := sortByMtime (validFiles (statsOf env d)) in
  Permutation (map (infoOf env) (cached (without (map name (firstn k sorted)) d)))
              (skipn k sorted).
Proof.
  intros Hnd sorted.
  set (names := map name (firstn k sorted)).
  set (q := fun x : ExtendedFileInfo => negb (listed names (name x))).
  assert (E1 : map (infoOf env) (cached (without names d)) =
               filter q (map (infoOf env) (cached d))).
  { unfold cached, without. simpl. rewrite removeAll_filter, filter_swap.
    generalize (filter (fun f => negb (Js.endsWith (f_name f) ".tmp")) (entries d)).
    intros l. induction l as [|f l IH]; simpl; [reflexivity|].
    unfold q at 1. simpl. destruct (listed names (f_name f)); simpl; now rewrite IH. }
  rewrite E1.
  eapply Permutation_trans.
  { apply Permutation_filter. apply (sortByMtime_perm (map (infoOf env) (cached d))). }
  change (sortByMtime (map (infoOf env) (cached d))) with sorted.
  pose proof (sorted_names_NoDup env d Hnd) as Hs. fold sorted in Hs.
  rewrite <- (firstn_skipn k sorted) at 1. rewrite filter_app.
  rewrite <- (firstn_skipn k sorted), map_app in Hs.
  rewrite filter_none, filter_all; [apply Permutation_refl| |].
  - intros x Hx. unfold q.
    destruct (listed names (name x)) eqn:L; [|reflexivity].
    apply listed_In in L. exfalso.
    apply (NoDup_app_disjoint _ _ (name x) Hs); [exact L|now apply in_map].
  - intros x Hx. unfold q.
    assert (L : listed names (name x) = true) by (apply listed_In; now apply in_map).
    now rewrite L.
Qed.

Lemma cachedBytes_sumSizes d : cachedBytes d = sumSizes (map (infoOf env) (cached d)).
Proof. rewrite sumSizes_infoOf. reflexivity. Qed.

End EvictionRuns.

Section EvictionClaims.

Variable env : Env.

Lemma without_nil d : without [] d = d.
Proof. unfold without. simpl. now destruct d. Qed.

(** Claim C3. After a pass in which no platform call fails, the files
    that count take at most 2 GiB and are at most 50, whatever the sizes
    and times before. *)
Theorem eviction_bound w :
  noFault env -> wellFormed (fs w) ->
  let w' := snd (ensureCacheLimits env w) in
  fst (ensureCacheLimits env w) = inr tt /\
  cachedBytes (fs w') <= MAX_CACHE_SIZE_BYTES /\
  (List.length (cached (fs w')) <= MAX_FILES)%nat.
Proof.
  intros Hq [Hnd Hmiss]. split; [apply ensureCacheLimits_returns|].
  destruct (dirExists (fs w)) eqn:Hd.
  - rewrite ensureCacheLimits_run; auto using noFault_quietFor. cbn [snd advance fs].
    unfold selected. destruct (overLimit (statsOf env (fs w))) eqn:O.
    + rewrite filesToDelete_prefix.
      pose proof (kept_after_prefix env (fs w)
                    (evictCount (validFiles (statsOf env (fs w)))
                                (totalSize (statsOf env (fs w)))) Hnd) as P.
      cbv zeta in P.
      destruct (evicted_rest_fits (statsOf env (fs w)) (statsOf_total env (fs w)))
        as [Hsize Hcount].
      split.
      * rewrite (cachedBytes_sumSizes env), (sumSizes_perm _ _ P). exact Hsize.
      * rewrite <- (length_map (infoOf env)), (Permutation_length P). exact Hcount.
    + simpl map. rewrite without_nil.
      unfold overLimit in O. apply orb_false_iff in O as [O1 O2].
      apply Z.ltb_ge in O1. apply Nat.ltb_ge in O2.
      simpl in O1, O2. rewrite length_map in O2. now split.
  - rewrite ensureCacheLimits_missing; auto using noFault_quietFor.
    cbn [snd advance fs]. unfold cachedBytes, cached. cbn [entries].
    rewrite (Hmiss eq_refl). simpl. unfold MAX_CACHE_SIZE_BYTES, MAX_FILES. lia.
Qed.

Lemma sizePass_under l s : s <= MAX_CACHE_SIZE_BYTES -> sizePass l s = [].
Proof.
  intros H. destruct l as [|x l]; simpl; [reflexivity|].
  apply Z.leb_le in H. now rewrite H.
Qed.

Lemma sumSizes_uniform l c :
  Forall (fun x => size x = c) l -> sumSizes l = c * Z.of_nat (List.length l).
Proof.
  induction 1 as [|x l Hx Hl IH]; [simpl; lia|].
  cbn [sumSizes fold_right List.length]. fold (sumSizes l). rewrite IH, Hx. lia.
Qed.

(** Claim C7. A pass over a directory above a limit deletes the oldest
    entries, oldest first: exactly the [k] first of the entries sorted by
    time, where [k] covers the excess over 50 files and is the least
    number that leaves at most 50 files of at most 2 GiB. Of 51 files of
    1 MiB with distinct times it deletes the oldest alone. *)
Theorem eviction_oldest_first w :
  noFault env -> wellFormed (fs w) -> dirExists (fs w) = true ->
  let st := statsOf env (fs w) in
  let sorted := sortByMtime (validFiles st) in
  let w' := snd (ensureCacheLimits env w) in
  (overLimit st = false -> fs w' = fs w) /\
  (overLimit st = true ->
     exists k,
       StronglySorted byMtime sorted /\ Permutation (validFiles st) sorted /\
       fs w' = without (map name (firstn k sorted)) (fs w) /\
       trace w' = (trace w ++ statOps (fs w) ++ deleteOps (firstn k sorted))%list /\
       (List.length sorted - MAX_FILES <= k <= List.length sorted)%nat /\
       (List.length (skipn k sorted) <= MAX_FILES)%nat /\
       sumSizes (skipn k sorted) <= MAX_CACHE_SIZE_BYTES /\
       forall j, (j < k)%nat ->
         (MAX_FILES < List.length (skipn j sorted))%nat \/
         MAX_CACHE_SIZE_BYTES < sumSizes (skipn j sorted)) /\
  (List.length (entries (fs w)) = 51%nat ->
   Forall (fun f => isCached f = true /\ f_size f = MiB) (entries (fs w)) ->
   NoDup (map f_mtime (entries (fs w))) ->
   exists oldest,
     In oldest (entries (fs w)) /\
     (forall f, In f (entries (fs w)) -> f <> oldest -> f_mtime oldest < f_mtime f) /\
     entries (fs w') = removeEntry (f_name oldest) (entries (fs w)) /\
     List.length (cached (fs w')) = 50%nat).
Proof.
  intros Hq [Hnd _] Hd st sorted w'.
  assert (Hrun : fs w' = without (map name (selected env (fs w))) (fs w) /\
                 trace w' = (trace w ++ statOps (fs w) ++
                             deleteOps (selected env (fs w)))%list).
  { unfold w'. rewrite ensureCacheLimits_run; auto using noFault_quietFor. }
  destruct Hrun as [Hfs Htr].
  assert (Hover : overLimit st = true ->
            selected env (fs w) = firstn (evictCount (validFiles st) (totalSize st)) sorted).
  { intros O. unfold selected. fold st. rewrite O. apply filesToDelete_prefix. }
  split; [|split].
  - intros O. rewrite Hfs. unfold selected. fold st. rewrite O. apply without_nil.
  - intros O. exists (evictCount (validFiles st) (totalSize st)).
    rewrite <- (Hover O).
    destruct (evicted_rest_fits st (statsOf_total env (fs w))) as [Hsize Hcount].
    split; [apply sortByMtime_sorted|]. split; [apply sortByMtime_perm|].
    split; [exact Hfs|]. split; [exact Htr|].
    split; [|split; [exact Hcount|split; [exact Hsize|]]].
    + split; [|apply evictCount_le].
      unfold evictCount, countToDelete. fold sorted.
      destruct (MAX_FILES <? List.length sorted)%nat eqn:E; [lia|].
      apply Nat.ltb_ge in E. lia.
    + apply evictCount_minimal, statsOf_total.
  - intros Hlen Hall Hmt.
    assert (Hc : cached (fs w) = entries (fs w)).
    { apply filter_all. intros f Hf. rewrite Forall_forall in Hall.
      now destruct (Hall f Hf). }
    assert (Hvalid : validFiles st = map (infoOf env) (entries (fs w))).
    { unfold st, statsOf. simpl. now rewrite Hc. }
    assert (Hslen : List.length sorted = 51%nat).
    { unfold sorted. now rewrite sortByMtime_length, Hvalid, length_map. }
    assert (Hsz : Forall (fun x => size x = MiB) sorted).
    { eapply Permutation_Forall; [apply sortByMtime_perm|].
      rewrite Hvalid. apply Forall_map. eapply Forall_impl; [|exact Hall].
      intros f [_ Hf]. exact Hf. }
    assert (O : overLimit st = true).
    { unfold overLimit. rewrite Hvalid, length_map, Hlen. simpl. apply orb_true_r. }
    assert (Hk : evictCount (validFiles st) (totalSize st) = 1%nat).
    { assert (Ec : countToDelete sorted = 1%nat)
        by (unfold countToDelete; rewrite Hslen; reflexivity).
      unfold evictCount. rewrite size_after_count_pass by apply statsOf_total.
      fold sorted. rewrite Ec.
      rewrite sizePass_under; [reflexivity|].
      rewrite (sumSizes_uniform _ MiB).
      - rewrite length_skipn, Hslen. unfold MiB, MAX_CACHE_SIZE_BYTES. simpl. lia.
      - rewrite <- (firstn_skipn 1 sorted) in Hsz. apply Forall_app in Hsz. apply Hsz. }
    pose proof (sortByMtime_sorted (validFiles st)) as Hsorted. fold sorted in Hsorted.
    pose proof (sortByMtime_perm (validFiles st)) as Hperm. fold sorted in Hperm.
    pose proof (kept_after_prefix env (fs w) 1 Hnd) as P. cbv zeta in P.
    change (sortByMtime (validFiles (statsOf env (fs w)))) with sorted in P.
    specialize (Hover O). rewrite Hk in Hover.
    clearbody sorted.
    destruct sorted as [|h rest]; [discriminate|].
    assert (Hh : In h (validFiles st))
      by (apply (Permutation_in _ (Permutation_sym Hperm)); now left).
    rewrite Hvalid in Hh. apply in_map_iff in Hh as [oldest [Eh Ho]].
    exists oldest. split; [exact Ho|].
    assert (Hsel : selected env (fs w) = [h]) by exact Hover.
    split; [|split].
    + intros f Hf Hne.
      assert (Hname : f_name f <> f_name oldest).
      { intros E. apply Hne.
        pose proof (lookup_listed _ f Hnd Hf) as L1.
        pose proof (lookup_listed _ oldest Hnd Ho) as L2.
        rewrite E in L1. congruence. }
      assert (Hin : In (infoOf env f) (h :: rest)).
      { apply (Permutation_in _ Hperm). rewrite Hvalid. now apply in_map. }
      destruct Hin as [E|Hin].
      { exfalso. apply Hname. rewrite <- Eh in E.
        apply (f_equal name) in E. simpl in E. congruence. }
      inversion Hsorted as [|? ? _ Hle]; subst.
      rewrite Forall_forall in Hle. specialize (Hle _ Hin).
      unfold byMtime in Hle. simpl in Hle.
      assert (Hneq : f_mtime f <> f_mtime oldest).
      { intros E. apply Hne.
        clear - Hmt Hf Ho E. induction (entries (fs w)) as [|g l IH]; [destruct Hf|].
        simpl in Hmt. inversion Hmt as [|? ? Hg Hl]; subst.
        destruct Hf as [->|Hf], Ho as [->|Ho]; auto.
        - exfalso. apply Hg. rewrite E. now apply in_map.
        - exfalso. apply Hg. rewrite <- E. now apply in_map. }
      lia.
    + rewrite Hfs, Hsel. simpl. rewrite <- Eh. reflexivity.
    + simpl firstn in P. simpl skipn in P.
      rewrite Hfs, Hsel. rewrite <- (length_map (infoOf env)), (Permutation_length P).
      simpl in Hslen. lia.
Qed.

(** Claim C5, as the code has it. A deletion that fails ends the pass: the
    entries selected before it are deleted, the one that failed and every
    entry selected after it stay, no deletion of those is attempted, and
    the pass still returns normally. *)
Theorem eviction_stops_at_failed_delete w D1 x D2 msg :
  wellFormed (fs w) -> dirExists (fs w) = true ->
  selected env (fs w) = (D1 ++ x :: D2)%list ->
  quietFor env w (2 + List.length (cached (fs w)) + List.length D1) ->
  fault env (tick w + (2 + List.length (cached (fs w)) + List.length D1)) = Some msg ->
  let w' := snd (ensureCacheLimits env w) in
  fst (ensureCacheLimits env w) = inr tt /\
  fs w' = without (map name D1) (fs w) /\
  trace w' = (trace w ++ statOps (fs w) ++ deleteOps D1 ++ [DeleteFile (name x)])%list /\
  forall y, In y (x :: D2) ->
    lookupFile (name y) (fs w') = lookupFile (name y) (fs w) /\
    lookupFile (name y) (fs w') <> None.
Proof.
  intros [Hnd _] Hd Hsel Hq Hf w'.
  split; [apply ensureCacheLimits_returns|].
  unfold w'. rewrite (ensureCacheLimits_run_stops env w D1 x D2 msg); auto.
  cbn [snd advance fs trace]. split; [reflexivity|]. split; [reflexivity|].
  intros y Hy.
  assert (E : lookupFile (name y) (without (map name D1) (fs w)) =
              lookupFile (name y) (fs w)).
  { unfold lookupFile, without. cbn [entries]. apply lookup_removeAll_other.
    pose proof (selected_NoDup env (fs w) Hnd) as Hs. rewrite Hsel, map_app in Hs.
    intros Hin. apply (NoDup_app_disjoint _ _ (name y) Hs Hin). now apply in_map. }
  split; [exact E|]. rewrite E. apply (selected_listed env).
  rewrite Hsel. apply in_or_app. now right.
Qed.

End EvictionClaims.

Section Numbers.

(** **** Doubles *)

Lemma roundZ_small z : 0 <= z < 2 ^ 53 -> roundZ z = z.
Proof.
  intros [H0 H1]. unfold roundZ, roundMagnitude.
  assert (E0 : (z <? 0) = false) by (apply Z.ltb_ge; exact H0).
  assert (E1 : (z <? 2 ^ 53) = true) by (apply Z.ltb_lt; exact H1).
  now rewrite E0, E1.
Qed.

Lemma log2_large z : 2 ^ 53 <= z -> 53 <= Z.log2 z.
Proof.
  intros H. change 53 with (Z.log2 (2 ^ 53)) at 1. now apply Z.log2_le_mono.
Qed.

(** Above [2 ^ 53] rounding stays above it. *)
Lemma roundZ_large z : 2 ^ 53 <= z -> 2 ^ 53 <= roundZ z.
Proof.
  intros H. unfold roundZ, roundMagnitude.
  assert (Hpos : 0 < z) by (assert (0 < 2 ^ 53) by reflexivity; lia).
  assert (E0 : (z <? 0) = false) by (apply Z.ltb_ge; lia).
  assert (E1 : (z <? 2 ^ 53) = false) by (apply Z.ltb_ge; exact H).
  rewrite E0, E1.
  pose proof (log2_large z H) as HL.
  destruct (Z.log2_spec z Hpos) as [Hlo _].
  set (e := Z.log2 z - 52) in *.
  assert (He : 1 <= e) by (unfold e; lia).
  assert (Hp : 0 < 2 ^ e) by (apply Z.pow_pos_nonneg; lia).
  assert (Hsplit : 2 ^ Z.log2 z = 2 ^ 52 * 2 ^ e).
  { unfold e. rewrite <- Z.pow_add_r by lia. f_equal. lia. }
  assert (Hq : 2 ^ 52 <= z / 2 ^ e).
  { apply Z.div_le_lower_bound; [exact Hp|]. rewrite Z.mul_comm, <- Hsplit. exact Hlo. }
  assert (H2 : 2 <= 2 ^ e).
  { change 2 with (2 ^ 1) at 1. apply Z.pow_le_mono_r; lia. }
  assert (H52 : 0 < 2 ^ 52) by reflexivity.
  assert (H53 : 2 ^ 53 = 2 ^ 52 * 2) by reflexivity.
  destruct ((2 ^ (e - 1) <? z mod 2 ^ e) || _); nia.
Qed.

(** A multiple of the chunk size up to [2 ^ 53] chunks is a double. *)
Lemma roundZ_chunks k : 0 <= k <= 2 ^ 53 -> roundZ (k * CHUNK_SIZE) = k * CHUNK_SIZE.
Proof.
  intros [H0 H1].
  destruct (Z_lt_dec (k * CHUNK_SIZE) (2 ^ 53)) as [Hs|Hs].
  { apply roundZ_small. unfold CHUNK_SIZE in *. lia. }
  assert (Hz : 2 ^ 53 <= k * CHUNK_SIZE) by lia.
  assert (Hpos : 0 < k * CHUNK_SIZE) by (assert (0 < 2 ^ 53) by reflexivity; lia).
  unfold roundZ, roundMagnitude.
  assert (E0 : (k * CHUNK_SIZE <? 0) = false) by (apply Z.ltb_ge; lia).
  assert (E1 : (k * CHUNK_SIZE <? 2 ^ 53) = false) by (apply Z.ltb_ge; lia).
  rewrite E0, E1.
  pose proof (log2_large _ Hz) as HL.
  assert (HU : Z.log2 (k * CHUNK_SIZE) <= 73).
  { change 73 with (Z.log2 (2 ^ 73)). apply Z.log2_le_mono.
    change (2 ^ 73) with (2 ^ 53 * CHUNK_SIZE). unfold CHUNK_SIZE. lia. }
  set (e := Z.log2 (k * CHUNK_SIZE) - 52) in *.
  assert (He : 1 <= e <= 21) by (unfold e; lia).
  assert (Hp : 0 < 2 ^ e) by (apply Z.pow_pos_nonneg; lia).
  assert (Hmod : (k * CHUNK_SIZE) mod 2 ^ e = 0).
  { destruct (Z_le_dec e 20) as [Hle|Hgt].
    - assert (Ec : CHUNK_SIZE = 2 ^ (20 - e) * 2 ^ e).
      { rewrite <- Z.pow_add_r by lia. replace (20 - e + e) with 20 by lia. reflexivity. }
      rewrite Ec, Z.mul_assoc. apply Z.mod_mul. lia.
    - assert (Ee : e = 21) by lia.
      assert (Ek : k * CHUNK_SIZE = 2 ^ 73).
      { assert (HL73 : Z.log2 (k * CHUNK_SIZE) = 73) by (unfold e in Ee; lia).
        destruct (Z.log2_spec _ Hpos) as [Hlo _]. rewrite HL73 in Hlo.
        change (2 ^ 73) with (2 ^ 53 * CHUNK_SIZE) in *. unfold CHUNK_SIZE in *. lia. }
      rewrite Ek, Ee. reflexivity. }
  rewrite Hmod.
  assert (Hhalf : 0 < 2 ^ (e - 1)) by (apply Z.pow_pos_nonneg; lia).
  assert (F1 : (2 ^ (e - 1) <? 0) = false) by (apply Z.ltb_ge; lia).
  assert (F2 : (0 =? 2 ^ (e - 1)) = false) by (apply Z.eqb_neq; lia).
  rewrite F1, F2. cbn [orb andb].
  pose proof (Z.div_mod (k * CHUNK_SIZE) (2 ^ e)) as D. rewrite Hmod in D. lia.
Qed.

(** At [2 ^ 53] chunks the offset stops growing. *)
Lemma nextOffset_stuck : nextOffset (2 ^ 53 * CHUNK_SIZE) = 2 ^ 53 * CHUNK_SIZE.
Proof. vm_compute. reflexivity. Qed.

Lemma nextOffset_chunks k :
  0 <= k < 2 ^ 53 -> nextOffset (k * CHUNK_SIZE) = (k + 1) * CHUNK_SIZE.
Proof.
  intros H. unfold nextOffset.
  replace (k * CHUNK_SIZE + CHUNK_SIZE) with ((k + 1) * CHUNK_SIZE) by lia.
  apply roundZ_chunks. lia.
Qed.

(** Below [2 ^ 53] the end of a chunk is computed exactly. *)
Lemma chunkEnd_safe total offset :
  0 <= offset -> offset < total -> total <= 2 ^ 53 ->
  chunkEnd (Num total) offset = Z.min (offset + CHUNK_SIZE - 1) (total - 1).
Proof.
  intros H0 Hlt Hs. unfold chunkEnd.
  rewrite (roundZ_small (total - 1)) by lia.
  destruct (Z_lt_dec (offset + CHUNK_SIZE) (2 ^ 53)) as [Hin|Hout].
  - rewrite (roundZ_small (offset + CHUNK_SIZE)) by (unfold CHUNK_SIZE in *; lia).
    rewrite roundZ_small by (unfold CHUNK_SIZE in *; lia). reflexivity.
  - pose proof (roundZ_large (offset + CHUNK_SIZE) ltac:(lia)) as Hx.
    assert (Ha : total - 1 <= roundZ (roundZ (offset + CHUNK_SIZE) - 1)).
    { destruct (Z_lt_dec (roundZ (offset + CHUNK_SIZE) - 1) (2 ^ 53)) as [Hb|Hb].
      - rewrite roundZ_small; [lia|]. assert (0 < 2 ^ 53) by reflexivity. lia.
      - pose proof (roundZ_large (roundZ (offset + CHUNK_SIZE) - 1) ltac:(lia)). lia. }
    lia.
Qed.

(** The offset after a chunk, as far as the loop can tell. *)
Lemma nextOffset_safe total offset :
  0 <= offset -> offset < total -> total <= 2 ^ 53 ->
  nextOffset offset = offset + CHUNK_SIZE \/
  (total <= nextOffset offset /\ total <= offset + CHUNK_SIZE).
Proof.
  intros H0 Hlt Hs. unfold nextOffset.
  destruct (Z_lt_dec (offset + CHUNK_SIZE) (2 ^ 53)) as [Hin|Hout].
  - left. apply roundZ_small. unfold CHUNK_SIZE in *. lia.
  - right. pose proof (roundZ_large (offset + CHUNK_SIZE) ltac:(lia)). lia.
Qed.

End Numbers.

(** One digit of a decimal numeral, read by [digits]. *)
Ltac digit_step :=
  cbn [digits];
  match goal with |- context [digitValue ?c] =>
    let v := eval vm_compute in (digitValue c) in change (digitValue c) with v
  end;
  cbv iota;
  match goal with |- context [?v <? 10] => change (v <? 10) with true end;
  cbv iota.

Section Probe.

Variable env : Env.
Variable url : string.

Lemma digits_pos d : forall p,
  digits 10 (NilEmpty.string_of_uint d) (Some (Zpos p)) = Some (Zpos (Pos.of_uint_acc d p)).
Proof.
  induction d; intros p; cbn [NilEmpty.string_of_uint Pos.of_uint_acc];
    [reflexivity|..]; digit_step;
    match goal with |- digits 10 _ (Some ?z) = Some (Zpos (Pos.of_uint_acc _ ?q)) =>
      replace z with (Zpos q) by lia end; apply IHd.
Qed.

Lemma digits_zero d :
  digits 10 (NilEmpty.string_of_uint d) (Some 0) = Some (Z.of_N (Pos.of_uint d)).
Proof.
  induction d; cbn [NilEmpty.string_of_uint Pos.of_uint];
    [reflexivity|..]; digit_step; try exact IHd; apply digits_pos.
Qed.

Lemma digits_none d :
  d <> Decimal.Nil ->
  digits 10 (NilEmpty.string_of_uint d) None = Some (Z.of_N (Pos.of_uint d)).
Proof.
  intros Hd. destruct d; [now elim Hd|..];
    cbn [NilEmpty.string_of_uint Pos.of_uint]; digit_step;
    first [apply digits_zero | apply digits_pos].
Qed.

Lemma orElse_falsy a b : Js.truthy a = false -> Js.orElse a b = b.
Proof.
  destruct a as [s|]; simpl; [|reflexivity].
  destruct (s =? "")%string; [reflexivity|discriminate].
Qed.

(** A string that starts with an ASCII character other than white space
    has no white space to skip. *)
Lemma trimStart_plain c r :
  (nat_of_ascii c <? 128)%nat = true -> isWhite c = false ->
  trimStart (String c r) = String c r.
Proof.
  intros Hc Hw. apply Nat.ltb_lt in Hc. cbn [trimStart]. rewrite Hw.
  destruct r as [|c2 r2]; [reflexivity|].
  unfold isWhite2.
  replace (nat_of_ascii c =? 194)%nat with false by (symmetry; apply Nat.eqb_neq; lia).
  cbn [andb]. destruct r2 as [|c3 r3]; [reflexivity|].
  unfold isWhite3.
  replace (nat_of_ascii c =? 225)%nat with false by (symmetry; apply Nat.eqb_neq; lia).
  replace (nat_of_ascii c =? 226)%nat with false by (symmetry; apply Nat.eqb_neq; lia).
  replace (nat_of_ascii c =? 227)%nat with false by (symmetry; apply Nat.eqb_neq; lia).
  replace (nat_of_ascii c =? 239)%nat with false by (symmetry; apply Nat.eqb_neq; lia).
  reflexivity.
Qed.

(** [parseInt] reads a decimal numeral as the double nearest to the
    number it writes. *)
Lemma parseInt_numeral d :
  d <> Decimal.Nil ->
  parseInt (NilEmpty.string_of_uint d) = toNumber (Z.of_N (Pos.of_uint d)).
Proof.
  intros Hd.
  assert (E : parseInt (NilEmpty.string_of_uint d) =
              match digits 10 (NilEmpty.string_of_uint d) None with
              | Some m => toNumber (1 * m)
              | None => NaN
              end).
  { destruct d as [|d|d|d|d|d|d|d|d|d|d]; [now elim Hd|..];
      unfold parseInt; cbn [NilEmpty.string_of_uint];
      rewrite trimStart_plain by reflexivity; try reflexivity.
    destruct d; reflexivity. }
  rewrite E, digits_none by exact Hd. now rewrite Z.mul_1_l.
Qed.

Lemma to_uint_not_nil n : N.to_uint n <> Decimal.Nil.
Proof.
  intros E. pose proof (DecimalN.Unsigned.of_to n) as H. rewrite E in H.
  destruct n as [|p]; [discriminate E|].
  discriminate H.
Qed.

Lemma parseInt_decimal n : parseInt (decimal n) = toNumber (Z.of_N n).
Proof.
  unfold decimal.
  assert (E : NilZero.string_of_uint (N.to_uint n) = NilEmpty.string_of_uint (N.to_uint n)).
  { pose proof (to_uint_not_nil n). now destruct (N.to_uint n). }
  rewrite E, parseInt_numeral by apply to_uint_not_nil.
  change (Pos.of_uint (N.to_uint n)) with (N.of_uint (N.to_uint n)).
  now rewrite DecimalN.Unsigned.of_to.
Qed.

Lemma decimal_not_empty n : decimal n <> "".
Proof.
  unfold decimal. destruct (N.to_uint n); discriminate.
Qed.

(** The probe reads the length the server announces, as a double. *)
Lemma probe_announced n :
  announces (headers (respond env (Head url))) n -> probe env url = toNumber (Z.of_N n).
Proof.
  unfold announces, probe, contentLengthText.
  assert (E : (decimal n =? "")%string = false)
    by (apply String.eqb_neq, decimal_not_empty).
  assert (T : Js.truthy (Some (decimal n)) = true)
    by (unfold Js.truthy; now rewrite E).
  assert (O : Js.orElse (Some (decimal n)) "0" = decimal n)
    by (unfold Js.orElse; now rewrite E).
  intros [H|[H1 H2]].
  - rewrite H, T, O. apply parseInt_decimal.
  - rewrite H1, H2, O. apply parseInt_decimal.
Qed.

(** With no length under either name the probe reads ["0"]. *)
Lemma probe_unannounced :
  let h := headers (respond env (Head url)) in
  Js.truthy (lookupHeader "Content-Length" h) = false ->
  Js.truthy (lookupHeader "content-length" h) = false ->
  probe env url = Num 0.
Proof.
  intros h H1 H2. unfold probe, contentLengthText. fold h. rewrite H1.
  now rewrite (orElse_falsy _ "0" H2).
Qed.

Lemma pow_53_1024 : 2 ^ 53 < 2 ^ 1024.
Proof. apply Z.pow_lt_mono_r; lia. Qed.

(** Up to [2 ^ 53] a size is read as it is written. *)
Lemma toNumber_safe z : 0 <= z <= 2 ^ 53 -> toNumber z = Num z.
Proof.
  intros Hz. unfold toNumber.
  assert (E : roundZ z = z).
  { destruct (Z.eq_dec z (2 ^ 53)) as [->|H]; [vm_compute; reflexivity|].
    apply roundZ_small. lia. }
  rewrite E. pose proof pow_53_1024 as Hp.
  destruct (Z.leb_spec (2 ^ 1024) z) as [H|_]; [lia|].
  destruct (Z.leb_spec z (- 2 ^ 1024)) as [H|_]; [lia|reflexivity].
Qed.

Lemma useChunks_large n : useChunks (Num n) = true <-> LARGE_FILE_BYTES < n.
Proof.
  unfold useChunks, greater, LARGE_FILE_BYTES. rewrite andb_true_iff, !Z.ltb_lt. lia.
Qed.

(** Rounding a size does not move it across the threshold of 50 MiB. *)
Lemma useChunks_toNumber z :
  0 <= z -> useChunks (toNumber z) = true <-> LARGE_FILE_BYTES < z.
Proof.
  intros Hz. destruct (Z_lt_dec z (2 ^ 53)) as [H|H].
  - rewrite toNumber_safe by lia. apply useChunks_large.
  - assert (Hl : LARGE_FILE_BYTES < 2 ^ 53) by (vm_compute; reflexivity).
    pose proof (roundZ_large z ltac:(lia)) as Hr.
    split; [lia|]. intros _. unfold toNumber.
    destruct (2 ^ 1024 <=? roundZ z); [reflexivity|].
    destruct (Z.leb_spec (roundZ z) (- 2 ^ 1024)) as [H1|_].
    + assert (0 < 2 ^ 1024) by (apply Z.pow_pos_nonneg; lia). lia.
    + apply useChunks_large. lia.
Qed.

End Probe.

Section Chunks.

Variable env : Env.

Lemma chunkLoop_exit fuel url tmp total offset w :
  lessThan offset total = false ->
  chunkLoop env fuel url tmp total offset w = Some (inr tt, w).
Proof. intros H. destruct fuel; simpl; rewrite H; reflexivity. Qed.

Lemma chunkLoop_out url tmp total offset w :
  lessThan offset total = true -> chunkLoop env 0 url tmp total offset w = None.
Proof. intros H. simpl. rewrite H. reflexivity. Qed.

Lemma chunkLoop_step fuel url tmp total offset w :
  lessThan offset total = true ->
  chunkLoop env (S fuel) url tmp total offset w =
    match http env (Get url (Some (offset, chunkEnd total offset))) w with
    | (inl e, w1) => Some (inl e, w1)
    | (inr response, w1) =>
        if 400 <=? status response
        then Some (inl (DownloadChunkFailed (status response)), w1)
        else
          match (if offset =? 0 then writeFile env tmp (data response)
                 else appendFile env tmp (data response)) w1 with
          | (inl e, w2) => Some (inl e, w2)
          | (inr _, w2) => chunkLoop env fuel url tmp total (nextOffset offset) w2
          end
    end.
Proof. intros H. simpl. rewrite H. reflexivity. Qed.

(** The loop for a size below [2 ^ 53], where its arithmetic is exact. *)
Lemma chunkLoop_step_safe fuel url tmp total offset w :
  0 <= offset -> total <= 2 ^ 53 ->
  chunkLoop env (S fuel) url tmp (Num total) offset w =
  if offset <? total then
    match http env (Get url (Some (offset, Z.min (offset + CHUNK_SIZE - 1) (total - 1)))) w with
    | (inl e, w1) => Some (inl e, w1)
    | (inr response, w1) =>
        if 400 <=? status response
        then Some (inl (DownloadChunkFailed (status response)), w1)
        else
          match (if offset =? 0 then writeFile env tmp (data response)
                 else appendFile env tmp (data response)) w1 with
          | (inl e, w2) => Some (inl e, w2)
          | (inr _, w2) => chunkLoop env fuel url tmp (Num total) (offset + CHUNK_SIZE) w2
          end
    end
  else Some (inr tt, w).
Proof.
  intros H0 Hs. destruct (offset <? total) eqn:Lt.
  - rewrite chunkLoop_step by exact Lt. apply Z.ltb_lt in Lt.
    rewrite chunkEnd_safe by assumption.
    destruct (http env _ w) as [[e|response] w1]; [reflexivity|].
    destruct (400 <=? status response); [reflexivity|].
    destruct ((if offset =? 0 then writeFile env tmp (data response)
               else appendFile env tmp (data response)) w1) as [[e|u] w2]; [reflexivity|].
    destruct (nextOffset_safe total offset H0 Lt Hs) as [->|[H1 H2]]; [reflexivity|].
    rewrite !chunkLoop_exit; [reflexivity| |]; simpl; now apply Z.ltb_ge.
  - now apply chunkLoop_exit.
Qed.

Lemma chunkCount_done total offset : total <= offset -> chunkCount total offset = 0%nat.
Proof.
  intros H. unfold chunkCount, CHUNK_SIZE.
  assert ((total - offset + 1024 * 1024 - 1) / (1024 * 1024) <= 0).
  { apply Z.lt_succ_r. apply Z.div_lt_upper_bound; lia. }
  lia.
Qed.

Lemma chunkCount_more total offset :
  offset < total ->
  chunkCount total offset = S (chunkCount total (offset + CHUNK_SIZE)).
Proof.
  intros H. unfold chunkCount, CHUNK_SIZE.
  replace (total - (offset + 1024 * 1024) + 1024 * 1024 - 1)
    with (total - offset + 1024 * 1024 - 1 + (-1) * (1024 * 1024)) by lia.
  rewrite Z.div_add by lia.
  assert (1 <= (total - offset + 1024 * 1024 - 1) / (1024 * 1024))
    by (apply Z.div_le_lower_bound; lia).
  lia.
Qed.

Lemma rangesFrom_tiles n : forall total offset,
  0 <= offset -> total <= 2 ^ 53 ->
  offset < total -> chunkCount total offset = n ->
  tiles offset (rangesFrom total offset n) (total - 1).
Proof.
  induction n as [|n IH]; intros total offset H0 Hs Hlt Hn.
  - rewrite chunkCount_more in Hn by exact Hlt. discriminate.
  - rewrite chunkCount_more in Hn by exact Hlt. injection Hn as Hn.
    cbn [rangesFrom tiles]. rewrite chunkEnd_safe by assumption.
    destruct (Z_lt_dec (offset + CHUNK_SIZE) total) as [Hmore|Hlast].
    + rewrite Z.min_l by lia.
      split; [reflexivity|]. split; [unfold CHUNK_SIZE; lia|]. split; [left; lia|].
      replace (offset + CHUNK_SIZE - 1 + 1) with (offset + CHUNK_SIZE) by lia.
      apply IH; auto. unfold CHUNK_SIZE. lia.
    + rewrite Z.min_r by lia.
      assert (E : n = 0%nat) by (rewrite <- Hn; apply chunkCount_done; lia).
      clear Hn. subst n. cbn [rangesFrom tiles].
      split; [reflexivity|]. split; [lia|]. split; [right; split; [reflexivity|lia]|lia].
Qed.

(** The ranges of a transfer cut the bytes [0 .. total - 1], for a size
    of at most [2 ^ 53]. *)
Lemma chunkRanges_tiles total :
  0 < total -> total <= 2 ^ 53 -> tiles 0 (chunkRanges total) (total - 1).
Proof. intros H Hs. apply rangesFrom_tiles; auto. lia. Qed.

(** **** What the platform calls leave alone *)

Lemma lookup_putEntry_other n f l :
  n <> f_name f ->
  find (fun g => (f_name g =? n)%string) (putEntry f l) =
  find (fun g => (f_name g =? n)%string) l.
Proof.
  intros Hn. induction l as [|g l IH]; simpl.
  - assert (E : (f_name f =? n)%string = false) by (apply String.eqb_neq; congruence).
    now rewrite E.
  - destruct (f_name g =? f_name f)%string eqn:E; simpl.
    + apply String.eqb_eq in E.
      assert (E1 : (f_name f =? n)%string = false) by (apply String.eqb_neq; congruence).
      assert (E2 : (f_name g =? n)%string = false) by (apply String.eqb_neq; congruence).
      now rewrite E1, E2.
    + destruct (f_name g =? n)%string; [reflexivity|exact IH].
Qed.

Lemma lookup_putEntry_same f l :
  find (fun g => (f_name g =? f_name f)%string) (putEntry f l) = Some f.
Proof.
  induction l as [|g l IH]; simpl.
  - now rewrite String.eqb_refl.
  - destruct (f_name g =? f_name f)%string eqn:E; simpl.
    + now rewrite String.eqb_refl.
    + now rewrite E.
Qed.

(** A platform call changes the directory only through its action. *)
Lemma call_cases {A} op (act : FS -> Z -> Result A * FS) w :
  (exists msg, call env op act w = (inl (NativeError msg), advance w (fs w) [op])) \/
  call env op act w =
    (fst (act (fs w) (clockAt env (tick w))),
     advance w (snd (act (fs w) (clockAt env (tick w)))) [op]).
Proof.
  destruct (fault env (tick w)) as [msg|] eqn:F.
  - left. exists msg. now apply call_fault.
  - right. now apply call_ok.
Qed.

Lemma http_fs q w : fs (snd (http env q w)) = fs w.
Proof.
  unfold http. destruct (call_cases (Http q) (fun d _ => (inr (respond env q), d)) w)
    as [[msg E]|E]; rewrite E; reflexivity.
Qed.

Lemma http_result q w r w1 :
  http env q w = (inr r, w1) -> r = respond env q /\ w1 = advance w (fs w) [Http q].
Proof.
  unfold http. destruct (call_cases (Http q) (fun d _ => (inr (respond env q), d)) w)
    as [[msg E]|E]; rewrite E; simpl; intros H; inversion H; auto.
Qed.

Lemma http_trace q w : trace (snd (http env q w)) = (trace w ++ [Http q])%list.
Proof.
  unfold http. destruct (call_cases (Http q) (fun d _ => (inr (respond env q), d)) w)
    as [[msg E]|E]; rewrite E; reflexivity.
Qed.

Lemma writeFile_ok n p w w1 u :
  writeFile env n p w = (inr u, w1) ->
  w1 = advance w {| dirExists := true;
                    entries := putEntry {| f_name := n; f_data := [p];
                                           f_mtime := clockAt env (tick w) |}
                                 (entries (fs w)) |} [WriteFile n p].
Proof.
  unfold writeFile.
  destruct (call_cases (WriteFile n p) (fun d now =>
    (inr tt, {| dirExists := true;
                entries := putEntry {| f_name := n; f_data := [p]; f_mtime := now |}
                             (entries d) |})) w) as [[msg E]|E];
    rewrite E; simpl; intros H; inversion H; auto.
Qed.

Lemma writeFile_frame n p w m :
  m <> n -> lookupFile m (fs (snd (writeFile env n p w))) = lookupFile m (fs w).
Proof.
  intros Hm. unfold writeFile.
  destruct (call_cases (WriteFile n p) (fun d now =>
    (inr tt, {| dirExists := true;
                entries := putEntry {| f_name := n; f_data := [p]; f_mtime := now |}
                             (entries d) |})) w) as [[msg E]|E];
    rewrite E; simpl; [reflexivity|].
  unfold lookupFile. simpl. now apply lookup_putEntry_other.
Qed.

Lemma appendFile_ok n p w w1 u :
  appendFile env n p w = (inr u, w1) ->
  w1 = advance w {| dirExists := true;
                    entries := putEntry {| f_name := n; f_data := (dataAt n (fs w) ++ [p])%list;
                                           f_mtime := clockAt env (tick w) |}
                                 (entries (fs w)) |} [AppendFile n p].
Proof.
  unfold appendFile.
  match goal with |- call env ?op ?act w = _ -> _ =>
    destruct (call_cases op act w) as [[msg E]|E]; rewrite E end;
    simpl; [intros H; inversion H|].
  destruct (dirExists (fs w)); simpl; intros H; inversion H. reflexivity.
Qed.

Lemma appendFile_frame n p w m :
  m <> n -> lookupFile m (fs (snd (appendFile env n p w))) = lookupFile m (fs w).
Proof.
  intros Hm. unfold appendFile.
  match goal with |- context [call env ?op ?act w] =>
    destruct (call_cases op act w) as [[msg E]|E]; rewrite E end;
    simpl; [reflexivity|].
  destruct (dirExists (fs w)); simpl; [|reflexivity].
  unfold lookupFile. simpl. now apply lookup_putEntry_other.
Qed.

End Chunks.

Section ChunkLoop.

Variable env : Env.
Variables url tmp : string.

Lemma chunkLoop_frame fuel : forall total offset w r w' m,
  m <> tmp ->
  chunkLoop env fuel url tmp total offset w = Some (r, w') ->
  lookupFile m (fs w') = lookupFile m (fs w).
Proof.
  induction fuel as [|fuel IH]; intros total offset w r w' m Hm;
    destruct (lessThan offset total) eqn:Lt.
  all: try (rewrite chunkLoop_exit by exact Lt; intros E; now inversion E).
  - rewrite chunkLoop_out by exact Lt. discriminate.
  - rewrite chunkLoop_step by exact Lt.
    pose proof (http_fs env (Get url (Some (offset, chunkEnd total offset))) w) as Hh.
    destruct (http env _ w) as [[e|resp] w1]; simpl in Hh;
      [intros E; inversion E; subst; now rewrite Hh|].
    destruct (400 <=? status resp); [intros E; inversion E; subst; now rewrite Hh|].
    assert (Hw : forall o, o = (if offset =? 0 then writeFile env tmp (data resp)
                                else appendFile env tmp (data resp)) w1 ->
                 lookupFile m (fs (snd o)) = lookupFile m (fs w)).
    { intros o ->. rewrite <- Hh.
      destruct (offset =? 0); [now apply writeFile_frame|now apply appendFile_frame]. }
    destruct ((if offset =? 0 then writeFile env tmp (data resp)
               else appendFile env tmp (data resp)) w1) as [[e|u] w2] eqn:Ew.
    + intros E. inversion E. subst. exact (Hw _ eq_refl).
    + intros E. rewrite (IH _ _ _ _ _ m Hm E). exact (Hw _ eq_refl).
Qed.

Lemma dataAt_put n d t ex l :
  dataAt n {| dirExists := ex;
              entries := putEntry {| f_name := n; f_data := d; f_mtime := t |} l |} = d.
Proof.
  unfold dataAt, lookupFile. cbn [entries].
  now rewrite (lookup_putEntry_same {| f_name := n; f_data := d; f_mtime := t |}).
Qed.

Lemma lookup_put n d t ex l :
  lookupFile n {| dirExists := ex;
                  entries := putEntry {| f_name := n; f_data := d; f_mtime := t |} l |}
  <> None.
Proof.
  unfold lookupFile. cbn [entries].
  now rewrite (lookup_putEntry_same {| f_name := n; f_data := d; f_mtime := t |}).
Qed.

(** A step of the loop that goes on: the chunk was fetched, accepted and
    stored. *)
Lemma chunkLoop_goes_on fuel total offset w r w' :
  lessThan offset total = true ->
  chunkLoop env (S fuel) url tmp total offset w = Some (inr r, w') ->
  exists w2,
    (if offset =? 0
     then writeFile env tmp (payload env url (offset, chunkEnd total offset))
     else appendFile env tmp (payload env url (offset, chunkEnd total offset)))
      (advance w (fs w) [Http (Get url (Some (offset, chunkEnd total offset)))])
    = (inr tt, w2) /\
    chunkLoop env fuel url tmp total (nextOffset offset) w2 = Some (inr r, w').
Proof.
  intros Lt. rewrite chunkLoop_step by exact Lt.
  destruct (http env _ w) as [[e|resp] w1] eqn:Eh; [discriminate|].
  apply http_result in Eh as [-> ->].
  destruct (400 <=? status _); [discriminate|].
  unfold payload.
  match goal with |- match ?x with _ => _ end = _ -> _ =>
    destruct x as [[e|[]] w2]; [discriminate|] end.
  intros E. exists w2. split; [reflexivity|exact E].
Qed.

(** Only a loop over a finite size ends well: for [Infinity] the
    condition never fails. *)
Lemma chunkLoop_finite fuel : forall total k w u w',
  0 <= k <= 2 ^ 53 ->
  lessThan (k * CHUNK_SIZE) total = true ->
  chunkLoop env fuel url tmp total (k * CHUNK_SIZE) w = Some (inr u, w') ->
  exists t, total = Num t.
Proof.
  induction fuel as [|fuel IH]; intros total k w u w' Hk Lt.
  - rewrite chunkLoop_out by exact Lt. discriminate.
  - destruct total as [|t| |]; try discriminate; [intros _; now exists t|].
    intros E. apply chunkLoop_goes_on in E as [w2 [_ E]]; [|exact Lt].
    destruct (Z_lt_dec k (2 ^ 53)) as [Hlt|Hge].
    + rewrite nextOffset_chunks in E by lia.
      apply (IH _ (k + 1) w2 u w'); [lia|reflexivity|exact E].
    + assert (Ek : k = 2 ^ 53) by lia. subst k. rewrite nextOffset_stuck in E.
      apply (IH _ (2 ^ 53) w2 u w'); [lia|reflexivity|exact E].
Qed.

(** Past [2 ^ 53] chunks the offset stays where it is: the loop cannot
    end well any more. *)
Lemma chunkLoop_stuck fuel : forall total w u w',
  lessThan (2 ^ 53 * CHUNK_SIZE) total = true ->
  chunkLoop env fuel url tmp total (2 ^ 53 * CHUNK_SIZE) w <> Some (inr u, w').
Proof.
  induction fuel as [|fuel IH]; intros total w u w' Lt E.
  - rewrite chunkLoop_out in E by exact Lt. discriminate.
  - apply chunkLoop_goes_on in E as [w2 [_ E]]; [|exact Lt].
    rewrite nextOffset_stuck in E. exact (IH _ _ _ _ Lt E).
Qed.

(** A loop that ends well past the first chunk has appended every body. *)
Lemma chunkLoop_appends fuel : forall total k w w' u,
  1 <= k <= 2 ^ 53 ->
  chunkLoop env fuel url tmp (Num total) (k * CHUNK_SIZE) w = Some (inr u, w') ->
  dataAt tmp (fs w') =
    (dataAt tmp (fs w)
     ++ map (payload env url)
          (rangesFrom total (k * CHUNK_SIZE)
             (chunkCount total (k * CHUNK_SIZE))))%list /\
  (lookupFile tmp (fs w) <> None -> lookupFile tmp (fs w') <> None).
Proof.
  induction fuel as [|fuel IH]; intros total k w w' u Hk;
    destruct (lessThan (k * CHUNK_SIZE) (Num total)) eqn:Lt.
  all: try (rewrite chunkLoop_exit by exact Lt; intros E; inversion E; subst;
            simpl in Lt; apply Z.ltb_ge in Lt;
            rewrite chunkCount_done by exact Lt; simpl; rewrite app_nil_r; auto).
  - rewrite chunkLoop_out by exact Lt. discriminate.
  - intros E.
    destruct (Z_lt_dec k (2 ^ 53)) as [Hlt|Hge].
    2:{ assert (Ek : k = 2 ^ 53) by lia. subst k. now apply chunkLoop_stuck in E. }
    apply chunkLoop_goes_on in E as [w2 [Ea E]]; [|exact Lt].
    assert (Ez : (k * CHUNK_SIZE =? 0) = false)
      by (apply Z.eqb_neq; unfold CHUNK_SIZE; lia).
    rewrite Ez in Ea. apply appendFile_ok in Ea.
    rewrite nextOffset_chunks in E by lia.
    apply IH in E; [|lia]. destruct E as [Hd Hl].
    subst w2. cbn [advance fs] in *. rewrite dataAt_put in Hd.
    simpl in Lt. apply Z.ltb_lt in Lt.
    rewrite (chunkCount_more total (k * CHUNK_SIZE)) by exact Lt.
    replace (k * CHUNK_SIZE + CHUNK_SIZE) with ((k + 1) * CHUNK_SIZE) by lia.
    split.
    + rewrite Hd. cbn [rangesFrom map].
      replace (k * CHUNK_SIZE + CHUNK_SIZE) with ((k + 1) * CHUNK_SIZE) by lia.
      now rewrite <- app_assoc.
    + intros _. apply Hl. apply lookup_put.
Qed.

(** A loop that ends well has written every body, in order, whatever the
    temp file held before; and its size was a finite one. *)
Lemma chunkLoop_writes fuel total w w' u :
  lessThan 0 total = true ->
  chunkLoop env fuel url tmp total 0 w = Some (inr u, w') ->
  exists t, total = Num t /\
    dataAt tmp (fs w') = map (payload env url) (chunkRanges t) /\
    lookupFile tmp (fs w') <> None.
Proof.
  intros Lt E.
  destruct (chunkLoop_finite fuel total 0 w u w') as [t ->]; [lia|exact Lt|exact E|].
  exists t. split; [reflexivity|].
  destruct fuel as [|fuel]; [rewrite chunkLoop_out in E by exact Lt; discriminate|].
  apply chunkLoop_goes_on in E as [w2 [Ea E]]; [|exact Lt].
  cbn [Z.eqb] in Ea. apply writeFile_ok in Ea.
  change (nextOffset 0) with (nextOffset (0 * CHUNK_SIZE)) in E.
  rewrite nextOffset_chunks in E by (split; [lia|reflexivity]).
  apply chunkLoop_appends in E; [|split; [lia|discriminate]].
  destruct E as [Hd Hl]. subst w2. cbn [advance fs] in *.
  rewrite dataAt_put in Hd. simpl in Lt. apply Z.ltb_lt in Lt. split.
  - rewrite Hd. unfold chunkRanges. rewrite (chunkCount_more t 0) by exact Lt.
    reflexivity.
  - apply Hl. apply lookup_put.
Qed.

(** With no failing platform call, and for a size of at most [2 ^ 53],
    the loop fetches and stores the ranges up to the first one the server
    refuses, and throws there; the fuel of the chunks suffices. *)
Lemma chunkLoop_run n : forall fuel total offset w,
  noFault env -> 0 <= offset -> total <= 2 ^ 53 ->
  chunkCount total offset = n -> (n <= fuel)%nat ->
  (offset <> 0 -> dirExists (fs w) = true) ->
  let rs := rangesFrom total offset n in
  exists r w',
    chunkLoop env fuel url tmp (Num total) offset w = Some (r, w') /\
    r = match find (refused env url) rs with
        | Some q => inl (DownloadChunkFailed (status (respond env (Get url (Some q)))))
        | None => inr tt
        end /\
    trace w' =
      (trace w ++ chunkOps env url tmp (offset =? 0) (accepted env url rs) ++
       match find (refused env url) rs with
       | Some q => [Http (Get url (Some q))]
       | None => []
       end)%list.
Proof.
  induction n as [|n IH]; intros fuel total offset w Hq Hpos Hs Hn Hfuel Hdir.
  - assert (Lt : lessThan offset (Num total) = false).
    { simpl. apply Z.ltb_ge. destruct (Z_lt_dec offset total) as [H|H]; [|lia].
      rewrite chunkCount_more in Hn by exact H. discriminate. }
    rewrite chunkLoop_exit by exact Lt. do 2 eexists. split; [reflexivity|].
    simpl. now rewrite app_nil_r.
  - destruct fuel as [|fuel]; [lia|].
    rewrite chunkLoop_step_safe by assumption.
    destruct (offset <? total) eqn:Lt.
    2:{ apply Z.ltb_ge in Lt. rewrite chunkCount_done in Hn by exact Lt. discriminate. }
    apply Z.ltb_lt in Lt. rewrite chunkCount_more in Hn by exact Lt. injection Hn as Hn.
    unfold http. rewrite call_ok by apply Hq. cbn [fst snd].
    cbn [rangesFrom find accepted]. rewrite chunkEnd_safe by assumption.
    set (r := (offset, Z.min (offset + CHUNK_SIZE - 1) (total - 1))).
    change (400 <=? status (respond env (Get url (Some r)))) with (refused env url r).
    destruct (refused env url r) eqn:Bad.
    + do 2 eexists. split; [reflexivity|].
      cbn [advance trace chunkOps app]. split; reflexivity.
    + set (w1 := advance w (fs w) [Http (Get url (Some r))]).
      assert (Hnext : forall w2,
                trace w2 = (trace w1 ++
                            [if offset =? 0 then WriteFile tmp (payload env url r)
                             else AppendFile tmp (payload env url r)])%list ->
                dirExists (fs w2) = true ->
                exists r0 w',
                  chunkLoop env fuel url tmp (Num total) (offset + CHUNK_SIZE) w2
                    = Some (r0, w') /\
                  r0 = match find (refused env url)
                               (rangesFrom total (offset + CHUNK_SIZE) n) with
                       | Some q =>
                           inl (DownloadChunkFailed (status (respond env (Get url (Some q)))))
                       | None => inr tt
                       end /\
                  trace w' =
                    (trace w ++ chunkOps env url tmp (offset =? 0)
                       (r :: accepted env url (rangesFrom total (offset + CHUNK_SIZE) n)) ++
                     match find (refused env url)
                             (rangesFrom total (offset + CHUNK_SIZE) n) with
                     | Some q => [Http (Get url (Some q))]
                     | None => []
                     end)%list).
      { intros w2 Ht Hd.
        destruct (IH fuel total (offset + CHUNK_SIZE) w2 Hq) as [r0 [w' [E [H1 H2]]]];
          [unfold CHUNK_SIZE; lia|exact Hs|exact Hn|lia|auto|].
        exists r0, w'. split; [exact E|]. split; [exact H1|].
        rewrite H2, Ht. unfold w1. cbn [advance trace].
        assert (Ez : (offset + CHUNK_SIZE =? 0) = false)
          by (apply Z.eqb_neq; unfold CHUNK_SIZE; lia).
        rewrite Ez. cbn [chunkOps]. rewrite <- !app_assoc. reflexivity. }
      destruct (offset =? 0) eqn:Ez.
      * unfold writeFile. rewrite call_ok by apply Hq. cbn [fst snd]. apply Hnext; reflexivity.
      * assert (Hd1 : dirExists (fs w1) = true).
        { unfold w1. cbn [advance fs]. apply Hdir. now apply Z.eqb_neq. }
        unfold appendFile. rewrite call_ok by apply Hq. rewrite Hd1. cbn [fst snd].
        apply Hnext; reflexivity.
Qed.

End ChunkLoop.

Section Download.

Variable env : Env.
Variables url fileName : string.

Lemma bind_assoc {A B C} (m : M A) (k : A -> M B) (k' : B -> M C) w :
  bind (bind m k) k' w = bind m (fun a => bind (k a) k') w.
Proof. unfold bind. destruct (m w) as [[e|a] w1]; reflexivity. Qed.

Lemma bind_ext {A B} (m : M A) (k k' : A -> M B) w :
  (forall a w1, k a w1 = k' a w1) -> bind m k w = bind m k' w.
Proof. intros H. unfold bind. destruct (m w) as [[e|a] w1]; [reflexivity|apply H]. Qed.

Lemma bindP_settles {A B} (m : M A) (k : A -> P B) w :
  bindP (settles m) k w =
  match m w with
  | (inl e, w1) => Some (inl e, w1)
  | (inr a, w1) => k a w1
  end.
Proof. unfold bindP, settles. destruct (m w) as [[e|a] w1]; reflexivity. Qed.

(** [downloadToCache] is its [try] block under its [catch] block. *)
Lemma downloadToCache_try fuel w :
  downloadToCache env fuel url fileName w =
  tryCatchP (attempt env fuel url fileName) (cleanup env (fileName ++ ".tmp")) w.
Proof.
  unfold downloadToCache, cleanup, tryCatchP.
  match goal with |- match ?b w with _ => _ end = _ =>
    assert (E : b w = attempt env fuel url fileName w) end.
  { unfold attempt. rewrite !bindP_settles. unfold prepare.
    set (a1 := tryCatch (readdir env;;; ret tt) (fun _ => mkdir env)).
    set (a3 := tryCatch (deleteFile env (fileName ++ ".tmp")) (fun _ => ret tt)).
    unfold bind.
    destruct (a1 w) as [[e|u] w0]; [reflexivity|].
    rewrite bindP_settles.
    destruct (http env (Head url) w0) as [[e|h] w1]; [reflexivity|].
    rewrite bindP_settles.
    destruct (a3 w1) as [[e|u1] w2]; reflexivity. }
  rewrite E. reflexivity.
Qed.

(** The phases of a download. *)
Lemma downloadToCache_phases fuel w :
  downloadToCache env fuel url fileName w =
  match prepare env url (fileName ++ ".tmp") w with
  | (inl e, w1) => Some (cleanup env (fileName ++ ".tmp") e w1)
  | (inr total, w1) =>
      match transfer env fuel url (fileName ++ ".tmp") total w1 with
      | None => None
      | Some (inl e, w2) => Some (cleanup env (fileName ++ ".tmp") e w2)
      | Some (inr _, w2) =>
          Some (tryCatch (promote env (fileName ++ ".tmp") fileName)
                  (cleanup env (fileName ++ ".tmp")) w2)
      end
  end.
Proof.
  rewrite downloadToCache_try. unfold tryCatchP, attempt, bindP at 1, settles at 1.
  destruct (prepare env url (fileName ++ ".tmp") w) as [[e|total] w1]; [reflexivity|].
  unfold bindP.
  destruct (transfer env fuel url (fileName ++ ".tmp") total w1) as [[[e|u] w2]|];
    try reflexivity.
  unfold settles, tryCatch.
  destruct (promote env (fileName ++ ".tmp") fileName w2) as [[e|a] w3]; reflexivity.
Qed.

Lemma append_length a b : String.length (a ++ b) = (String.length a + String.length b)%nat.
Proof. induction a as [|c a IH]; simpl; [reflexivity|]. now rewrite IH. Qed.

Lemma tmp_differs : fileName <> (fileName ++ ".tmp").
Proof.
  intros E. apply (f_equal String.length) in E.
  rewrite append_length in E. simpl in E. lia.
Qed.

Lemma Keeps_ret {A} m (a : A) : Keeps m (ret a).
Proof. intros w. reflexivity. Qed.

Lemma Keeps_throw {A} m e : Keeps m (@throw A e).
Proof. intros w. reflexivity. Qed.

Lemma Keeps_bind {A B} m (c : M A) (k : A -> M B) :
  Keeps m c -> (forall a, Keeps m (k a)) -> Keeps m (bind c k).
Proof.
  intros Hc Hk w. unfold bind. specialize (Hc w).
  destruct (c w) as [[e|a] w1]; simpl in *; [exact Hc|].
  rewrite Hk. exact Hc.
Qed.

Lemma Keeps_tryCatch {A} m (c : M A) (h : Thrown -> M A) :
  Keeps m c -> (forall e, Keeps m (h e)) -> Keeps m (tryCatch c h).
Proof.
  intros Hc Hh w. unfold tryCatch. specialize (Hc w).
  destruct (c w) as [[e|a] w1]; simpl in *; [|exact Hc].
  rewrite Hh. exact Hc.
Qed.

Lemma Keeps_call {A} m op (act : FS -> Z -> Result A * FS) :
  (forall d now, lookupFile m (snd (act d now)) = lookupFile m d) ->
  Keeps m (call env op act).
Proof.
  intros H w. destruct (call_cases env op act w) as [[msg E]|E]; rewrite E; simpl.
  - reflexivity.
  - apply H.
Qed.

Lemma Keeps_readdir m : Keeps m (readdir env).
Proof. apply Keeps_call. intros d now. now destruct (dirExists d). Qed.

Lemma Keeps_mkdir m : Keeps m (mkdir env).
Proof. apply Keeps_call. intros d now. now destruct (dirExists d). Qed.

Lemma Keeps_http m q : Keeps m (http env q).
Proof. apply Keeps_call. reflexivity. Qed.

Lemma Keeps_deleteFile m n : m <> n -> Keeps m (deleteFile env n).
Proof.
  intros Hm. apply Keeps_call. intros d now.
  destruct (lookupFile n d); simpl; [|reflexivity].
  unfold lookupFile. simpl. now apply lookup_removeEntry_other.
Qed.

Lemma Keeps_writeFile m n p : m <> n -> Keeps m (writeFile env n p).
Proof. intros Hm w. now apply writeFile_frame. Qed.

(** What starting the pass does: one [readdir], and the pass is in
    flight; the directory is as it was. *)
Lemma detach_run w :
  exists r,
    detach env w =
      (inr tt, {| fs := fs w; tick := S (tick w);
                  trace := (trace w ++ [Detach; Readdir])%list;
                  inFlight := (inFlight w ++ [r])%list |}) /\
    (fault env (tick w) = None -> dirExists (fs w) = true -> r = inr tt).
Proof.
  unfold detach, bind, readdir, call. cbn [fs tick trace inFlight].
  destruct (fault env (tick w)) as [msg|].
  - eexists. split; [rewrite <- app_assoc; reflexivity|]. intros H. discriminate H.
  - destruct (dirExists (fs w)).
    + eexists. cbn [ret fs tick trace inFlight]. split; [rewrite <- app_assoc; reflexivity|].
      reflexivity.
    + eexists. split; [rewrite <- app_assoc; reflexivity|]. intros _ H. discriminate H.
Qed.


Lemma Keeps_prepare m : m <> (fileName ++ ".tmp")
    -> Keeps m (prepare env url (fileName ++ ".tmp")).
Proof.
  intros Hm. unfold prepare.
  apply Keeps_bind; [|intros _; apply Keeps_bind; [apply Keeps_http|]].
  - apply Keeps_tryCatch; [|intros; apply Keeps_mkdir].
    apply Keeps_bind; [apply Keeps_readdir|intros; apply Keeps_ret].
  - intros h. apply Keeps_bind; [|intros; apply Keeps_ret].
    apply Keeps_tryCatch; [now apply Keeps_deleteFile|intros; apply Keeps_ret].
Qed.

(** A transfer, however it ends, leaves the files of other names alone. *)
Lemma transfer_frame fuel m total w r w2 :
  m <> (fileName ++ ".tmp") ->
  transfer env fuel url (fileName ++ ".tmp") total w = Some (r, w2) ->
  lookupFile m (fs w2) = lookupFile m (fs w).
Proof.
  intros Hm. unfold transfer. destruct (useChunks total).
  - now apply chunkLoop_frame.
  - unfold settles. intros E. inversion E as [E1].
    assert (K : Keeps m (singleTransfer env url (fileName ++ ".tmp"))).
    { unfold singleTransfer. apply Keeps_bind; [apply Keeps_http|].
      intros q. destruct (status q =? 200); [now apply Keeps_writeFile|apply Keeps_throw]. }
    specialize (K w). rewrite E1 in K. exact K.
Qed.

Lemma prepare_result w total w1 :
  prepare env url (fileName ++ ".tmp") w = (inr total, w1) -> total = probe env url.
Proof.
  unfold prepare, bind at 1.
  destruct (tryCatch _ _ w) as [[e|u] w0]; [discriminate|].
  unfold bind at 1. destruct (http env (Head url) w0) as [[e|h] w2] eqn:Eh; [discriminate|].
  apply http_result in Eh as [-> _].
  unfold bind. destruct (tryCatch _ _ w2) as [[e|u2] w3]; [discriminate|].
  unfold ret. intros E. now inversion E.
Qed.

Lemma useChunks_starts total : useChunks total = true -> lessThan 0 total = true.
Proof. unfold useChunks, lessThan. intros H. now apply andb_true_iff in H. Qed.

(** A transfer that ends well leaves the whole payload in the temp file. *)
Lemma transfer_done fuel w u w2 :
  transfer env fuel url (fileName ++ ".tmp") (probe env url) w = Some (inr u, w2) ->
  dataAt (fileName ++ ".tmp") (fs w2) = fullPayload env url
      /\ lookupFile (fileName ++ ".tmp") (fs w2) <> None.
Proof.
  unfold transfer, fullPayload. destruct (useChunks (probe env url)) eqn:U.
  - intros H. apply chunkLoop_writes in H; [|now apply useChunks_starts].
    destruct H as [t [-> H]]. exact H.
  - unfold settles, singleTransfer, bind.
    destruct (http env (Get url None) w) as [[e|r] w1] eqn:Eh; [discriminate|].
    apply http_result in Eh as [-> ->].
    destruct (status _ =? 200); [|discriminate].
    intros H. inversion H as [H1]. apply writeFile_ok in H1. subst w2. cbn [advance fs].
    split; [apply dataAt_put|apply lookup_put].
Qed.

(** What the catch block does to the world. *)
Lemma cleanup_run e w1 :
  exists w',
    cleanup env (fileName ++ ".tmp") e w1 = (inl e, w') /\
    trace w' = (trace w1 ++ [DeleteFile (fileName ++ ".tmp")])%list /\
    tick w' = S (tick w1) /\
    inFlight w' = inFlight w1 /\
    lookupFile fileName (fs w') = lookupFile fileName (fs w1) /\
    (fault env (tick w1) = None -> lookupFile (fileName ++ ".tmp") (fs w') = None).
Proof.
  unfold cleanup, bind, tryCatch, deleteFile.
  destruct (fault env (tick w1)) as [msg|] eqn:F.
  - rewrite (call_fault env _ _ w1 msg F). eexists. split; [reflexivity|].
    cbn [advance trace tick fs inFlight List.length].
    split; [reflexivity|]. split; [lia|]. split; [reflexivity|].
    split; [reflexivity|]. intros H. discriminate H.
  - rewrite call_ok by exact F.
    destruct (lookupFile (fileName ++ ".tmp") (fs w1)) as [f|] eqn:L; cbn [fst snd ret throw].
    + eexists. split; [reflexivity|]. cbn [advance trace tick fs inFlight List.length].
      split; [reflexivity|]. split; [lia|]. split; [reflexivity|]. split.
      * unfold lookupFile. cbn [entries]. apply lookup_removeEntry_other, tmp_differs.
      * intros _. unfold lookupFile. cbn [entries]. apply lookup_removeEntry_same.
    + eexists. split; [reflexivity|]. cbn [advance trace tick fs inFlight List.length].
      split; [reflexivity|]. split; [lia|]. split; [reflexivity|].
      split; [reflexivity|]. intros _. exact L.
Qed.

(** The steps after the transfer: either the rename did not happen and
    nothing changed, or it did: the pass was started, and the last call
    is the one that tells how the steps end. *)
Lemma promote_cases w2 :
  (exists e w3, promote env (fileName ++ ".tmp") fileName w2 = (inl e, w3) /\
     fs w3 = fs w2 /\ inFlight w3 = inFlight w2) \/
  (exists f r res w3,
     lookupFile (fileName ++ ".tmp") (fs w2) = Some f /\
     fault env (tick w2) = None /\
     promote env (fileName ++ ".tmp") fileName w2 = (res, w3) /\
     (res = inr (uriOf env (CACHE_DIR ++ "/" ++ fileName)) \/
      exists msg, res = inl (NativeError msg)) /\
     fs w3 = {| dirExists := dirExists (fs w2);
                entries := putEntry {| f_name := fileName; f_data := f_data f;
                                       f_mtime := f_mtime f |}
                             (removeEntry (fileName ++ ".tmp") (entries (fs w2))) |} /\
     trace w3 = (trace w2 ++ closingOps (fileName ++ ".tmp") fileName)%list /\
     inFlight w3 = (inFlight w2 ++ [r])%list /\
     (fault env (S (tick w2)) = None -> dirExists (fs w2) = true -> r = inr tt)).
Proof.
  destruct (promote env (fileName ++ ".tmp") fileName w2) as [res w3] eqn:E.
  revert E. unfold promote, bind at 1, rename.
  destruct (fault env (tick w2)) as [msg|] eqn:F.
  { rewrite (call_fault env _ _ w2 msg F). intros E; injection E as <- <-.
    left. do 2 eexists. split; [reflexivity|]. split; reflexivity. }
  rewrite call_ok by exact F.
  destruct (lookupFile (fileName ++ ".tmp") (fs w2)) as [f|] eqn:L; cbn [fst snd].
  2:{ intros E; injection E as <- <-.
      left. do 2 eexists. split; [reflexivity|]. split; reflexivity. }
  unfold bind at 1.
  match goal with |- context [detach env ?w] =>
    destruct (detach_run w) as [r [E Hr]]; rewrite E end.
  cbn [advance fs tick trace inFlight List.length] in *.
  unfold getUri.
  match goal with |- context [call env ?op ?act ?w] =>
    destruct (call_cases env op act w) as [[msg E1]|E1]; rewrite E1 end;
    cbn [fst snd advance fs tick trace inFlight]; intros E2; injection E2 as <- <-;
    right; exists f, r; do 2 eexists;
    (split; [reflexivity|]); (split; [reflexivity|]); (split; [reflexivity|]).
  - split; [right; now exists msg|]. split; [reflexivity|].
    split; [unfold closingOps, advance; cbn [trace]; rewrite <- !app_assoc; reflexivity|].
    split; [reflexivity|]. rewrite Nat.add_1_r in Hr. exact Hr.
  - split; [now left|]. split; [reflexivity|].
    split; [unfold closingOps, advance; cbn [trace]; rewrite <- !app_assoc; reflexivity|].
    split; [reflexivity|]. rewrite Nat.add_1_r in Hr. exact Hr.
Qed.

Lemma lookup_installed f d :
  lookupFile fileName
    {| dirExists := dirExists d;
       entries := putEntry {| f_name := fileName; f_data := f_data f; f_mtime := f_mtime f |}
                    (removeEntry (fileName ++ ".tmp") (entries d)) |} =
  Some {| f_name := fileName; f_data := f_data f; f_mtime := f_mtime f |}.
Proof.
  unfold lookupFile. cbn [entries].
  apply (lookup_putEntry_same
           {| f_name := fileName; f_data := f_data f; f_mtime := f_mtime f |}).
Qed.

Lemma lookup_promoted_tmp f d :
  lookupFile (fileName ++ ".tmp")
    {| dirExists := dirExists d;
       entries := putEntry {| f_name := fileName; f_data := f_data f; f_mtime := f_mtime f |}
                    (removeEntry (fileName ++ ".tmp") (entries d)) |} = None.
Proof.
  unfold lookupFile. cbn [entries]. rewrite lookup_putEntry_other.
  - apply lookup_removeEntry_same.
  - cbn [f_name]. intros E. symmetry in E. exact (tmp_differs E).
Qed.

Lemma lookup_promoted_other f d m :
  m <> fileName -> m <> (fileName ++ ".tmp") ->
  lookupFile m
    {| dirExists := dirExists d;
       entries := putEntry {| f_name := fileName; f_data := f_data f; f_mtime := f_mtime f |}
                    (removeEntry (fileName ++ ".tmp") (entries d)) |} = lookupFile m d.
Proof.
  intros H1 H2. unfold lookupFile. cbn [entries].
  rewrite lookup_putEntry_other by exact H1. now apply lookup_removeEntry_other.
Qed.

(** The steps after the transfer, when they fail: either the rename did
    not happen, or it did and the failing call is the last one. *)
Lemma promote_fails w2 e w3 :
  promote env (fileName ++ ".tmp") fileName w2 = (inl e, w3) ->
  fs w3 = fs w2 \/
  (trace w3 = (trace w2 ++ closingOps (fileName ++ ".tmp") fileName)%list /\
   exists mt, lookupFile fileName (fs w3) =
     Some {| f_name := fileName; f_data := dataAt (fileName ++ ".tmp") (fs w2); f_mtime := mt |}).
Proof.
  intros E.
  destruct (promote_cases w2)
    as [[e0 [w0 [E0 [Hfs _]]]]|[f [r [res [w0 [L [_ [E0 [_ [Hfs [Htr _]]]]]]]]]]];
    rewrite E in E0; inversion E0; subst.
  - now left.
  - right. split; [exact Htr|].
    exists (f_mtime f). rewrite Hfs. unfold dataAt. rewrite L. apply lookup_installed.
Qed.

End Download.

Section DownloadClaims.

Variable env : Env.
Variables url fileName : string.

(** Claim C4. A download that fails has tried to delete the temp file and
    throws the error of the step that failed; the file of the final name is
    as it was before the call, unless the failing step is the last one,
    after the rename, and then it holds the whole payload. It never holds
    a part of it. *)
Theorem failed_download_keeps_final_file fuel w e w' :
  downloadToCache env fuel url fileName w = Some (inl e, w') ->
  (exists w1, attempt env fuel url fileName w = Some (inl e, w1) /\
              cleanup env (fileName ++ ".tmp") e w1 = (inl e, w')) /\
  (exists before, trace w' = (before ++ [DeleteFile (fileName ++ ".tmp")])%list) /\
  (fault env (Nat.pred (tick w')) = None ->
   lookupFile (fileName ++ ".tmp") (fs w') = None) /\
  (lookupFile fileName (fs w') = lookupFile fileName (fs w) \/
   exists before mt,
     trace w' = (before ++ closingOps (fileName ++ ".tmp") fileName
                 ++ [DeleteFile (fileName ++ ".tmp")])%list /\
     lookupFile fileName (fs w') =
       Some {| f_name := fileName; f_data := fullPayload env url; f_mtime := mt |}).
Proof.
  intros H.
  assert (A : exists w1, attempt env fuel url fileName w = Some (inl e, w1) /\
                         cleanup env (fileName ++ ".tmp") e w1 = (inl e, w')).
  { rewrite downloadToCache_try in H. unfold tryCatchP in H.
    destruct (attempt env fuel url fileName w) as [[[e1|a] w1]|]; try discriminate.
    destruct (cleanup_run env fileName e1 w1) as [w2 [Hc _]].
    rewrite Hc in H. injection H as <- <-. exists w1. now split. }
  destruct A as [w1 [A Hc]].
  destruct (cleanup_run env fileName e w1) as [w2 [Hc' [Htr [Htk [_ [Hkeep Hgone]]]]]].
  rewrite Hc in Hc'. injection Hc' as <-.
  split; [exists w1; now split|].
  split; [exists (trace w1); exact Htr|].
  split; [rewrite Htk; exact Hgone|].
  rewrite Hkeep, Htr.
  unfold attempt in A. rewrite bindP_settles in A.
  pose proof (Keeps_prepare env url fileName fileName (tmp_differs fileName) w) as Kp.
  destruct (prepare env url (fileName ++ ".tmp") w) as [[e0|total] w0] eqn:Pr; simpl in Kp.
  { injection A as <- <-. now left. }
  apply prepare_result in Pr. subst total.
  unfold bindP in A.
  destruct (transfer env fuel url (fileName ++ ".tmp") (probe env url) w0)
      as [[[e0|u] w3]|] eqn:T; [| |discriminate].
  { injection A as <- <-. left.
    rewrite (transfer_frame env url fileName fuel fileName _ _ _ _ (tmp_differs fileName) T).
    exact Kp. }
  pose proof (transfer_frame env url fileName fuel fileName _ _ _ _
                (tmp_differs fileName) T) as Kt.
  apply transfer_done in T as [Hdata _].
  unfold settles in A. injection A as A.
  apply promote_fails in A. destruct A as [Hsame|[Htr3 [mt Hl]]].
  - left. rewrite Hsame. congruence.
  - right. exists (trace w3), mt. split.
    + rewrite Htr3. unfold closingOps. (rewrite <- ?app_assoc; reflexivity).
    + rewrite Hl. now rewrite Hdata.
Qed.

Lemma prepare_run w :
  noFault env ->
  exists w1,
    prepare env url (fileName ++ ".tmp") w = (inr (probe env url), w1) /\
    trace w1 = (trace w ++ openingOps (fs w) url (fileName ++ ".tmp"))%list /\
    inFlight w1 = inFlight w.
Proof.
  intros Hq. unfold prepare, openingOps.
  assert (H1 : exists w0,
            tryCatch (readdir env ;;; ret tt) (fun _ => mkdir env) w = (inr tt, w0) /\
            trace w0 = (trace w ++ if dirExists
                (fs w) then [Readdir] else [Readdir; Mkdir])%list /\
            inFlight w0 = inFlight w).
  { unfold tryCatch, bind, readdir. rewrite call_ok by apply Hq.
    destruct (dirExists (fs w)) eqn:D; cbn [fst snd ret].
    - eexists. split; [reflexivity|]. split; reflexivity.
    - unfold mkdir. rewrite call_ok by apply Hq. cbn [advance fs]. rewrite D.
      cbn [fst snd]. eexists. split; [reflexivity|].
      cbn [advance trace inFlight]. split; [|reflexivity].
      (rewrite <- ?app_assoc; reflexivity). }
  destruct H1 as [w0 [E0 [T0 F0]]].
  unfold bind at 1. rewrite E0.
  unfold bind at 1, http. rewrite call_ok by apply Hq. cbn [fst snd].
  set (w2 := advance w0 (fs w0) [Http (Head url)]).
  assert (H3 : exists w3,
            tryCatch (deleteFile env (fileName ++ ".tmp")) (fun _ => ret tt) w2 = (inr tt, w3) /\
            trace w3 = (trace w2 ++ [DeleteFile (fileName ++ ".tmp")])%list /\
            inFlight w3 = inFlight w2).
  { unfold tryCatch, deleteFile. rewrite call_ok by apply Hq.
    destruct (lookupFile (fileName ++ ".tmp")
        (fs w2)); cbn [fst snd ret]; eexists; (split; [reflexivity|]); split; reflexivity. }
  destruct H3 as [w3 [E3 [T3 F3]]].
  unfold bind. rewrite E3. exists w3. split; [reflexivity|].
  rewrite T3, F3. unfold w2. cbn [advance trace inFlight]. rewrite T0, F0.
  split; [|reflexivity]. rewrite <- ?app_assoc; reflexivity.
Qed.

Lemma promote_run w2 :
  noFault env -> lookupFile (fileName ++ ".tmp") (fs w2) <> None ->
  exists w3,
    promote env (fileName ++ ".tmp") fileName w2
        = (inr (uriOf env (CACHE_DIR ++ "/" ++ fileName)), w3) /\
    trace w3 = (trace w2 ++ closingOps (fileName ++ ".tmp") fileName)%list.
Proof.
  intros Hq Hl.
  destruct (promote_cases env fileName w2)
    as [[e [w3 [E _]]]|[f [r [res [w3 [L [_ [E [Hres [_ [Htr _]]]]]]]]]]].
  - exfalso. revert E. unfold promote, bind at 1, rename. rewrite call_ok by apply Hq.
    destruct (lookupFile (fileName ++ ".tmp") (fs w2)) as [f|]; [|contradiction].
    cbn [fst snd]. unfold bind at 1.
    match goal with |- context [detach env ?w] =>
      destruct (detach_run env w) as [r [E _]]; rewrite E end.
    unfold getUri. rewrite call_ok by apply Hq. discriminate.
  - exists w3. split; [|exact Htr]. rewrite E. f_equal.
    destruct Hres as [->|[msg ->]]; [reflexivity|]. exfalso.
    revert E. unfold promote, bind at 1, rename. rewrite call_ok by apply Hq.
    rewrite L. cbn [fst snd]. unfold bind at 1.
    match goal with |- context [detach env ?w] =>
      destruct (detach_run env w) as [r' [E _]]; rewrite E end.
    unfold getUri. rewrite call_ok by apply Hq. discriminate.
Qed.

Lemma accepted_all rs : find (refused env url) rs = None -> accepted env url rs = rs.
Proof.
  induction rs as [|r rs IH]; simpl; [reflexivity|].
  destruct (refused env url r); [discriminate|]. intros H. now rewrite IH.
Qed.

(** Claim C6. With no failing platform call: when the server announces a
    size of more than 50 MiB (and of at most [2 ^ 53] bytes, the sizes
    JavaScript's numbers hold exactly), the transfer asks for the ranges
    that cut the bytes [0 .. size - 1] into consecutive pieces of 1 MiB,
    in order, creating the temp file with the first body and appending the
    others, and throws the chunk error at the first status of 400 or more;
    when it announces no size, an empty one, zero, or at most 50 MiB, one
    request without a range is made and its body written to the temp
    file. *)
Theorem transfer_by_size fuel w :
  noFault env ->
  let h := headers (respond env (Head url)) in
  let opened := (trace w ++ openingOps (fs w) url (fileName ++ ".tmp"))%list in
  let run := downloadToCache env fuel url fileName w in
  let location := uriOf env (CACHE_DIR ++ "/" ++ fileName) in
  (forall n, announces h n -> LARGE_FILE_BYTES < Z.of_N n -> Z.of_N n <= 2 ^ 53 ->
     (chunkCount (Z.of_N n) 0 <= fuel)%nat ->
     let rs := chunkRanges (Z.of_N n) in
     tiles 0 rs (Z.of_N n - 1) /\
     exists w',
       match find (refused env url) rs with
       | None =>
           run = Some (inr location, w') /\
           trace w' =
             (opened ++ chunkOps env url (fileName ++ ".tmp") true rs
              ++ closingOps (fileName ++ ".tmp") fileName)%list
       | Some r =>
           run = Some (inl (DownloadChunkFailed (status (respond env (Get url (Some r))))),
                       w') /\
           trace w' =
             (opened ++ chunkOps env url (fileName ++ ".tmp") true (accepted env url rs)
              ++ [Http (Get url (Some r)); DeleteFile (fileName ++ ".tmp")])%list
       end) /\
  (((Js.truthy (lookupHeader "Content-Length" h) = false /\
     Js.truthy (lookupHeader "content-length" h) = false) \/
    exists n, announces h n /\ Z.of_N n <= LARGE_FILE_BYTES) ->
     let response := respond env (Get url None) in
     exists w',
       if status response =? 200 then
         run = Some (inr location, w') /\
         trace w' =
           (opened ++ [Http (Get url None); WriteFile (fileName ++ ".tmp") (data response)]
            ++ closingOps (fileName ++ ".tmp") fileName)%list
       else
         run = Some (inl (DownloadFailed (status response)), w') /\
         trace w' =
           (opened ++ [Http (Get url None); DeleteFile (fileName ++ ".tmp")])%list).
Proof.
  intros Hq h opened run location.
  destruct (prepare_run w Hq) as [w1 [Pr [T1 _]]]. fold opened in T1.
  assert (Hrun : run =
            match transfer env fuel url (fileName ++ ".tmp") (probe env url) w1 with
            | None => None
            | Some (inl e, w2) => Some (cleanup env (fileName ++ ".tmp") e w2)
            | Some (inr _, w2) =>
                Some (tryCatch (promote env (fileName ++ ".tmp") fileName)
                        (cleanup env (fileName ++ ".tmp")) w2)
            end).
  { unfold run. rewrite downloadToCache_phases, Pr. reflexivity. }
  assert (Hfail : forall e w2,
            transfer env fuel url (fileName ++ ".tmp") (probe env url) w1
              = Some (inl e, w2) ->
            exists w', run = Some (inl e, w') /\
                       trace w' = (trace w2 ++ [DeleteFile (fileName ++ ".tmp")])%list).
  { intros e w2 T. rewrite Hrun, T.
    destruct (cleanup_run env fileName e w2) as [w3 [Hc [Htr _]]].
    rewrite Hc. exists w3. now split. }
  assert (Hgood : forall u w2,
            transfer env fuel url (fileName ++ ".tmp") (probe env url) w1
              = Some (inr u, w2) ->
            exists w', run = Some (inr location, w') /\
              trace w' = (trace w2 ++ closingOps (fileName ++ ".tmp") fileName)%list).
  { intros u w2 T. rewrite Hrun, T.
    destruct (transfer_done env url fileName fuel w1 u w2 T) as [_ Hl].
    destruct (promote_run w2 Hq Hl) as [w3 [Hr Ht]].
    unfold tryCatch. rewrite Hr. exists w3. now split. }
  split.
  - intros n Hn Hlarge Hsafe Hfuel rs.
    assert (Ep : probe env url = Num (Z.of_N n)).
    { rewrite (probe_announced env url n Hn). apply toNumber_safe. lia. }
    assert (U : useChunks (Num (Z.of_N n)) = true) by now apply useChunks_large.
    assert (Hpos : 0 < Z.of_N n) by (unfold LARGE_FILE_BYTES in Hlarge; lia).
    split; [now apply chunkRanges_tiles|].
    destruct (chunkLoop_run env url (fileName ++ ".tmp") (chunkCount (Z.of_N n) 0)
                fuel (Z.of_N n) 0 w1 Hq) as [r [w2 [Hres [Hr Htr]]]];
      [lia|exact Hsafe|reflexivity|exact Hfuel|intros H; now elim H|].
    fold (chunkRanges (Z.of_N n)) in Hr, Htr. fold rs in Hr, Htr. cbn [Z.eqb] in Htr.
    assert (Et : transfer env fuel url (fileName ++ ".tmp") (probe env url) w1 =
                 Some (r, w2)).
    { unfold transfer. rewrite Ep, U. exact Hres. }
    destruct (find (refused env url) rs) as [q|] eqn:F; subst r.
    + destruct (Hfail _ _ Et) as [w' [H1 H2]]. exists w'.
      split; [exact H1|]. rewrite H2, Htr, T1. rewrite <- ?app_assoc; reflexivity.
    + destruct (Hgood _ _ Et) as [w' [H1 H2]]. exists w'.
      split; [exact H1|]. rewrite H2, Htr, T1, (accepted_all rs F).
      rewrite app_nil_r. rewrite <- ?app_assoc; reflexivity.
  - intros Hsmall response.
    assert (U : useChunks (probe env url) = false).
    { destruct Hsmall as [[H1 H2]|[n [Hn Hle]]].
      - now rewrite (probe_unannounced env url H1 H2).
      - rewrite (probe_announced env url n Hn).
        destruct (useChunks (toNumber (Z.of_N n))) eqn:E; [|reflexivity].
        apply useChunks_toNumber in E; lia. }
    assert (Et : transfer env fuel url (fileName ++ ".tmp") (probe env url) w1 =
                 Some (if status response =? 200
                 then (inr tt, advance (advance w1 (fs w1) [Http (Get url None)])
                         {| dirExists := true;
                            entries := putEntry
                              {| f_name := (fileName ++ ".tmp"); f_data := [data response];
                                 f_mtime := clockAt env (tick w1 + 1) |}
                              (entries (fs w1)) |}
                         [WriteFile (fileName ++ ".tmp") (data response)])
                 else (inl (DownloadFailed (status response)),
                       advance w1 (fs w1) [Http (Get url None)]))).
    { unfold transfer. rewrite U. unfold settles, singleTransfer, bind, http.
      rewrite call_ok by apply Hq. cbn [fst snd]. fold response.
      destruct (status response =? 200); [|reflexivity].
      unfold writeFile. rewrite call_ok by apply Hq. reflexivity. }
    destruct (status response =? 200).
    + destruct (Hgood _ _ Et) as [w' [H1 H2]]. exists w'. split; [exact H1|].
      rewrite H2. cbn [advance trace]. rewrite T1. rewrite <- ?app_assoc; reflexivity.
    + destruct (Hfail _ _ Et) as [w' [H1 H2]]. exists w'. split; [exact H1|].
      rewrite H2. cbn [advance trace]. rewrite T1. rewrite <- ?app_assoc; reflexivity.
Qed.

(** Claim C9. A cached file of non-zero size is answered with its URI and
    left alone; one of size zero is answered with null, and is deleted
    when the platform carries out the deletion. *)
Theorem getCachedFile_checks_size w f :
  lookupFile fileName (fs w) = Some f ->
  fault env (tick w) = None ->
  (f_size f <> 0 ->
   getCachedFile env fileName w =
     (inr (Some (uriOf env (CACHE_DIR ++ "/" ++ fileName))),
      advance w (fs w) [Stat fileName])) /\
  (f_size f = 0 ->
   fst (getCachedFile env fileName w) = inr None /\
   trace (snd (getCachedFile env fileName w)) =
     (trace w ++ [Stat fileName; DeleteFile fileName])%list /\
   (fault env (S (tick w)) = None ->
    lookupFile fileName (fs (snd (getCachedFile env fileName w))) = None /\
    fs (snd (getCachedFile env fileName w)) = without [fileName] (fs w))).
Proof.
  intros L F0. split.
  - intros Hsz. unfold getCachedFile, tryCatch, bind, stat.
    rewrite call_ok by exact F0. rewrite L. cbn [fst snd st_size st_uri].
    apply Z.eqb_neq in Hsz. rewrite Hsz. reflexivity.
  - intros Hsz.
    set (w1 := advance w (fs w) [Stat fileName]).
    assert (E : getCachedFile env fileName w =
                (inr None, snd (tryCatch (deleteFile env fileName) (fun _ => ret tt) w1))).
    { unfold getCachedFile, tryCatch at 1, bind at 1, stat.
      rewrite call_ok by exact F0. rewrite L. cbn [fst snd st_size st_uri].
      rewrite Hsz. cbn [Z.eqb]. fold w1. unfold bind.
      destruct (tryCatch (deleteFile env fileName) (fun _ => ret tt) w1)
        as [[e|u] w2] eqn:D; [|reflexivity].
      exfalso. unfold tryCatch in D.
      destruct (deleteFile env fileName w1) as [[e1|u1] w3]; discriminate. }
    rewrite E. cbn [fst snd]. split; [reflexivity|].
    assert (T1 : tick w1 = S (tick w)) by (unfold w1; cbn [advance tick List.length]; lia).
    unfold tryCatch, deleteFile.
    destruct (fault env (S (tick w))) as [msg|] eqn:F1.
    + rewrite (call_fault env _ _ _ msg) by now rewrite T1.
      cbn [fst snd ret advance trace]. split; [|intros H; discriminate H].
      unfold w1. cbn [advance trace]. rewrite <- ?app_assoc; reflexivity.
    + rewrite call_ok by now rewrite T1.
      assert (L1 : lookupFile fileName (fs w1) = Some f) by exact L.
      rewrite L1. cbn [fst snd ret advance trace fs].
      split; [unfold w1; cbn [advance trace]; rewrite <- ?app_assoc; reflexivity|].
      intros _. split.
      * unfold lookupFile. cbn [entries]. apply lookup_removeEntry_same.
      * reflexivity.
Qed.

End DownloadClaims.

Lemma distinctb_NoDup {A} (eqb : A -> A -> bool) (l : list A) :
  (forall x, eqb x x = true) -> distinctb eqb l = true -> NoDup l.
Proof.
  intros Hr. induction l as [|x l IH]; simpl; intros H; [constructor|].
  apply andb_true_iff in H as [H1 H2]. constructor; [|now apply IH].
  intros Hin. apply negb_true_iff in H1.
  assert (E : existsb (eqb x) l = true) by (apply existsb_exists; exists x; auto).
  congruence.
Qed.

Lemma never_noFault len : noFault (server len never).
Proof. intros n. reflexivity. Qed.

Lemma worldOf_wellFormed l :
  distinctb String.eqb (map f_name l) = true -> wellFormed (fs (worldOf l)).
Proof.
  intros H. split; [|discriminate].
  apply (distinctb_NoDup String.eqb); [apply String.eqb_refl|exact H].
Qed.

(** [eviction_bound] at four files of 1 GiB. *)
Lemma eviction_bound_witness :
  cachedBytes (fs (snd (ensureCacheLimits (server "0" never) fourGiB))) <= MAX_CACHE_SIZE_BYTES /\
  (List.length (cached (fs (snd (ensureCacheLimits
      (server "0" never) fourGiB)))) <= MAX_FILES)%nat.
Proof.
  apply (eviction_bound (server "0" never) fourGiB).
  - apply never_noFault.
  - apply worldOf_wellFormed. vm_compute. reflexivity.
Defined.

(** Against claim C5 as stated: of four files of 1 GiB the pass selects
    "d.mp3" and "b.mp3"; when the deletion of "d.mp3" fails, and no other
    call does, "b.mp3" is still there afterwards and its deletion was never
    attempted. *)
Lemma failed_delete_is_not_skipped :
  map name (selected (server "0" (failingAt 6)) (fs fourGiB)) = ["d.mp3"; "b.mp3"] /\
  (forall n, n <> 6%nat -> fault (server "0" (failingAt 6)) n = None) /\
  lookupFile "b.mp3" (fs (snd (ensureCacheLimits (server "0" (failingAt 6)) fourGiB))) <> None /\
  ~ In (DeleteFile "b.mp3") (trace (snd (ensureCacheLimits (server "0" (failingAt 6)) fourGiB))).
Proof.
  split; [vm_compute; reflexivity|]. split; [|split].
  - intros n Hn. unfold server, failingAt. simpl.
    destruct (n =? 6)%nat eqn:E; [|reflexivity]. apply Nat.eqb_eq in E. contradiction.
  - vm_compute. discriminate.
  - vm_compute. intros H. repeat (destruct H as [H|H]; [discriminate|]). exact H.
Qed.

(** [eviction_stops_at_failed_delete] when the second deletion fails. *)
Lemma eviction_stops_at_failed_delete_witness :
  fs (snd (ensureCacheLimits (server "0" (failingAt 7)) fourGiB)) =
    without ["d.mp3"] (fs fourGiB) /\
  lookupFile "b.mp3" (fs (snd (ensureCacheLimits (server "0" (failingAt 7)) fourGiB))) <> None.
Proof.
  destruct (eviction_stops_at_failed_delete (server "0" (failingAt 7)) fourGiB
              [infoOf (server "0" (failingAt 7)) (fileOf "d.mp3" GiB 1)]
              (infoOf (server "0" (failingAt 7)) (fileOf "b.mp3" GiB 2)) []
              "I/O error") as [_ [Hfs [_ Hkept]]].
  - apply worldOf_wellFormed. vm_compute. reflexivity.
  - reflexivity.
  - vm_compute. reflexivity.
  - intros j Hj. simpl in Hj.
    do 7 (destruct j as [|j]; [reflexivity|]). lia.
  - reflexivity.
  - split; [exact Hfs|]. apply (Hkept _ (or_introl eq_refl)).
Defined.

(** [eviction_oldest_first] at fifty-one files of 1 MiB. *)
Lemma eviction_oldest_first_witness :
  exists oldest,
    In oldest (entries (fs fiftyOne)) /\
    (forall f, In f (entries (fs fiftyOne)) -> f <> oldest -> f_mtime oldest < f_mtime f) /\
    entries (fs (snd (ensureCacheLimits (server "0" never) fiftyOne))) =
      removeEntry (f_name oldest) (entries (fs fiftyOne)) /\
    List.length (cached (fs (snd (ensureCacheLimits (server "0" never) fiftyOne)))) = 50%nat.
Proof.
  destruct (eviction_oldest_first (server "0" never) fiftyOne) as [_ [_ H]].
  - apply never_noFault.
  - apply worldOf_wellFormed. vm_compute. reflexivity.
  - reflexivity.
  - apply H.
    + vm_compute. reflexivity.
    + apply Forall_forall. intros f Hf. unfold fiftyOne, worldOf in Hf. cbn [fs entries] in Hf.
      apply in_map_iff in Hf as [i [<- Hi]]. apply in_seq in Hi. split.
      * do 51 (destruct i as [|i]; [reflexivity|]). lia.
      * reflexivity.
    + apply (distinctb_NoDup Z.eqb); [apply Z.eqb_refl|vm_compute; reflexivity].
Defined.

(** [failed_download_keeps_final_file] at a chunked download that fails in
    its ninth chunk, over an older file of the same name. *)
Lemma failed_download_keeps_final_file_witness :
  let env := server "52428801" (failingAt 20) in
  exists w',
    downloadToCache env 51 "u" "a.mp3" oneFile = Some (inl (NativeError "I/O error"), w') /\
    lookupFile "a.mp3" (fs w') = lookupFile "a.mp3" (fs oneFile) /\
    lookupFile "a.mp3.tmp" (fs w') = None.
Proof.
  intros env.
  set (w' := match downloadToCache env 51 "u" "a.mp3" oneFile with
             | Some (_, x) => x
             | None => oneFile
             end).
  assert (H : downloadToCache env 51 "u" "a.mp3" oneFile
              = Some (inl (NativeError "I/O error"), w')) by (vm_compute; reflexivity).
  exists w'. split; [exact H|].
  destruct (failed_download_keeps_final_file env "u" "a.mp3" 51 oneFile _ w' H)
    as [_ [_ [Hgone Hfinal]]].
  split.
  - vm_compute. reflexivity.
  - apply Hgone. vm_compute. reflexivity.
Defined.

(** [transfer_by_size] at a server that announces one byte above 50 MiB:
    fifty-one ranged requests, the first for the bytes 0 to 1048575, the
    last for the single byte 52428800, and no request without a range. *)
Lemma transfer_by_size_witness :
  let env := server "52428801" never in
  exists w',
    downloadToCache env 51 "u" "a.mp3" oneFile
      = Some (inr "file:///data/media_cache/a.mp3", w') /\
    firstn 7 (trace w') =
      [Readdir; Http (Head "u"); DeleteFile "a.mp3.tmp";
       Http (Get "u" (Some (0, 1048575)));
       WriteFile "a.mp3.tmp" {| bytes := 1048576; tag := 0 |};
       Http (Get "u" (Some (1048576, 2097151)));
       AppendFile "a.mp3.tmp" {| bytes := 1048576; tag := 1 |}] /\
    In (Http (Get "u" (Some (52428800, 52428800)))) (trace w') /\
    ~ In (Http (Get "u" None)) (trace w') /\
    List.length (chunkRanges 52428801) = 51%nat.
Proof.
  intros env.
  destruct (transfer_by_size env "u" "a.mp3" 51 oneFile
              (never_noFault "52428801")) as [Hlarge _].
  destruct (Hlarge 52428801%N) as [_ [w' Hrun]].
  - right. split; vm_compute; reflexivity.
  - vm_compute. reflexivity.
  - vm_compute. discriminate.
  - vm_compute. apply le_n.
  - assert (F : find (refused env "u") (chunkRanges (Z.of_N 52428801)) = None)
      by (vm_compute; reflexivity).
    cbv zeta in Hrun. rewrite F in Hrun. destruct Hrun as [H1 H2]. exists w'.
    split; [exact H1|]. rewrite H2.
    split; [vm_compute; reflexivity|]. split; [|split].
    + vm_compute. repeat (first [left; reflexivity | right]).
    + intros H. vm_compute in H.
      repeat (destruct H as [H|H]; [discriminate H|]). exact H.
    + vm_compute. reflexivity.
Defined.

(** [getCachedFile_checks_size] at an empty file. *)
Lemma getCachedFile_checks_size_witness :
  fst (getCachedFile (server "0" never) "empty.mp3" oneFile) = inr None /\
  lookupFile "empty.mp3" (fs (snd (getCachedFile (server "0" never) "empty.mp3" oneFile))) = None.
Proof.
  destruct (getCachedFile_checks_size (server "0" never) "empty.mp3" oneFile
              (fileOf "empty.mp3" 0 2)) as [_ H].
  - reflexivity.
  - reflexivity.
  - destruct (H eq_refl) as [Hr [_ Hd]]. split; [exact Hr|]. apply Hd. reflexivity.
Defined.

End CacheTheory.

(** * Further properties of the queue *)

Module QueueTheory.

Import DownloadStore StoreSpec QueueSpec DownloadsPage ListFacts StoreTheory.

Section Conservation.

Variable host : Host.

(** **** What [processQueue] and [startDownload] do to the task list *)

Lemma startDownload_tasks i r :
  tasks (store (startDownload host i r)) = tasks (store r) \/
  tasks (store (startDownload host i r)) = mapTask i markDownloading (tasks (store r)).
Proof.
  unfold startDownload. simpl.
  destruct (find _ _) as [task|]; [|now left].
  right. destruct (electronAPI host); reflexivity.
Qed.

Lemma processQueue_tasks r :
  tasks (store (processQueue host r)) = tasks (store r) \/
  exists p, In p (tasks (store r)) /\ status p = pending /\
    tasks (store (processQueue host r)) = mapTask (taskId p) markDownloading (tasks (store r)).
Proof.
  unfold processQueue. destruct (Js.truthy _); [now left|].
  destruct (find _ _) as [p|] eqn:F; [|now left].
  apply find_some in F as [Hin Hp]. apply Status_eqb_eq in Hp.
  destruct (startDownload_tasks (taskId p) r) as [E|E]; [now left|].
  right. exists p. auto.
Qed.

Lemma processQueue_ids r :
  map taskId (tasks (store (processQueue host r))) = map taskId (tasks (store r)).
Proof.
  destruct (processQueue_tasks r) as [->|[p [_ [_ ->]]]]; [reflexivity|].
  now apply map_taskId_mapTask.
Qed.

Lemma processQueue_conserves r : neverIdleWithWork (processQueue host r).
Proof.
  unfold neverIdleWithWork, processQueue.
  destruct (Js.truthy (activeTaskId (store r))) eqn:T.
  - intros Ha. rewrite Ha in T. discriminate.
  - destruct (find _ _) as [p|] eqn:F.
    + apply find_some in F as [Hin _].
      destruct (startDownload_present host (taskId p) r p Hin eq_refl)
        as [c [_ [_ [Ha _]]]].
      rewrite Ha. discriminate.
    + intros _ t Ht Hp. rewrite find_none_iff in F. specialize (F t Ht).
      simpl in F. rewrite Hp in F. discriminate.
Qed.

Lemma neverIdleWithWork_sub r r' :
  neverIdleWithWork r ->
  activeTaskId (store r') = activeTaskId (store r) ->
  (forall t', In t' (tasks (store r')) -> status t' = pending ->
     exists t, In t (tasks (store r)) /\ status t = pending) ->
  neverIdleWithWork r'.
Proof.
  intros H Ha Hsub Hidle t' Ht' Hp. rewrite Ha in Hidle.
  destruct (Hsub t' Ht' Hp) as [t [Ht Hpt]]. exact (H Hidle t Ht Hpt).
Qed.

Lemma perform_conserves a r : neverIdleWithWork r -> neverIdleWithWork (perform host r a).
Proof.
  intros H. destruct a as [taskInfo now|i o|i|i| | |i p| |i]; simpl.
  - unfold addTask. destruct (find _ _); [exact H|].
    destruct (find _ _); [apply processQueue_conserves|apply processQueue_conserves].
  - unfold settle. destruct (takeCall i (suspended r)) as [[c rest]|]; [|exact H].
    unfold resume. destruct o as [|e]; [|apply processQueue_conserves].
    destruct (call_stage c); try apply processQueue_conserves.
    destruct (Js.truthy _); [|apply processQueue_conserves].
    apply (neverIdleWithWork_sub r); auto. intros t' Ht' Hp. exists t'. auto.
  - apply processQueue_conserves.
  - apply (neverIdleWithWork_sub r); auto. simpl. intros t' Ht' Hp.
    apply filter_In in Ht' as [Ht' _]. eauto.
  - apply (neverIdleWithWork_sub r); auto. simpl. intros t' Ht' Hp.
    apply filter_In in Ht' as [Ht' _]. eauto.
  - intros _ t [].
  - apply (neverIdleWithWork_sub r); auto. simpl. intros t' Ht' Hp.
    apply in_mapTask in Ht' as [t [Ht E]]. exists t. split; [exact Ht|].
    subst t'. destruct (taskId t =? i)%string; exact Hp.
  - apply processQueue_conserves.
  - unfold redownloadCover. destruct (find _ _); [|exact H].
    destruct (_ && _); [|exact H].
    apply (neverIdleWithWork_sub r); auto. intros t' Ht' Hp. exists t'. auto.
Qed.

Lemma performAll_conserves acts : forall r,
  neverIdleWithWork r -> neverIdleWithWork (performAll host acts r).
Proof.
  induction acts as [|a acts IH]; intros r H; [exact H|].
  simpl. apply IH. now apply perform_conserves.
Qed.

(** Property X1. The queue never idles with work: after any sequence of
    store actions and settled transfers from the empty store, whenever no
    transfer is marked active no task is [pending]. *)
Theorem queue_never_idle_with_work acts t :
  activeTaskId (store (performAll host acts initial)) = None ->
  In t (tasks (store (performAll host acts initial))) ->
  status t <> pending.
Proof.
  assert (H0 : neverIdleWithWork initial) by (intros _ x []).
  exact (fun Ha Ht => performAll_conserves acts initial H0 Ha t Ht).
Qed.

End Conservation.

Section Uniqueness.

Variable host : Host.

Lemma NoDup_map_filter_ids (p : DownloadTask -> bool) ts :
  NoDup (map taskId ts) -> NoDup (map taskId (filter p ts)).
Proof.
  induction ts as [|a l IH]; intros H; simpl; [constructor|].
  simpl in H. inversion H as [|? ? Ha Hl]; subst.
  destruct (p a); simpl; [|now apply IH].
  constructor; [|now apply IH].
  intros Hin. apply Ha. rewrite in_map_iff in *.
  destruct Hin as [b [E Hb]]. exists b. split; [exact E|].
  now apply filter_In in Hb as [Hb _].
Qed.

Lemma settle_ids i o r :
  map taskId (tasks (store (settle host i o r))) = map taskId (tasks (store r)).
Proof.
  unfold settle. destruct (takeCall i (suspended r)) as [[c rest]|]; [|reflexivity].
  unfold resume, finallyBlock.
  destruct o as [|e]; [destruct (call_stage c); [destruct (Js.truthy _)| |]|];
    try reflexivity; rewrite processQueue_ids; simpl; now apply map_taskId_mapTask.
Qed.

Lemma addTask_ids taskInfo now r :
  map taskId (tasks (store (addTask host taskInfo now r))) = map taskId (tasks (store r)) \/
  (~ In (id taskInfo) (map taskId (tasks (store r))) /\
   map taskId (tasks (store (addTask host taskInfo now r))) =
     id taskInfo :: map taskId (tasks (store r))).
Proof.
  unfold addTask.
  destruct (find _ _) as [x|] eqn:F1; [now left|].
  destruct (find (fun t => (taskId t =? id taskInfo)%string && Status_eqb (status t) failed) _)
    as [x|] eqn:F2.
  - left. unfold retryTask. rewrite processQueue_ids. simpl. now apply map_taskId_mapTask.
  - right. split.
    + rewrite in_map_iff. intros [t [E Hin]].
      rewrite find_none_iff in F1, F2.
      specialize (F1 t Hin). specialize (F2 t Hin). simpl in F1, F2.
      apply String.eqb_eq in E. rewrite E in F1, F2. simpl in F1, F2.
      destruct (Status_eqb (status t) failed); discriminate.
    + rewrite processQueue_ids. reflexivity.
Qed.

Lemma perform_unique a r :
  NoDup (map taskId (tasks (store r))) ->
  NoDup (map taskId (tasks (store (perform host r a)))).
Proof.
  intros H. destruct a as [taskInfo now|i o|i|i| | |i p| |i]; simpl.
  - destruct (addTask_ids taskInfo now r) as [->|[Hfresh ->]]; [exact H|].
    now constructor.
  - now rewrite settle_ids.
  - unfold retryTask. rewrite processQueue_ids. simpl. now rewrite map_taskId_mapTask.
  - now apply NoDup_map_filter_ids.
  - now apply NoDup_map_filter_ids.
  - constructor.
  - now rewrite map_taskId_mapTask.
  - unfold initializeQueue. rewrite processQueue_ids. simpl.
    rewrite map_map. erewrite map_ext; [exact H|].
    intros t. simpl. now destruct (Status_eqb (status t) downloading).
  - unfold redownloadCover. destruct (find _ _); [|exact H].
    destruct (_ && _); exact H.
Qed.

(** Property X2. No action ever makes two tasks share an id: [addTask]
    returns, or retries, when the id is already in the list. *)
Theorem task_ids_stay_unique acts :
  NoDup (map taskId (tasks (store (performAll host acts initial)))).
Proof.
  assert (H : forall r, NoDup (map taskId (tasks (store r))) ->
                        NoDup (map taskId (tasks (store (performAll host acts r))))).
  { induction acts as [|a l IH]; intros r Hr; [exact Hr|].
    simpl. apply IH. now apply perform_unique. }
  apply H. constructor.
Qed.

(** **** One transfer at a time, under every orderly action *)

Lemma single_flight_keep r r' :
  SingleFlight r ->
  activeTaskId (store r') = activeTaskId (store r) ->
  suspended r' = suspended r ->
  NoDup (map taskId (tasks (store r'))) ->
  (forall t', In t' (tasks (store r')) ->
     exists t, In t (tasks (store r)) /\ taskId t' = taskId t /\ status t' = status t) ->
  SingleFlight r'.
Proof.
  intros [Hnd Hnm Hfl] Ha Hs Hnd' Hsub.
  constructor; [exact Hnd'| |].
  - apply Forall_forall. intros t' Ht'. destruct (Hsub t' Ht') as [t [Ht [E _]]].
    rewrite E. rewrite Forall_forall in Hnm. now apply Hnm.
  - rewrite Ha, Hs. destruct (activeTaskId (store r)) as [a|].
    + destruct Hfl as [Hna [Hc Hd]]. split; [exact Hna|split; [exact Hc|]].
      intros t' Ht' Hdl. destruct (Hsub t' Ht') as [t [Ht [E Es]]].
      rewrite E. apply Hd; congruence.
    + destruct Hfl as [Hsu Hq]. split; [exact Hsu|].
      intros t' Ht' Hdl. destruct (Hsub t' Ht') as [t [Ht [E Es]]].
      apply (Hq t Ht). congruence.
Qed.

Lemma single_flight_retryTask i r : SingleFlight r -> SingleFlight (retryTask host i r).
Proof.
  intros [Hnd Hnm Hfl]. unfold retryTask.
  fold resetTask.
  destruct (activeTaskId (store r)) as [a|] eqn:Ha.
  - destruct Hfl as [Hna [[c [Hs Hc]] Hd]].
    rewrite (processQueue_busy _ _ a); auto.
    constructor; simpl.
    + rewrite map_taskId_mapTask; auto.
    + apply Forall_named_mapTask; auto.
    + rewrite Ha. split; [auto|split; [eauto|]].
      intros t' Hin' Hdl. apply in_mapTask in Hin' as [t [Hint E]]. subst t'.
      destruct (taskId t =? i)%string; [discriminate|]. now apply Hd.
  - destruct Hfl as [Hs Hq].
    apply single_flight_processQueue; simpl; auto.
    + rewrite map_taskId_mapTask; auto.
    + apply Forall_named_mapTask; auto.
    + intros t' Hin' Hdl. apply in_mapTask in Hin' as [t [Hint E]]. subst t'.
      destruct (taskId t =? i)%string; [discriminate|]. now apply (Hq t).
Qed.

Lemma perform_single_flight a r :
  orderly a -> SingleFlight r -> SingleFlight (perform host r a).
Proof.
  intros Ho H. destruct a as [taskInfo now|i o|i|i| | |i p| |i]; simpl in *.
  - now apply single_flight_addTask.
  - now apply single_flight_settle.
  - now apply single_flight_retryTask.
  - apply (single_flight_keep r); auto.
    + simpl. apply NoDup_map_filter_ids. now destruct H.
    + simpl. intros t' Ht'. apply filter_In in Ht' as [Ht' _]. eauto.
  - apply (single_flight_keep r); auto.
    + simpl. apply NoDup_map_filter_ids. now destruct H.
    + simpl. intros t' Ht'. apply filter_In in Ht' as [Ht' _]. eauto.
  - contradiction.
  - apply (single_flight_keep r); auto.
    + simpl. rewrite map_taskId_mapTask; [now destruct H|reflexivity].
    + simpl. intros t' Ht'. apply in_mapTask in Ht' as [t [Ht E]]. exists t.
      split; [exact Ht|]. subst t'. destruct (taskId t =? i)%string; split; reflexivity.
  - contradiction.
  - unfold redownloadCover. destruct (find _ _); [|exact H].
    destruct (_ && _); [|exact H].
    apply (single_flight_keep r); auto; [now destruct H|]. intros t' Ht'. eauto.
Qed.

Lemma performAll_single_flight acts : forall r,
  Forall orderly acts -> SingleFlight r -> SingleFlight (performAll host acts r).
Proof.
  induction acts as [|a l IH]; intros r Ho Hr; [exact Hr|].
  inversion Ho as [|? ? Ha Hl]; subst. simpl. apply IH; [exact Hl|].
  now apply perform_single_flight.
Qed.

(** Property X3. One transfer at a time survives every action of the
    page: retrying, removing (also the task in transfer), clearing
    completed tasks, progress updates and cover downloads, mixed with
    additions of named tasks and settled transfers, leave at most one task
    [downloading]. *)
Theorem orderly_actions_keep_single_flight acts :
  Forall orderly acts ->
  (downloadingCount (performAll host acts initial) <= 1)%nat.
Proof.
  intros H. apply single_flight_count, performAll_single_flight; auto.
  apply single_flight_initial.
Qed.

End Uniqueness.

Section Operations.

Variable host : Host.

(** **** [addTask] twice *)

Lemma addTask_noop taskInfo now r t :
  In t (tasks (store r)) -> taskId t = id taskInfo -> status t <> failed ->
  addTask host taskInfo now r = r.
Proof.
  intros Hin Hid Hst. unfold addTask.
  destruct (find _ _) as [x|] eqn:F; [reflexivity|].
  exfalso. rewrite find_none_iff in F. specialize (F t Hin). simpl in F.
  rewrite Hid, String.eqb_refl in F. simpl in F.
  destruct (status t); try discriminate. now apply Hst.
Qed.

Lemma processQueue_keeps_live i r :
  (exists t, In t (tasks (store r)) /\ taskId t = i /\ status t <> failed) ->
  exists t, In t (tasks (store (processQueue host r))) /\ taskId t = i /\ status t <> failed.
Proof.
  intros [t [Hin [Hid Hst]]].
  destruct (processQueue_tasks host r) as [->|[p [_ [_ ->]]]]; [eauto|].
  exists (if (taskId t =? taskId p)%string then markDownloading t else t).
  split; [|split].
  - unfold mapTask. apply in_map_iff. exists t. auto.
  - now destruct (taskId t =? taskId p)%string.
  - destruct (taskId t =? taskId p)%string; [discriminate|exact Hst].
Qed.

Lemma addTask_leaves_live taskInfo now r :
  exists t, In t (tasks (store (addTask host taskInfo now r))) /\
            taskId t = id taskInfo /\ status t <> failed.
Proof.
  unfold addTask.
  destruct (find _ _) as [x|] eqn:F1.
  - apply find_some in F1 as [Hin Hx]. apply andb_true_iff in Hx as [Hid Hst].
    apply String.eqb_eq in Hid. exists x. split; [exact Hin|]. split; [exact Hid|].
    intros E. rewrite E in Hst. discriminate.
  - destruct (find (fun t => (taskId t =? id taskInfo)%string
                             && Status_eqb (status t) failed) _) as [x|] eqn:F2.
    + apply find_some in F2 as [Hin Hx]. apply andb_true_iff in Hx as [Hid _].
      unfold retryTask. apply processQueue_keeps_live. simpl.
      exists (withError (withProgress (withStatus x pending) 0) None).
      split; [|split; [apply String.eqb_eq in Hid; exact Hid|discriminate]].
      unfold mapTask. apply in_map_iff. exists x. rewrite Hid. auto.
    + apply processQueue_keeps_live. simpl. eexists. split; [now left|].
      split; [reflexivity|discriminate].
Qed.

(** Property X5. Adding the same task again changes nothing, whatever
    state the store is in. *)
Theorem addTask_twice taskInfo now now' r :
  addTask host taskInfo now' (addTask host taskInfo now r) = addTask host taskInfo now r.
Proof.
  destruct (addTask_leaves_live taskInfo now r) as [t [Hin [Hid Hst]]].
  now apply (addTask_noop taskInfo now' _ t).
Qed.

(** **** [retryTask] *)

Lemma processQueue_task_fate r t' :
  In t' (tasks (store (processQueue host r))) ->
  exists t, In t (tasks (store r)) /\ (t' = t \/ t' = markDownloading t).
Proof.
  intros Hin.
  destruct (processQueue_tasks host r) as [E|[p [_ [_ E]]]]; rewrite E in Hin.
  - eauto.
  - apply in_mapTask in Hin as [t [Ht ->]]. exists t. split; [exact Ht|].
    destruct (taskId t =? taskId p)%string; auto.
Qed.

(** Property X6. [retryTask] keeps the tasks and their order; the tasks
    of the retried id come out with progress 0 and no error, waiting or
    already in transfer; while another transfer is active the list is the
    old one with that task reset and nothing else is touched. *)
Theorem retryTask_resets i r :
  map taskId (tasks (store (retryTask host i r))) = map taskId (tasks (store r)) /\
  (forall t, In t (tasks (store (retryTask host i r))) -> taskId t = i ->
     progress t = 0 /\ error t = None /\ (status t = pending \/ status t = downloading)) /\
  (Js.truthy (activeTaskId (store r)) = true ->
   tasks (store (retryTask host i r)) = mapTask i resetTask (tasks (store r))).
Proof.
  unfold retryTask. fold resetTask. split; [|split].
  - rewrite processQueue_ids. simpl. now apply map_taskId_mapTask.
  - intros t Hin Hid. apply processQueue_task_fate in Hin as [t0 [Hin0 Hcase]].
    simpl in Hin0. apply in_mapTask in Hin0 as [t1 [Hin1 E]].
    assert (Hid0 : taskId t0 = i) by (destruct Hcase as [->| ->]; exact Hid).
    assert (E0 : t0 = resetTask t1).
    { rewrite E. rewrite E in Hid0. destruct (taskId t1 =? i)%string eqn:Ei; [reflexivity|].
      apply String.eqb_neq in Ei. contradiction. }
    clear E. subst t0. destruct Hcase as [->| ->]; unfold resetTask, markDownloading; simpl;
      repeat split; auto.
  - intros T. unfold processQueue. simpl. now rewrite T.
Qed.

(** **** How a transfer ends *)

Lemma settleNext_resume r c o :
  suspended r = [c] ->
  settleNext host o r =
  resume host c o {| store := store r; suspended := []; effects := effects r;
                     launched := launched r |}.
Proof.
  intros Hs. unfold settleNext, settle. rewrite Hs. simpl. now rewrite String.eqb_refl.
Qed.

(** A task marked as over is not touched by the queue moving on. *)
Lemma finally_keeps_mark i f r t :
  (forall x, info (f x) = info x) ->
  (forall x, status (f x) <> pending) ->
  In t (tasks (store (finallyBlock host (setTasks (mapTask i f) r)))) ->
  taskId t = i ->
  exists x, In x (tasks (store r)) /\ t = f x.
Proof.
  intros Hinfo Hnp Hin Hid. unfold finallyBlock in Hin.
  set (r1 := setActive None (setTasks (mapTask i f) r)) in *.
  assert (Hmarked : forall t0, In t0 (tasks (store r1)) -> taskId t0 = i ->
                      exists x, In x (tasks (store r)) /\ t0 = f x).
  { intros t0 Hin0 Hid0. simpl in Hin0. apply in_mapTask in Hin0 as [x [Hx E]].
    exists x. split; [exact Hx|]. subst t0.
    destruct (taskId x =? i)%string eqn:Ei; [reflexivity|].
    apply String.eqb_neq in Ei. contradiction. }
  destruct (processQueue_tasks host r1) as [E|[p [Hp [Hpp E]]]]; rewrite E in Hin.
  - now apply Hmarked.
  - apply in_mapTask in Hin as [t0 [Hin0 Et]].
    destruct (taskId t0 =? taskId p)%string eqn:Ep.
    + exfalso. apply String.eqb_eq in Ep.
      assert (Hid0 : taskId t0 = i) by (subst t; exact Hid).
      destruct (Hmarked p Hp) as [x [_ Ex]]; [congruence|].
      rewrite Ex in Hpp. exact (Hnp x Hpp).
    + subst t. now apply Hmarked.
Qed.

(** Property X7. What a transfer ends with is what the task shows: when
    the awaited call rejects, the task is [failed] with the message of the
    error; when it resolves and no cover download follows, the task is
    [completed] at progress 100. The queue moving on does not alter it. *)
Theorem transfer_outcome_is_recorded r c t :
  suspended r = [c] -> taskId t = call_taskId c ->
  (forall e, In t (tasks (store (settleNext host (Rejected e) r))) ->
     status t = failed /\ error t = Some (messageOf e)) /\
  (call_stage c <> AwaitChapter \/ Js.truthy (coverUrl (info (call_task c))) = false ->
   In t (tasks (store (settleNext host Resolved r))) ->
     status t = completed /\ progress t = 100).
Proof.
  intros Hs Hid. split.
  - intros e Hin. rewrite (settleNext_resume r c _ Hs) in Hin. unfold resume, failTask in Hin.
    apply finally_keeps_mark in Hin as [x [_ ->]]; auto; discriminate.
  - intros Hstage Hin. rewrite (settleNext_resume r c _ Hs) in Hin. unfold resume in Hin.
    assert (Hdone : In t (tasks (store (finallyBlock host (completeTask (call_taskId c)
                      {| store := store r; suspended := []; effects := effects r;
                         launched := launched r |})))) ->
                    status t = completed /\ progress t = 100).
    { intros H. unfold completeTask in H.
      apply finally_keeps_mark in H as [x [_ ->]]; auto; discriminate. }
    destruct (call_stage c); auto.
    destruct (Js.truthy (coverUrl (info (call_task c)))); auto.
    destruct Hstage as [H|H]; [now elim H|discriminate].
Qed.

End Operations.

Section Draining.

Variable host : Host.

Lemma not_pending_not_downloading_settled t :
  status t <> pending -> status t <> downloading -> settled t.
Proof. unfold settled. destruct (status t); intros H1 H2; auto; congruence. Qed.

(** From an idle store with nothing in transfer the queue works off every
    pending task. *)
Lemma drain_idle m : forall r os,
  suspended r = [] -> activeTaskId (store r) = None ->
  (forall t, In t (tasks (store r)) -> status t <> downloading) ->
  (pendingCount r <= m)%nat -> (2 * m <= List.length os)%nat ->
  suspended (settleAll host os (processQueue host r)) = [] /\
  forall t, In t (tasks (store (settleAll host os (processQueue host r)))) -> settled t.
Proof.
  induction m as [|m IH]; intros r os Hs Ha Hd Hm Hos.
  all: destruct (find (fun t => Status_eqb (status t) pending) (tasks (store r)))
         as [p|] eqn:F.
  all: try (rewrite (processQueue_idle_none host r Ha F), (settleAll_idle host os r Hs);
            split; [exact Hs|]; intros t Ht;
            apply not_pending_not_downloading_settled; [|now apply Hd];
            intros Hp; rewrite find_none_iff in F; specialize (F t Ht); simpl in F;
            rewrite Hp in F; discriminate).
  all: pose proof (find_some _ _ F) as [Hp Pp].
  all: assert (Hpos : (1 <= pendingCount r)%nat)
      by (unfold pendingCount;
          pose proof (pending_filter_mapTask_lt (taskId p) markDownloading
                        (tasks (store r)) p (fun _ => eq_refl) Hp Pp eq_refl); lia).
  - lia.
  - destruct (serve_next host r p os Hs Ha F) as
      [n [r' [f [Hn [Hf1 [Hf2 [Hs' [Ha' [_ [Ht' Hrun]]]]]]]]]]; [lia|].
    rewrite (settleAll_split host n os), Hrun.
    change (fun t => withError (withStatus t downloading) None) with markDownloading in Ht'.
    assert (Hnp : forall t, isPending (f t) = false).
    { intros t. unfold isPending. destruct (Hf2 t) as [-> | ->]; reflexivity. }
    apply IH; auto.
    + intros t Ht. rewrite Ht' in Ht.
      apply in_mapTask in Ht as [t1 [Ht1 ->]]. apply in_mapTask in Ht1 as [t0 [Ht0 ->]].
      unfold taskId. destruct (id (info t0) =? id (info p))%string eqn:E; simpl; rewrite E.
      * match goal with |- status (f ?x) <> _ =>
          destruct (Hf2 x) as [H|H]; rewrite H; discriminate end.
      * now apply Hd.
    + unfold pendingCount in *. rewrite Ht'.
      pose proof (pending_filter_mapTask_le (taskId p) f
                    (mapTask (taskId p) markDownloading (tasks (store r))) Hnp).
      pose proof (pending_filter_mapTask_lt (taskId p) markDownloading
                    (tasks (store r)) p (fun _ => eq_refl) Hp Pp eq_refl).
      lia.
    + rewrite length_skipn. lia.
Qed.

Lemma drain_single_flight r os :
  SingleFlight r -> neverIdleWithWork r ->
  (2 * (pendingCount r + 1) <= List.length os)%nat ->
  suspended (settleAll host os r) = [] /\
  forall t, In t (tasks (store (settleAll host os r))) -> settled t.
Proof.
  intros [Hnd Hnm Hfl] Hwork Hos.
  destruct (activeTaskId (store r)) as [a|] eqn:Ha.
  - destruct Hfl as [_ [[c [Hs Hc]] Hd]].
    destruct (settle_in_flight host r c os Hs) as
      [n [r' [Hn [[_ [Hs' [Ha' [f [Hf1 [Hf2 Ht']]]]]] Hrun]]]]; [lia|].
    rewrite (settleAll_split host n os), Hrun.
    assert (Hnp : forall t, isPending (f t) = false).
    { intros t. unfold isPending. destruct (Hf2 t) as [-> | ->]; reflexivity. }
    apply (drain_idle (pendingCount r)); auto.
    + intros t Ht. rewrite Ht' in Ht. apply in_mapTask in Ht as [t0 [Ht0 ->]].
      destruct (taskId t0 =? call_taskId c)%string eqn:E.
      * destruct (Hf2 t0) as [H|H]; rewrite H; discriminate.
      * intros Hdl. apply String.eqb_neq in E. apply E. rewrite Hc. now apply Hd.
    + unfold pendingCount. rewrite Ht'. apply pending_filter_mapTask_le, Hnp.
    + rewrite length_skipn. lia.
  - destruct Hfl as [Hs Hq]. rewrite (settleAll_idle host os r Hs).
    split; [exact Hs|]. intros t Ht.
    apply not_pending_not_downloading_settled; [now apply Hwork|now apply Hq].
Qed.

(** Property X4. The queue drains: once every transfer settles, in
    whatever way, two settlements for each waiting task and two more empty
    the queue; no call stays suspended and every task is [completed] or
    [failed]. *)
Theorem queue_drains acts os :
  Forall orderly acts ->
  (2 * (pendingCount (performAll host acts initial) + 1) <= List.length os)%nat ->
  suspended (settleAll host os (performAll host acts initial)) = [] /\
  forall t, In t (tasks (store (settleAll host os (performAll host acts initial)))) ->
            status t = completed \/ status t = failed.
Proof.
  intros Ho Hos. apply drain_single_flight; auto.
  - apply performAll_single_flight; auto. apply single_flight_initial.
  - apply performAll_conserves. intros _ x [].
Qed.

End Draining.

Section Recovery.

Variable host : Host.

Lemma taskId_demote t : taskId (demote t) = taskId t.
Proof. unfold demote. now destruct (Status_eqb (status t) downloading). Qed.

Lemma demote_not_downloading t : status (demote t) <> downloading.
Proof.
  unfold demote. destruct (Status_eqb (status t) downloading) eqn:E; simpl.
  - discriminate.
  - intros H. apply Status_eqb_eq in H. congruence.
Qed.

(** Property X8. Whatever the store held, after [initializeQueue] at
    most one task is [downloading], provided no two tasks share an id. *)
Theorem initializeQueue_restores_one_transfer r :
  NoDup (map taskId (tasks (store r))) ->
  (downloadingCount (initializeQueue host r) <= 1)%nat.
Proof.
  intros Hnd. unfold downloadingCount, initializeQueue.
  set (r0 := setActive None (setTasks (map _) r)).
  assert (Hts : tasks (store r0) = map demote (tasks (store r))) by reflexivity.
  assert (Hids : map taskId (tasks (store r0)) = map taskId (tasks (store r))).
  { rewrite Hts, map_map. apply map_ext, taskId_demote. }
  assert (Hno : forall t, In t (tasks (store r0)) -> status t <> downloading).
  { intros t Ht. rewrite Hts in Ht. apply in_map_iff in Ht as [t0 [<- _]].
    apply demote_not_downloading. }
  destruct (processQueue_tasks host r0) as [E|[p [Hp [_ E]]]]; rewrite E.
  - apply (filter_at_most_one taskId _ ""); [now rewrite Hids|].
    intros t Ht Hd. apply Status_eqb_eq in Hd. now elim (Hno t Ht).
  - apply (filter_at_most_one taskId _ (taskId p)).
    + rewrite map_taskId_mapTask by reflexivity. now rewrite Hids.
    + intros t' Ht' Hd. apply Status_eqb_eq in Hd.
      apply in_mapTask in Ht' as [t [Ht ->]].
      destruct (taskId t =? taskId p)%string eqn:Eq.
      * apply String.eqb_eq in Eq. exact Eq.
      * now elim (Hno t Ht).
Qed.

End Recovery.

Section CoverUrl.

Variable host : Host.

Lemma prefix_refl_app a b : String.prefix a (a ++ b) = true.
Proof.
  induction a as [|c a IH]; simpl; [now destruct b|].
  destruct (ascii_dec c c) as [_|N]; [exact IH|now elim N].
Qed.

Lemma prefix_app_r a u x : String.prefix a u = true -> String.prefix a (u ++ x) = true.
Proof.
  revert u. induction a as [|c a IH]; intros u H; [now destruct (u ++ x)|].
  destruct u as [|d u]; simpl in *; [discriminate|].
  destruct (ascii_dec c d); [now apply IH|discriminate].
Qed.

(** Property X9. The address a cover is fetched from is the cover URL
    itself or an address that starts with the text of the configured base
    URL; a relative cover URL always becomes such an address. An absolute
    cover URL that does not start with that text is passed on as it is,
    without the token; one that does start with it gets the token
    appended, when there is a token and the URL carries none. The test is
    one of text: an address of another host whose name merely begins with
    the base URL passes it. *)
Theorem cover_address_stays_or_is_of_server cover :
  let base := Js.stripTrailingSlash (baseUrl host) in
  let isAbsolute := Js.isHttpUrl cover || Js.startsWith cover "//" in
  (coverDownloadUrl host cover = cover \/
   Js.startsWith (coverDownloadUrl host cover) base = true) /\
  (isAbsolute = false -> Js.startsWith (coverDownloadUrl host cover) base = true) /\
  (isAbsolute = true -> Js.startsWith cover base = false ->
   coverDownloadUrl host cover = cover) /\
  (isAbsolute = true -> Js.startsWith cover base = true ->
   Js.truthy (token (authStore host)) = true -> Js.includes cover "token=" = false ->
   coverDownloadUrl host cover =
     cover ++ (if Js.includes cover "?" then "&" else "?") ++ "token="
       ++ Js.render (token (authStore host))).
Proof.
  intros base isAbsolute. unfold coverDownloadUrl. fold base. fold isAbsolute.
  destruct isAbsolute eqn:A; cbn [negb orb].
  - split; [|split; [discriminate|split]].
    + destruct (Js.startsWith cover base) eqn:P; cbn [andb]; [|now left].
      destruct (Js.truthy (token (authStore host)) && negb (Js.includes cover "token="));
        [|now left].
      right. unfold Js.startsWith in *. now apply prefix_app_r.
    + intros _ P. now rewrite P.
    + intros _ P T I. now rewrite P, T, I.
  - match goal with |- (_ \/ ?G) /\ _ => assert (H : G) end.
    { unfold Js.startsWith at 1.
      destruct (_ && _ && _); [apply prefix_app_r|]; apply prefix_refl_app. }
    split; [right; exact H|]. split; [intros _; exact H|].
    split; discriminate.
Qed.

End CoverUrl.

Section History.

Lemma removeAllTasks_run l : forall r,
  tasks (store (fold_left (fun r t => removeTask (taskId t) r) l r)) =
    filter (fun t => negb (idIn l t)) (tasks (store r)) /\
  activeTaskId (store (fold_left (fun r t => removeTask (taskId t) r) l r)) =
    activeTaskId (store r) /\
  suspended (fold_left (fun r t => removeTask (taskId t) r) l r) = suspended r.
Proof.
  induction l as [|x l IH]; intros r.
  - simpl. split; [|split; reflexivity].
    induction (tasks (store r)) as [|t ts IHt]; simpl; [reflexivity|]. now rewrite <- IHt.
  - cbn [fold_left]. destruct (IH (removeTask (taskId x) r)) as [E [A S]].
    rewrite E, A, S. split; [|split; reflexivity].
    simpl. induction (tasks (store r)) as [|t ts IHt]; simpl; [reflexivity|].
    rewrite (String.eqb_sym (taskId x) (taskId t)).
    destruct (taskId t =? taskId x)%string; simpl; [exact IHt|].
    destruct (idIn l t); simpl; [exact IHt|]. now rewrite IHt.
Qed.

Lemma idIn_failed ts t :
  NoDup (map taskId ts) -> In t ts ->
  idIn (filter isFailed ts) t = isFailed t.
Proof.
  intros Hnd Hin. unfold idIn.
  destruct (isFailed t) eqn:F.
  - apply existsb_exists. exists t. split; [|apply String.eqb_refl].
    apply filter_In. now split.
  - destruct (existsb _ _) eqn:E; [|reflexivity].
    apply existsb_exists in E as [x [Hx Ex]].
    apply filter_In in Hx as [Hx Fx]. apply String.eqb_eq in Ex.
    assert (x = t); [|subst; congruence].
    clear - Hnd Hin Hx Ex. induction ts as [|a ts IH]; [destruct Hin|].
    simpl in Hnd. inversion Hnd as [|? ? Ha Hnd']; subst.
    destruct Hin as [->|Hin], Hx as [->|Hx]; auto.
    + exfalso. apply Ha. rewrite <- Ex. now apply in_map.
    + exfalso. apply Ha. rewrite Ex. now apply in_map.
Qed.

(** Property X10. With unique ids, [clearHistory] removes exactly the
    failed tasks: the others stay in their order, and the transfer in
    flight is not disturbed. *)
Theorem clearHistory_removes_the_failed r :
  NoDup (map taskId (tasks (store r))) ->
  tasks (store (clearHistory (tasks (store r)) r)) =
    filter (fun t => negb (isFailed t)) (tasks (store r)) /\
  activeTaskId (store (clearHistory (tasks (store r)) r)) = activeTaskId (store r) /\
  suspended (clearHistory (tasks (store r)) r) = suspended r.
Proof.
  intros Hnd. unfold clearHistory.
  destruct (removeAllTasks_run (filter isFailed (tasks (store r))) r) as [E [A S]].
  fold isFailed. rewrite E, A, S. split; [|split; reflexivity].
  apply filter_ext_in. intros t Ht. now rewrite idIn_failed.
Qed.

End History.

(** [queue_never_idle_with_work] after one chapter was downloaded. *)
Lemma queue_never_idle_with_work_witness :
  activeTaskId (store (performAll phone
    [DoAddTask (chapter "a") 1; DoSettle "a" Resolved] initial)) = None /\
  status doneChapter <> pending.
Proof.
  split; [reflexivity|].
  apply (queue_never_idle_with_work phone
           [DoAddTask (chapter "a") 1; DoSettle "a" Resolved] doneChapter).
  - reflexivity.
  - vm_compute. left. reflexivity.
Defined.

(** [orderly_actions_keep_single_flight] at [mixedActions]. *)
Lemma orderly_actions_keep_single_flight_witness :
  (downloadingCount (performAll phone mixedActions initial) <= 1)%nat.
Proof.
  apply (orderly_actions_keep_single_flight phone mixedActions).
  unfold mixedActions. repeat constructor; simpl; discriminate.
Defined.

(** [retryTask_resets] for a waiting task while another is in transfer. *)
Lemma retryTask_resets_witness :
  tasks (store (retryTask phone "T2" threeQueued)) =
    mapTask "T2" resetTask (tasks (store threeQueued)).
Proof.
  destruct (retryTask_resets phone "T2" threeQueued) as [_ [_ H]].
  apply H. reflexivity.
Defined.

(** [transfer_outcome_is_recorded] when the transfer of T1 times out. *)
Lemma transfer_outcome_is_recorded_witness :
  let t := withError (withStatus (newTask (chapter "T1") 1) failed)
             (Some (messageOf (ErrorObject "timeout"))) in
  In t (tasks (store (settleNext phone (Rejected (ErrorObject "timeout")) threeQueued))) /\
  status t = failed /\ error t = Some "timeout".
Proof.
  intros t.
  assert (Hin : In t (tasks (store (settleNext phone (Rejected (ErrorObject "timeout"))
                                      threeQueued)))).
  { vm_compute. right. right. left. reflexivity. }
  split; [exact Hin|].
  destruct (transfer_outcome_is_recorded phone threeQueued firstCall t) as [H _].
  - reflexivity.
  - reflexivity.
  - exact (H (ErrorObject "timeout") Hin).
Defined.

(** [queue_drains] after [mixedActions], the second transfer failing. *)
Lemma queue_drains_witness :
  suspended (settleAll phone [Resolved; Rejected OtherValue; Resolved; Resolved]
               (performAll phone mixedActions initial)) = [] /\
  map status (tasks (store (settleAll phone [Resolved; Rejected OtherValue; Resolved; Resolved]
                              (performAll phone mixedActions initial)))) = [failed].
Proof.
  destruct (queue_drains phone mixedActions
              [Resolved; Rejected OtherValue; Resolved; Resolved]) as [H _].
  - unfold mixedActions. repeat constructor; simpl; discriminate.
  - vm_compute. lia.
  - split; [exact H|]. vm_compute. reflexivity.
Defined.

(** [cover_address_stays_or_is_of_server] at a relative cover URL, at
    an address of another server, and at an address of a host whose name
    begins with the text of the base URL. *)
Lemma cover_address_stays_or_is_of_server_witness :
  Js.startsWith (coverDownloadUrl phone "/covers/1.png")
    (Js.stripTrailingSlash (baseUrl phone)) = true /\
  coverDownloadUrl phone "http://other/x.png" = "http://other/x.png" /\
  coverDownloadUrl phone "http://server.evil.com/x.png"
    = "http://server.evil.com/x.png?token=k".
Proof.
  split; [|split].
  - destruct (cover_address_stays_or_is_of_server phone "/covers/1.png") as [_ [H _]].
    apply H. reflexivity.
  - destruct (cover_address_stays_or_is_of_server phone "http://other/x.png")
      as [_ [_ [H _]]].
    apply H; reflexivity.
  - destruct (cover_address_stays_or_is_of_server phone "http://server.evil.com/x.png")
      as [_ [_ [_ H]]].
    apply H; reflexivity.
Defined.

(** [initializeQueue_restores_one_transfer] at [afterCrash]. *)
Lemma initializeQueue_restores_one_transfer_witness :
  downloadingCount afterCrash = 2%nat /\
  (downloadingCount (initializeQueue phone afterCrash) <= 1)%nat.
Proof.
  split; [reflexivity|].
  apply (initializeQueue_restores_one_transfer phone afterCrash).
  simpl. repeat (constructor; [simpl; intuition discriminate|]). constructor.
Defined.

(** [clearHistory_removes_the_failed] at two failed tasks and a waiting one. *)
Lemma clearHistory_removes_the_failed_witness :
  tasks (store (clearHistory (tasks (store withFailures)) withFailures)) =
    [persistedTask "b" pending].
Proof.
  destruct (clearHistory_removes_the_failed withFailures) as [H _].
  - simpl. repeat (constructor; [simpl; intuition discriminate|]). constructor.
  - rewrite H. reflexivity.
Defined.

End QueueTheory.

(** * Further properties of the cache *)

Module CacheLaws.

Import MobileCacheManager Player CacheSpec ProbeSpec ListFacts CacheTheory.

Section Stats.

Variable env : Env.

Lemma lookup_name n d f : lookupFile n d = Some f -> f_name f = n.
Proof.
  unfold lookupFile. intros H. apply find_some in H as [_ H].
  now apply String.eqb_eq in H.
Qed.

(** The loop of [getCacheStats], whatever fails. *)
Lemma statLoop_any names : forall acc w,
  exists st w',
    statLoop env names acc w = (inr st, w') /\
    fs w' = fs w /\
    totalSize st - sumSizes (validFiles st) = totalSize acc - sumSizes (validFiles acc) /\
    forall x, In x (validFiles st) ->
      In x (validFiles acc) \/
      (Js.endsWith (name x) ".tmp" = false /\
       exists f, lookupFile (name x) (fs w) = Some f /\ x = infoOf env f).
Proof.
  induction names as [|n names IH]; intros acc w.
  - exists acc, w. simpl. repeat split; auto.
  - cbn [statLoop]. destruct (Js.endsWith n ".tmp") eqn:E; [apply IH|].
    unfold bind at 1, tryCatch, bind at 1, stat.
    match goal with |- context [call env ?op ?act w] =>
      destruct (call_cases env op act w) as [[msg C]|C]; rewrite C; clear C end.
    + cbn [ret]. destruct (IH acc (advance w (fs w) [Stat n])) as [st [w' [R [F [T V]]]]].
      exists st, w'. rewrite R. repeat split; auto.
    + destruct (lookupFile n (fs w)) as [f|] eqn:L; cbn [fst snd ret].
      * match goal with |- context [statLoop env names ?a ?v] =>
          destruct (IH a v) as [st [w' [R [F [T V]]]]] end.
        exists st, w'. rewrite R. split; [reflexivity|]. split; [exact F|].
        cbn [totalSize validFiles st_size] in T, V.
        rewrite sumSizes_app in T. cbn [sumSizes fold_right size] in T.
        split; [lia|].
        intros x Hx. destruct (V x Hx) as [Hacc|Hnew].
        -- apply in_app_or in Hacc as [Hacc|[<-|[]]]; [now left|].
           right. cbn [name]. split; [exact E|]. exists f. split.
           ++ exact L.
           ++ unfold infoOf. cbn [st_mtime st_uri]. now rewrite (lookup_name n (fs w) f L).
        -- right. exact Hnew.
      * destruct (IH acc (advance w (fs w) [Stat n])) as [st [w' [R [F [T V]]]]].
        exists st, w'. rewrite R. repeat split; auto.
Qed.

Lemma payloadBytes_nonneg ps : 0 <= payloadBytes ps.
Proof. induction ps as [|p ps IH]; simpl; lia. Qed.

Lemma sizeSum_nonneg l : 0 <= sizeSum l.
Proof.
  induction l as [|f l IH]; simpl; [lia|].
  pose proof (payloadBytes_nonneg (f_data f)). unfold f_size. lia.
Qed.

(** A file that cannot be examined is left out: the statistics never
    count more than the directory holds. *)
Lemma statLoop_bounded l : forall acc w st w',
  (forall f, In f l -> lookupFile (f_name f) (fs w) = Some f) ->
  statLoop env (map f_name l) acc w = (inr st, w') ->
  (List.length (validFiles st)
   <= List.length (validFiles acc) + List.length (filter isCached l))%nat /\
  totalSize st <= totalSize acc + sizeSum (filter isCached l).
Proof.
  induction l as [|f l IH]; intros acc w st w' Hl R.
  - simpl in *. inversion R. subst. split; lia.
  - assert (Hc : isCached f = negb (Js.endsWith (f_name f) ".tmp")) by reflexivity.
    cbn [map statLoop filter] in *.
    destruct (Js.endsWith (f_name f) ".tmp") eqn:E; rewrite Hc; cbn [negb].
    + apply (IH acc w st w'); [intros g Hg; apply Hl; now right|exact R].
    + pose proof (payloadBytes_nonneg (f_data f)) as Hpos.
      revert R. unfold bind at 1, tryCatch, bind at 1, stat.
      match goal with |- context [call env ?op ?act w] =>
        destruct (call_cases env op act w) as [[msg C]|C]; rewrite C; clear C end.
      * cbn [ret]. intros R. apply IH in R.
        -- change (sizeSum (f :: filter isCached l))
             with (f_size f + sizeSum (filter isCached l)).
           cbn [List.length]. unfold f_size. lia.
        -- intros g Hg. simpl. apply Hl. now right.
      * rewrite (Hl f (or_introl eq_refl)). cbn [fst snd ret]. intros R. apply IH in R.
        -- cbn [totalSize validFiles st_size] in R. rewrite length_app in R.
           change (sizeSum (f :: filter isCached l))
             with (f_size f + sizeSum (filter isCached l)).
           cbn [List.length] in *. lia.
        -- intros g Hg. simpl. apply Hl. now right.
Qed.

(** [getCacheStats] either gives up with empty statistics or examines
    the names the directory lists. *)
Lemma getCacheStats_shape w :
  exists st w',
    getCacheStats env w = (inr st, w') /\
    entries (fs w') = entries (fs w) /\
    (st = emptyStats \/
     exists w0, fs w0 = fs w /\
       statLoop env (map f_name (entries (fs w))) emptyStats w0 = (inr st, w')).
Proof.
  unfold getCacheStats, tryCatch at 1, bind at 1, tryCatch, bind at 1, readdir.
  match goal with |- context [call env ?op ?act w] =>
    destruct (call_cases env op act w) as [[msg C]|C]; rewrite C; clear C end.
  - unfold bind at 1, mkdir.
    match goal with |- context [call env ?op ?act ?v] =>
      destruct (call_cases env op act v) as [[msg' C]|C]; rewrite C; clear C end.
    + do 2 eexists. split; [reflexivity|]. split; [reflexivity|now left].
    + cbn [advance fs]. destruct (dirExists (fs w)); cbn [fst snd ret];
        (do 2 eexists; split; [reflexivity|]; split; [reflexivity|now left]).
  - destruct (dirExists (fs w)) eqn:D; cbn [fst snd ret].
    + unfold bind at 1.
      match goal with |- context [call env ?op ?act ?v] =>
        destruct (call_cases env op act v) as [[msg' C]|C]; rewrite C; clear C end.
      * do 2 eexists. split; [reflexivity|]. split; [reflexivity|now left].
      * cbn [advance fs]. rewrite D. cbn [fst snd].
        match goal with |- context [statLoop env ?ns ?a ?v] =>
          destruct (statLoop_any ns a v) as [st [w' [R [F _]]]];
          exists st, w'; rewrite R; split; [reflexivity|];
          split; [now rewrite F|]; right; exists v end.
        split; [reflexivity|exact R].
    + unfold bind at 1, mkdir.
      match goal with |- context [call env ?op ?act ?v] =>
        destruct (call_cases env op act v) as [[msg' C]|C]; rewrite C; clear C end.
      * do 2 eexists. split; [reflexivity|]. split; [reflexivity|now left].
      * cbn [advance fs]. rewrite D. cbn [fst snd ret].
        do 2 eexists. split; [reflexivity|]. split; [reflexivity|now left].
Qed.

Lemma getCacheStats_any w :
  exists st w',
    getCacheStats env w = (inr st, w') /\
    entries (fs w') = entries (fs w) /\
    totalSize st = sumSizes (validFiles st) /\
    forall x, In x (validFiles st) ->
      Js.endsWith (name x) ".tmp" = false /\
      exists f, lookupFile (name x) (fs w) = Some f /\ x = infoOf env f.
Proof.
  destruct (getCacheStats_shape w) as [st [w' [R [F [E|[w0 [F0 E]]]]]]];
    exists st, w'; (split; [exact R|]); (split; [exact F|]).
  - subst st. split; [reflexivity|]. intros x [].
  - destruct (statLoop_any (map f_name (entries (fs w))) emptyStats w0)
      as [st1 [w1 [R1 [_ [T V]]]]].
    rewrite E in R1. inversion R1. subst st1 w1.
    cbn [emptyStats totalSize validFiles sumSizes fold_right] in T.
    split; [lia|]. intros x Hx. destruct (V x Hx) as [[]|H].
    unfold lookupFile in *. rewrite F0 in H. exact H.
Qed.

Lemma getCacheStats_bounded w st w' :
  NoDup (map f_name (entries (fs w))) ->
  getCacheStats env w = (inr st, w') ->
  (List.length (validFiles st) <= List.length (cached (fs w)))%nat /\
  totalSize st <= cachedBytes (fs w).
Proof.
  intros Hnd R.
  destruct (getCacheStats_shape w) as [st1 [w1 [R1 [F [E|[w0 [F0 E]]]]]]];
    rewrite R in R1; inversion R1; subst st1 w1.
  - subst st. simpl. split; [lia|]. apply (sizeSum_nonneg (cached (fs w))).
  - apply statLoop_bounded in E.
    + exact E.
    + intros f Hf. rewrite F0. unfold lookupFile. now apply lookup_listed.
Qed.

(** Property X13. [getCacheStats] never throws and deletes nothing,
    whatever fails. The total it reports is the sum of the sizes of the
    files it lists, and each of those is a file of the directory, not a
    temp file, with the size and time the directory has for it. *)
Theorem getCacheStats_counts_what_it_lists w :
  exists st,
    fst (getCacheStats env w) = inr st /\
    totalSize st = sumSizes (validFiles st) /\
    entries (fs (snd (getCacheStats env w))) = entries (fs w) /\
    forall x, In x (validFiles st) ->
      Js.endsWith (name x) ".tmp" = false /\
      exists f, lookupFile (name x) (fs w) = Some f /\ x = infoOf env f.
Proof.
  destruct (getCacheStats_any w) as [st [w' [R [F [T V]]]]].
  exists st. rewrite R. auto.
Qed.

End Stats.

Section Lookup.

Variable env : Env.
Variable fileName : string.

(** What [getCachedFile] answers, whatever fails. *)
Lemma getCachedFile_any w :
  exists r w',
    getCachedFile env fileName w = (inr r, w') /\
    (forall u, r = Some u ->
       u = uriOf env (CACHE_DIR ++ "/" ++ fileName) /\ fs w' = fs w /\
       exists f, lookupFile fileName (fs w) = Some f /\ f_size f <> 0) /\
    (lookupFile fileName (fs w) = None -> r = None /\ fs w' = fs w).
Proof.
  unfold getCachedFile, tryCatch at 1, bind at 1, stat.
  match goal with |- context [call env ?op ?act w] =>
    destruct (call_cases env op act w) as [[msg C]|C]; rewrite C; clear C end.
  - exists None. eexists. split; [reflexivity|]. cbn [advance fs].
    split; [intros u Hu; discriminate Hu|]. intros _. split; reflexivity.
  - destruct (lookupFile fileName (fs w)) as [f|] eqn:L; cbn [fst snd ret st_size st_uri].
    + destruct (f_size f =? 0) eqn:Z0.
      * exists None. unfold bind.
        destruct (tryCatch (deleteFile env fileName) (fun _ => ret tt) _)
          as [[e|u] w2] eqn:D.
        -- exfalso. unfold tryCatch in D.
           destruct (deleteFile env fileName _) as [[e1|u1] w3]; discriminate.
        -- eexists. split; [reflexivity|].
           split; [intros u0 Hu; discriminate Hu|]. intros Hn; discriminate Hn.
      * exists (Some (uriOf env (CACHE_DIR ++ "/" ++ fileName))). eexists.
        split; [reflexivity|]. cbn [advance fs]. split; [|intros Hn; discriminate Hn].
        intros u Hu. inversion Hu. split; [reflexivity|]. split; [reflexivity|].
        exists f. split; [reflexivity|]. now apply Z.eqb_neq.
    + exists None. eexists. split; [reflexivity|]. cbn [advance fs].
      split; [intros u Hu; discriminate Hu|]. intros _. split; reflexivity.
Qed.

Lemma Keeps_getCachedFile m : m <> fileName -> Keeps m (getCachedFile env fileName).
Proof.
  intros Hm. unfold getCachedFile.
  apply Keeps_tryCatch; [|intros; apply Keeps_ret].
  apply Keeps_bind.
  - apply Keeps_call. intros d now. now destruct (lookupFile fileName d).
  - intros st. destruct (st_size st =? 0); [|apply Keeps_ret].
    apply Keeps_bind; [|intros; apply Keeps_ret].
    apply Keeps_tryCatch; [now apply Keeps_deleteFile|intros; apply Keeps_ret].
Qed.

Lemma getCachedFile_found w f :
  lookupFile fileName (fs w) = Some f -> fault env (tick w) = None ->
  fst (getCachedFile env fileName w) =
    inr (if f_size f =? 0 then None else Some (uriOf env (CACHE_DIR ++ "/" ++ fileName))).
Proof.
  intros L F0. unfold getCachedFile, tryCatch at 1, bind at 1, stat.
  rewrite call_ok by exact F0. rewrite L. cbn [fst snd st_size st_uri].
  destruct (f_size f =? 0); [|reflexivity].
  unfold bind.
  destruct (tryCatch (deleteFile env fileName) (fun _ => ret tt) _) as [[e|u] w2] eqn:D;
    [|reflexivity].
  exfalso. unfold tryCatch in D.
  destruct (deleteFile env fileName _) as [[e1|u1] w3]; discriminate.
Qed.

(** Property X11. [getCachedFile] never throws. When it answers with a
    URI, the file is there, is not empty, and nothing was changed; for a
    missing file it answers [null] and changes nothing; files of other
    names are never touched. *)
Theorem getCachedFile_answers_for_sound_files_only w :
  let w' := snd (getCachedFile env fileName w) in
  exists r,
    fst (getCachedFile env fileName w) = inr r /\
    (forall u, r = Some u ->
       u = uriOf env (CACHE_DIR ++ "/" ++ fileName) /\ fs w' = fs w /\
       exists f, lookupFile fileName (fs w) = Some f /\ f_size f <> 0) /\
    (lookupFile fileName (fs w) = None -> r = None /\ fs w' = fs w) /\
    (forall m, m <> fileName -> lookupFile m (fs w') = lookupFile m (fs w)).
Proof.
  intros w'. pose proof (Keeps_getCachedFile) as K. unfold w'.
  destruct (getCachedFile_any w) as [r [w1 [R [Hs Hn]]]].
  exists r. rewrite R. cbn [fst snd]. split; [reflexivity|].
  split; [exact Hs|]. split; [exact Hn|].
  intros m Hm. specialize (K m Hm w). rewrite R in K. exact K.
Qed.

End Lookup.

Section Safety.

Variable env : Env.

(** The delete loop only deletes, and only what it was given. *)
Lemma deleteLoop_any D : forall w,
  exists names,
    incl names (map name D) /\
    entries (fs (snd (deleteLoop env D w))) = removeAll names (entries (fs w)).
Proof.
  induction D as [|x D IH]; intros w.
  - exists []. split; [apply incl_refl|reflexivity].
  - cbn [deleteLoop]. unfold bind, deleteFile.
    match goal with |- context [call env ?op ?act w] =>
      destruct (call_cases env op act w) as [[msg C]|C]; rewrite C; clear C end.
    + exists []. split; [intros n []|reflexivity].
    + destruct (lookupFile (name x) (fs w)) as [f|]; cbn [fst snd].
      * match goal with |- context [deleteLoop env D ?v] =>
          destruct (IH v) as [names [Hi E]] end.
        exists (name x :: names). split.
        -- intros n [<-|Hn]; [now left|right; now apply Hi].
        -- rewrite E. reflexivity.
      * exists []. split; [intros n []|reflexivity].
Qed.

Lemma lookup_removeAll_cases names n l :
  find (fun g => (f_name g =? n)%string) (removeAll names l) =
  if listed names n then None else find (fun g => (f_name g =? n)%string) l.
Proof.
  destruct (listed names n) eqn:L.
  - rewrite removeAll_filter. apply find_none_iff. intros g Hg.
    apply filter_In in Hg as [_ Hg].
    destruct (f_name g =? n)%string eqn:E; [|reflexivity].
    apply String.eqb_eq in E. rewrite E, L in Hg. discriminate.
  - apply lookup_removeAll_other. intros H. apply listed_In in H. congruence.
Qed.

(** What a pass does to the directory, whatever fails in it. *)
Lemma ensureCacheLimits_any w :
  exists st w0 names,
    getCacheStats env w = (inr st, w0) /\
    incl names (map name (validFiles st)) /\
    (overLimit st = false -> names = []) /\
    entries (fs (snd (ensureCacheLimits env w))) = removeAll names (entries (fs w)).
Proof.
  destruct (getCacheStats_any env w) as [st [w0 [R [F _]]]].
  exists st, w0. unfold ensureCacheLimits, tryCatch, bind. rewrite R.
  destruct (overLimit st) eqn:O.
  - destruct (deleteLoop_any (filesToDelete st) w0) as [names [Hi E]].
    exists names. split; [reflexivity|]. split; [|split; [discriminate|]].
    + intros n Hn. apply Hi in Hn. apply in_map_iff in Hn as [x [<- Hx]].
      apply in_map. unfold filesToDelete in Hx.
      apply (Permutation_in _ (Permutation_sym (sortByMtime_perm (validFiles st)))).
      rewrite <- (firstn_skipn (countToDelete (sortByMtime (validFiles st)))
                    (sortByMtime (validFiles st))).
      apply in_or_app. apply in_app_or in Hx as [Hx|Hx]; [now left|right].
      rewrite sizePass_prefix in Hx. now apply in_firstn in Hx.
    + rewrite <- F, <- E.
      destruct (deleteLoop env (filesToDelete st) w0) as [[e|[]] w1]; reflexivity.
  - exists []. split; [reflexivity|]. split; [intros n []|]. split; [reflexivity|].
    simpl. exact F.
Qed.

(** Property X14. Whatever fails during a pass, [ensureCacheLimits]
    only deletes: every file is afterwards as it was or gone, nothing is
    created or rewritten, and a temp file is never deleted. *)
Theorem eviction_only_deletes_counted_files w m :
  let w' := snd (ensureCacheLimits env w) in
  (lookupFile m (fs w') = lookupFile m (fs w) \/ lookupFile m (fs w') = None) /\
  (Js.endsWith m ".tmp" = true -> lookupFile m (fs w') = lookupFile m (fs w)).
Proof.
  intros w'. destruct (ensureCacheLimits_any w) as [st [w0 [names [R [Hi [_ E]]]]]].
  fold w' in E. unfold lookupFile. rewrite E, lookup_removeAll_cases.
  destruct (listed names m) eqn:L.
  - split; [now right|]. intros T. exfalso.
    apply listed_In in L. apply Hi in L. apply in_map_iff in L as [x [Ex Hx]].
    destruct (getCacheStats_any env w) as [st1 [w1 [R1 [_ [_ V]]]]].
    rewrite R in R1. inversion R1. subst st1 w1.
    destruct (V x Hx) as [Hx' _]. rewrite Ex in Hx'. congruence.
  - split; [now left|reflexivity].
Qed.

(** Property X15. A cache within both limits loses nothing in a pass,
    also when platform calls fail: a file that cannot be examined is left
    out of the statistics, which can only make the cache look smaller. *)
Theorem eviction_spares_cache_within_limits w :
  NoDup (map f_name (entries (fs w))) ->
  (List.length (cached (fs w)) <= MAX_FILES)%nat ->
  cachedBytes (fs w) <= MAX_CACHE_SIZE_BYTES ->
  entries (fs (snd (ensureCacheLimits env w))) = entries (fs w).
Proof.
  intros Hnd Hc Hs.
  destruct (ensureCacheLimits_any w) as [st [w0 [names [R [_ [Hn E]]]]]].
  destruct (getCacheStats_bounded env w st w0 Hnd R) as [Hl Ht].
  rewrite E, Hn; [reflexivity|].
  unfold overLimit. apply orb_false_iff. split.
  - apply Z.ltb_ge. lia.
  - apply Nat.ltb_ge. lia.
Qed.

End Safety.

Section Removal.

Variable env : Env.

(** Property X12. [removeCachedFile] never throws and touches no other
    file. Deleting a file that is there reports [true] and the file is
    gone; when the platform call fails, nothing changes and the answer is
    [true] exactly when the message contains "not found". *)
Theorem removeCachedFile_reports fileName w :
  let w' := snd (removeCachedFile env fileName w) in
  (exists b, fst (removeCachedFile env fileName w) = inr b) /\
  (forall m, m <> fileName -> lookupFile m (fs w') = lookupFile m (fs w)) /\
  (fault env (tick w) = None -> lookupFile fileName (fs w) <> None ->
     fst (removeCachedFile env fileName w) = inr true /\
     lookupFile fileName (fs w') = None) /\
  (forall msg, fault env (tick w) = Some msg ->
     fst (removeCachedFile env fileName w) = inr (Js.includes msg "not found") /\
     fs w' = fs w).
Proof.
  intros w'. unfold w', removeCachedFile, tryCatch, bind, deleteFile.
  destruct (fault env (tick w)) as [msg|] eqn:F.
  - rewrite (call_fault env _ _ w msg F). cbn [messageText].
    split; [|split; [|split]].
    + destruct (Js.includes msg "not found"); eexists; reflexivity.
    + intros m _. now destruct (Js.includes msg "not found").
    + intros H. discriminate H.
    + intros msg' H. inversion H. subst msg'.
      now destruct (Js.includes msg "not found").
  - rewrite call_ok by exact F.
    destruct (lookupFile fileName (fs w)) as [f|] eqn:L; cbn [fst snd ret messageText].
    + split; [eexists; reflexivity|]. split; [|split].
      * intros m Hm. unfold lookupFile. cbn [advance fs entries].
        now apply lookup_removeEntry_other.
      * intros _ _. split; [reflexivity|]. unfold lookupFile. cbn [advance fs entries].
        apply lookup_removeEntry_same.
      * intros msg H. discriminate H.
    + split; [|split; [|split]].
      * destruct (Js.includes _ _); eexists; reflexivity.
      * intros m _. now destruct (Js.includes _ _).
      * intros _ H. now elim H.
      * intros msg H. discriminate H.
Qed.

End Removal.

Section Passes.

Variable env : Env.

(** What a pass without failure leaves is within the limits. *)
Lemma pass_fits d :
  NoDup (map f_name (entries d)) ->
  cachedBytes (without (map name (selected env d)) d) <= MAX_CACHE_SIZE_BYTES /\
  (List.length (cached (without (map name (selected env d)) d)) <= MAX_FILES)%nat.
Proof.
  intros Hnd. unfold selected. destruct (overLimit (statsOf env d)) eqn:O.
  - rewrite filesToDelete_prefix.
    pose proof (kept_after_prefix env d
                  (evictCount (validFiles (statsOf env d)) (totalSize (statsOf env d)))
                  Hnd) as P.
    cbv zeta in P.
    destruct (evicted_rest_fits (statsOf env d) (statsOf_total env d)) as [Hsize Hcount].
    split.
    + rewrite (cachedBytes_sumSizes env), (sumSizes_perm _ _ P). exact Hsize.
    + rewrite <- (length_map (infoOf env)), (Permutation_length P). exact Hcount.
  - simpl map. rewrite without_nil.
    unfold overLimit in O. apply orb_false_iff in O as [O1 O2].
    apply Z.ltb_ge in O1. apply Nat.ltb_ge in O2.
    simpl in O1, O2. rewrite length_map in O2. now split.
Qed.

Lemma selected_within d :
  cachedBytes d <= MAX_CACHE_SIZE_BYTES ->
  (List.length (cached d) <= MAX_FILES)%nat ->
  selected env d = [].
Proof.
  intros Hs Hc. unfold selected.
  replace (overLimit (statsOf env d)) with false; [reflexivity|].
  symmetry. unfold overLimit. apply orb_false_iff. simpl. rewrite length_map. split.
  - now apply Z.ltb_ge.
  - now apply Nat.ltb_ge.
Qed.

Lemma NoDup_without names d :
  NoDup (map f_name (entries d)) -> NoDup (map f_name (entries (without names d))).
Proof.
  intros H. unfold without. cbn [entries]. rewrite removeAll_filter.
  now apply NoDup_map_filter.
Qed.

(** Property X16. A second pass right after a pass deletes nothing,
    when no platform call fails. *)
Theorem eviction_twice_is_eviction_once w :
  noFault env -> wellFormed (fs w) ->
  fs (snd (ensureCacheLimits env (snd (ensureCacheLimits env w)))) =
  fs (snd (ensureCacheLimits env w)).
Proof.
  intros Hq [Hnd Hmiss].
  destruct (dirExists (fs w)) eqn:Hd.
  - rewrite (ensureCacheLimits_run env w); auto using noFault_quietFor. cbn [snd].
    destruct (pass_fits (fs w) Hnd) as [Hs Hc].
    rewrite ensureCacheLimits_run; auto using noFault_quietFor.
    + cbn [snd advance fs]. rewrite selected_within by assumption. apply without_nil.
    + cbn [advance fs]. now apply NoDup_without.
  - rewrite (ensureCacheLimits_missing env w); auto using noFault_quietFor. cbn [snd].
    assert (Hnil : entries (fs w) = []) by exact (Hmiss eq_refl).
    rewrite ensureCacheLimits_run; auto using noFault_quietFor.
    + cbn [snd advance fs]. rewrite Hnil.
      rewrite selected_within; [apply without_nil| |];
        unfold cachedBytes, cached, MAX_CACHE_SIZE_BYTES, MAX_FILES; simpl; lia.
Qed.

(** In a list sorted by time, an entry strictly newer than every other
    one comes last. *)
Lemma newest_is_last x : forall s,
  StronglySorted byMtime s -> NoDup s -> In x s ->
  (forall y, In y s -> y <> x -> mtime y < mtime x) ->
  exists init, s = (init ++ [x])%list.
Proof.
  induction s as [|a s IH]; intros Hs Hnd Hin Hnew; [destruct Hin|].
  inversion Hs as [|? ? Hs' Hle]; subst. inversion Hnd as [|? ? Ha Hnd']; subst.
  destruct s as [|b s].
  - destruct Hin as [->|[]]. now exists [].
  - destruct Hin as [->|Hin].
    + exfalso. rewrite Forall_forall in Hle.
      specialize (Hle b (or_introl eq_refl)). unfold byMtime in Hle.
      assert (Hb : b <> x) by (intros ->; apply Ha; now left).
      specialize (Hnew b (or_intror (or_introl eq_refl)) Hb). lia.
    + destruct (IH Hs' Hnd' Hin) as [init E].
      * intros y Hy. apply Hnew. now right.
      * exists (a :: init). simpl. now rewrite E.
Qed.

(** What a pass selects is not a temp file. *)
Lemma selected_counted d x :
  In x (selected env d) -> Js.endsWith (name x) ".tmp" = false.
Proof.
  intros Hx. destruct (selected_prefix env d) as [k E]. rewrite E in Hx.
  apply in_firstn in Hx.
  apply (Permutation_in _ (Permutation_sym (sortByMtime_perm _))) in Hx.
  simpl in Hx. apply in_map_iff in Hx as [f [<- Hf]].
  apply filter_In in Hf as [_ Hf]. cbn [infoOf name]. now apply negb_true_iff in Hf.
Qed.

(** A pass does not select the newest file, unless it is larger than
    2 GiB by itself. *)
Lemma newest_not_selected d f :
  NoDup (map f_name (entries d)) ->
  In f (cached d) ->
  (forall g, In g (cached d) -> g <> f -> f_mtime g < f_mtime f) ->
  f_size f <= MAX_CACHE_SIZE_BYTES ->
  ~ In (f_name f) (map name (selected env d)).
Proof.
  intros Hnd Hf Hnew Hsz.
  unfold selected. destruct (overLimit (statsOf env d)) eqn:O; [|intros []].
  rewrite filesToDelete_prefix.
  set (st := statsOf env d) in *.
  set (sorted := sortByMtime (validFiles st)).
  pose proof (sorted_names_NoDup env d Hnd) as Hnames. fold st sorted in Hnames.
  assert (Hx : In (infoOf env f) sorted).
  { apply (Permutation_in _ (sortByMtime_perm (validFiles st))).
    unfold st, statsOf. cbn [validFiles]. now apply in_map. }
  destruct (newest_is_last (infoOf env f) sorted) as [init E].
  - apply sortByMtime_sorted.
  - now apply NoDup_map_inv in Hnames.
  - exact Hx.
  - intros y Hy Hne.
    apply (Permutation_in _ (Permutation_sym (sortByMtime_perm (validFiles st)))) in Hy.
    unfold st, statsOf in Hy. cbn [validFiles] in Hy.
    apply in_map_iff in Hy as [g [<- Hg]]. cbn [infoOf mtime].
    apply Hnew; [exact Hg|]. intros ->. now apply Hne.
  - pose proof (evictCount_le st) as Hle. fold sorted in Hle.
    assert (Hk : (evictCount (validFiles st) (totalSize st) <= List.length init)%nat).
    { destruct (Nat.le_gt_cases (evictCount (validFiles st) (totalSize st))
                  (List.length init)) as [H|H]; [exact H|].
      exfalso.
      destruct (evictCount_minimal st (statsOf_total env d) (List.length init) H)
        as [Hc|Hs]; fold sorted in Hc || fold sorted in Hs.
      - rewrite E, length_skipn, length_app in Hc. simpl in Hc.
        unfold MAX_FILES in Hc. lia.
      - rewrite E, skipn_app, skipn_all, Nat.sub_diag in Hs. simpl in Hs.
        lia. }
    rewrite E, firstn_app.
    replace (evictCount (validFiles st) (totalSize st) - List.length init)%nat
      with 0%nat by lia.
    simpl firstn. rewrite app_nil_r. intros Hin.
    rewrite E, map_app in Hnames.
    apply (NoDup_app_disjoint _ _ (f_name f) Hnames); [|now left].
    rewrite <- firstn_map in Hin. now apply in_firstn in Hin.
Qed.

(** Property X17. The newest file of the cache survives a pass
    unchanged if it is not larger than 2 GiB by itself, when no platform
    call fails. *)
Theorem newest_file_survives_eviction w f :
  noFault env -> wellFormed (fs w) ->
  In f (cached (fs w)) ->
  (forall g, In g (cached (fs w)) -> g <> f -> f_mtime g < f_mtime f) ->
  f_size f <= MAX_CACHE_SIZE_BYTES ->
  lookupFile (f_name f) (fs (snd (ensureCacheLimits env w))) = Some f.
Proof.
  intros Hq [Hnd Hmiss] Hf Hnew Hsz.
  assert (Hfe : In f (entries (fs w))) by (apply filter_In in Hf; apply Hf).
  assert (Hd : dirExists (fs w) = true).
  { destruct (dirExists (fs w)); [reflexivity|].
    rewrite (Hmiss eq_refl) in Hfe. destruct Hfe. }
  assert (L : lookupFile (f_name f) (fs w) = Some f)
    by (unfold lookupFile; now apply lookup_listed).
  rewrite ensureCacheLimits_run; auto using noFault_quietFor. cbn [snd advance fs].
  unfold lookupFile, without. cbn [entries].
  rewrite lookup_removeAll_other; [exact L|].
  now apply newest_not_selected.
Qed.

(** **** A pass that was started and left to run *)





(** The rest of a pass whose first call went well, when nothing
    fails. *)
Lemma passAfter_run w :
  noFault env -> dirExists (fs w) = true ->
  NoDup (map f_name (entries (fs w))) ->
  passAfter env (inr tt) w =
    (inr tt,
     advance w (without (map name (selected env (fs w))) (fs w))
       (Readdir :: map (fun f => Stat (f_name f)) (cached (fs w))
        ++ deleteOps (selected env (fs w)))).
Proof.
  intros Hq Hd Hnd.
  assert (R : getCacheStatsAfter env (inr tt) w =
              (inr (statsOf env (fs w)),
               advance w (fs w)
                 (Readdir :: map (fun f => Stat (f_name f)) (cached (fs w))))).
  { unfold getCacheStatsAfter, tryCatch, bind at 1. cbn [ret].
    unfold bind, readdir. rewrite call_ok by apply Hq. rewrite Hd. cbn [fst snd].
    rewrite statLoop_run.
    - simpl. rewrite !advance_advance. reflexivity.
    - intros f Hf. simpl. unfold lookupFile. now apply lookup_listed.
    - now apply noFault_quietFor. }
  unfold passAfter, tryCatch, bind. rewrite R.
  unfold selected. destruct (overLimit (statsOf env (fs w))) eqn:O.
  - rewrite deleteLoop_ok; simpl fs.
    + rewrite advance_advance. reflexivity.
    + pose proof (selected_NoDup env (fs w) Hnd) as H. unfold selected in H.
      now rewrite O in H.
    + intros x Hx. apply (selected_listed env). unfold selected. now rewrite O.
    + now apply noFault_quietFor.
  - unfold ret, without. simpl.
    replace {| dirExists := dirExists (fs w); entries := entries (fs w) |} with (fs w)
      by now destruct (fs w).
    unfold deleteOps. simpl. now rewrite app_nil_r.
Qed.

End Passes.

Section Probe.

Variable env : Env.
Variable url : string.

(** Property X18. The size the probe acts on is read from what the
    server announces: a decimal length under [Content-Length], or under
    [content-length] when the former is absent or empty, is read as the
    double nearest to it, which is the length itself up to [2 ^ 53]; and
    chunks are used exactly when the announced length exceeds 50 MiB.
    With neither header the size is 0 and a single request is made. *)
Theorem size_probe_selects_transfer :
  let h := headers (respond env (Head url)) in
  (forall n, announces h n ->
     probe env url = toNumber (Z.of_N n) /\
     (Z.of_N n <= 2 ^ 53 -> probe env url = Num (Z.of_N n)) /\
     (useChunks (probe env url) = true <-> LARGE_FILE_BYTES < Z.of_N n)) /\
  (Js.truthy (lookupHeader "Content-Length" h) = false ->
   Js.truthy (lookupHeader "content-length" h) = false ->
   probe env url = Num 0 /\ useChunks (probe env url) = false).
Proof.
  intros h. split.
  - intros n H. rewrite (probe_announced env url n H). split; [reflexivity|]. split.
    + intros Hn. apply toNumber_safe. lia.
    + apply useChunks_toNumber. lia.
  - intros H1 H2. rewrite (probe_unannounced env url H1 H2). split; reflexivity.
Qed.

End Probe.

Section Steps.

Variable env : Env.

Lemma tidy_refl w : tidy w w.
Proof. split; [auto|reflexivity]. Qed.

Lemma tidy_trans w1 w2 w3 : tidy w1 w2 -> tidy w2 w3 -> tidy w1 w3.
Proof. intros [A1 B1] [A2 B2]. split; [auto|congruence]. Qed.

Lemma Tidy_ret {A} (a : A) : Tidy (ret a).
Proof. intros w. apply tidy_refl. Qed.

Lemma Tidy_throw {A} e : Tidy (@throw A e).
Proof. intros w. apply tidy_refl. Qed.

Lemma Tidy_bind {A B} (c : M A) (k : A -> M B) :
  Tidy c -> (forall a, Tidy (k a)) -> Tidy (bind c k).
Proof.
  intros Hc Hk w. unfold bind. specialize (Hc w).
  destruct (c w) as [[e|a] w1]; simpl in *; [exact Hc|].
  eapply tidy_trans; [exact Hc|apply Hk].
Qed.

Lemma Tidy_tryCatch {A} (c : M A) (h : Thrown -> M A) :
  Tidy c -> (forall e, Tidy (h e)) -> Tidy (tryCatch c h).
Proof.
  intros Hc Hh w. unfold tryCatch. specialize (Hc w).
  destruct (c w) as [[e|a] w1]; simpl in *; [|exact Hc].
  eapply tidy_trans; [exact Hc|apply Hh].
Qed.

Lemma Tidy_call {A} op (act : FS -> Z -> Result A * FS) :
  (forall d now, wellFormed d -> wellFormed (snd (act d now))) -> Tidy (call env op act).
Proof.
  intros H w.
  destruct (call_cases env op act w) as [[msg C]|C]; rewrite C; cbn [snd advance].
  - split; [auto|reflexivity].
  - split; [cbn [fs]; apply H|reflexivity].
Qed.

Lemma names_putEntry f l n :
  In n (map f_name (putEntry f l)) -> n = f_name f \/ In n (map f_name l).
Proof.
  induction l as [|g l IH]; simpl.
  - intros [<-|[]]. now left.
  - destruct (f_name g =? f_name f)%string eqn:E; simpl.
    + intros [<-|H]; [now left|right; now right].
    + intros [<-|H]; [right; now left|].
      destruct (IH H) as [->|H']; [now left|right; now right].
Qed.

Lemma NoDup_putEntry f l : NoDup (map f_name l) -> NoDup (map f_name (putEntry f l)).
Proof.
  induction l as [|g l IH]; simpl; intros H.
  - constructor; [intros []|constructor].
  - inversion H as [|? ? Hg Hl]; subst.
    destruct (f_name g =? f_name f)%string eqn:E; simpl.
    + apply String.eqb_eq in E. rewrite <- E. now constructor.
    + constructor; [|now apply IH].
      intros Hin. apply names_putEntry in Hin as [Hin|Hin]; [|contradiction].
      apply String.eqb_neq in E. congruence.
Qed.

Lemma wellFormed_put d f :
  wellFormed d -> wellFormed {| dirExists := true; entries := putEntry f (entries d) |}.
Proof.
  intros [Hnd _]. split; cbn [dirExists entries]; [now apply NoDup_putEntry|discriminate].
Qed.

Lemma wellFormed_remove d n :
  wellFormed d ->
  wellFormed {| dirExists := dirExists d; entries := removeEntry n (entries d) |}.
Proof.
  intros [Hnd Hm]. split; cbn [dirExists entries].
  - unfold removeEntry. now apply NoDup_map_filter.
  - intros H. now rewrite (Hm H).
Qed.

Lemma wellFormed_listed d n f : wellFormed d -> lookupFile n d = Some f -> dirExists d = true.
Proof.
  intros [_ Hm] L. destruct (dirExists d); [reflexivity|].
  unfold lookupFile in L. rewrite (Hm eq_refl) in L. discriminate.
Qed.

Lemma wellFormed_rename d from f g :
  wellFormed d -> lookupFile from d = Some f ->
  wellFormed {| dirExists := dirExists d;
                entries := putEntry g (removeEntry from (entries d)) |}.
Proof.
  intros W L. rewrite (wellFormed_listed d from f W L).
  apply (wellFormed_put {| dirExists := dirExists d;
                           entries := removeEntry from (entries d) |}).
  now apply wellFormed_remove.
Qed.

Lemma Tidy_readdir : Tidy (readdir env).
Proof. apply Tidy_call. intros d now W. now destruct (dirExists d). Qed.

Lemma Tidy_mkdir : Tidy (mkdir env).
Proof.
  apply Tidy_call. intros d now W. destruct (dirExists d) eqn:D; cbn [snd]; [exact W|].
  destruct W as [Hnd _]. split; [exact Hnd|discriminate].
Qed.

Lemma Tidy_http q : Tidy (http env q).
Proof. apply Tidy_call. intros d now W. exact W. Qed.

Lemma Tidy_deleteFile n : Tidy (deleteFile env n).
Proof.
  apply Tidy_call. intros d now W.
  destruct (lookupFile n d); cbn [snd]; [now apply wellFormed_remove|exact W].
Qed.

Lemma Tidy_writeFile n p : Tidy (writeFile env n p).
Proof. apply Tidy_call. intros d now W. cbn [snd]. now apply wellFormed_put. Qed.

Lemma Tidy_appendFile n p : Tidy (appendFile env n p).
Proof.
  apply Tidy_call. intros d now W.
  destruct (dirExists d); cbn [snd]; [now apply wellFormed_put|exact W].
Qed.

Lemma Tidy_prepare url tmp : Tidy (prepare env url tmp).
Proof.
  unfold prepare.
  apply Tidy_bind; [|intros _; apply Tidy_bind; [apply Tidy_http|]].
  - apply Tidy_tryCatch; [|intros; apply Tidy_mkdir].
    apply Tidy_bind; [apply Tidy_readdir|intros; apply Tidy_ret].
  - intros h. apply Tidy_bind; [|intros; apply Tidy_ret].
    apply Tidy_tryCatch; [apply Tidy_deleteFile|intros; apply Tidy_ret].
Qed.

Lemma chunkLoop_tidy url tmp fuel : forall total offset w r w',
  chunkLoop env fuel url tmp total offset w = Some (r, w') -> tidy w w'.
Proof.
  induction fuel as [|fuel IH]; intros total offset w r w';
    destruct (lessThan offset total) eqn:Lt.
  all: try (rewrite chunkLoop_exit by exact Lt; intros E; injection E as _ <-;
            apply tidy_refl).
  - rewrite chunkLoop_out by exact Lt. discriminate.
  - rewrite chunkLoop_step by exact Lt.
    pose proof (Tidy_http (Get url (Some (offset, chunkEnd total offset))) w) as Hh.
    destruct (http env _ w) as [[e|resp] w1]; simpl in Hh;
      [intros E; injection E as _ <-; exact Hh|].
    destruct (400 <=? status resp); [intros E; injection E as _ <-; exact Hh|].
    assert (Hw : tidy w1 (snd ((if offset =? 0 then writeFile env tmp (data resp)
                                else appendFile env tmp (data resp)) w1))).
    { destruct (offset =? 0); [apply Tidy_writeFile|apply Tidy_appendFile]. }
    destruct ((if offset =? 0 then writeFile env tmp (data resp)
               else appendFile env tmp (data resp)) w1) as [[e|u] w2]; simpl in Hw.
    + intros E. injection E as _ <-. eapply tidy_trans; eauto.
    + intros E. apply IH in E. eapply tidy_trans; [exact Hh|].
      eapply tidy_trans; eauto.
Qed.

Lemma transfer_tidy fuel url tmp total w r w' :
  transfer env fuel url tmp total w = Some (r, w') -> tidy w w'.
Proof.
  unfold transfer. destruct (useChunks total); [apply chunkLoop_tidy|].
  unfold settles. intros E. injection E as E.
  assert (T : Tidy (singleTransfer env url tmp)).
  { unfold singleTransfer. apply Tidy_bind; [apply Tidy_http|].
    intros q. destruct (status q =? 200); [apply Tidy_writeFile|apply Tidy_throw]. }
  specialize (T w). now rewrite E in T.
Qed.


End Steps.

Section Downloads.

Variable env : Env.
Variables url fileName : string.

Lemma promote_done w2 u w3 :
  promote env (fileName ++ ".tmp") fileName w2 = (inr u, w3) ->
  u = uriOf env (CACHE_DIR ++ "/" ++ fileName) /\
  trace w3 = (trace w2 ++ closingOps (fileName ++ ".tmp") fileName)%list /\
  lookupFile (fileName ++ ".tmp") (fs w3) = None /\
  exists mt, lookupFile fileName (fs w3) =
    Some {| f_name := fileName; f_data := dataAt (fileName ++ ".tmp") (fs w2);
            f_mtime := mt |}.
Proof.
  intros E.
  destruct (promote_cases env fileName w2)
    as [[e0 [w0 [E0 _]]]|[f [r [res [w0 [L [_ [E0 [Hres [Hfs [Htr _]]]]]]]]]]];
    rewrite E in E0; [discriminate|]. injection E0 as <- <-.
  split; [destruct Hres as [H|[msg H]]; [now injection H|discriminate]|].
  split; [exact Htr|]. rewrite Hfs. split.
  - apply lookup_promoted_tmp.
  - exists (f_mtime f). unfold dataAt. rewrite L. apply lookup_installed.
Qed.

(** A download that returns has installed the whole payload. *)
Lemma download_done fuel w u w' :
  downloadToCache env fuel url fileName w = Some (inr u, w') ->
  u = uriOf env (CACHE_DIR ++ "/" ++ fileName) /\
  (exists before,
     trace w' = (before ++ closingOps (fileName ++ ".tmp") fileName)%list) /\
  lookupFile (fileName ++ ".tmp") (fs w') = None /\
  exists mt, lookupFile fileName (fs w') =
    Some {| f_name := fileName; f_data := fullPayload env url; f_mtime := mt |}.
Proof.
  rewrite downloadToCache_phases.
  destruct (prepare env url (fileName ++ ".tmp") w) as [[e0|total] w0] eqn:Pr.
  { destruct (cleanup_run env fileName e0 w0) as [w2 [Hc _]]. rewrite Hc. discriminate. }
  apply prepare_result in Pr. subst total.
  destruct (transfer env fuel url (fileName ++ ".tmp") (probe env url) w0)
    as [[[e0|t] w3]|] eqn:T; [| |discriminate].
  { destruct (cleanup_run env fileName e0 w3) as [w2 [Hc _]]. rewrite Hc. discriminate. }
  apply transfer_done in T as [Hdata _].
  unfold tryCatch.
  destruct (promote env (fileName ++ ".tmp") fileName w3) as [[e1|a] w4] eqn:A.
  { destruct (cleanup_run env fileName e1 w4) as [w2 [Hc _]]. rewrite Hc. discriminate. }
  intros H. injection H as <- <-.
  apply promote_done in A as [Hu [Htr [Htmp [mt Hl]]]].
  split; [exact Hu|]. split; [now exists (trace w3)|]. split; [exact Htmp|].
  exists mt. now rewrite Hl, Hdata.
Qed.





(** When nothing fails, a download that returns leaves a well-formed
    directory and its own pass in flight, started well. *)
Lemma download_success_state fuel w u w' :
  noFault env -> wellFormed (fs w) ->
  downloadToCache env fuel url fileName w = Some (inr u, w') ->
  wellFormed (fs w') /\ inFlight w' = (inFlight w ++ [inr tt])%list.
Proof.
  intros Hq W. rewrite downloadToCache_phases.
  pose proof (Tidy_prepare env url (fileName ++ ".tmp") w) as Tp.
  destruct (prepare env url (fileName ++ ".tmp") w) as [[e0|total] w0] eqn:Pr; simpl in Tp.
  { destruct (cleanup_run env fileName e0 w0) as [w2 [Hc _]]. rewrite Hc. discriminate. }
  apply prepare_result in Pr. subst total.
  destruct (transfer env fuel url (fileName ++ ".tmp") (probe env url) w0)
    as [[[e0|t] w3]|] eqn:T; [| |discriminate].
  { destruct (cleanup_run env fileName e0 w3) as [w2 [Hc _]]. rewrite Hc. discriminate. }
  pose proof (transfer_tidy env _ _ _ _ _ _ _ T) as Tt.
  destruct (tidy_trans _ _ _ Tp Tt) as [W3 F3]. specialize (W3 W).
  unfold tryCatch.
  destruct (promote_cases env fileName w3)
    as [[e1 [w4 [E _]]]|[f [r [res [w4 [L [_ [E [_ [Hfs [_ [Hfl Hr]]]]]]]]]]]];
    rewrite E.
  { destruct (cleanup_run env fileName e1 w4) as [w2 [Hc _]]. rewrite Hc. discriminate. }
  destruct res as [e1|a].
  { destruct (cleanup_run env fileName e1 w4) as [w2 [Hc _]]. rewrite Hc. discriminate. }
  intros H. injection H as _ <-. split.
  - rewrite Hfs. now apply (wellFormed_rename (fs w3) (fileName ++ ".tmp") f).
  - rewrite Hfl, F3, Hr; [reflexivity|apply Hq|].
    now apply (wellFormed_listed (fs w3) (fileName ++ ".tmp") f).
Qed.

(** Property X19. A download that returns, returns the URI of the final
    name; the file of that name then holds the whole payload, the temp file
    is gone, and the last calls were the rename, the start of the eviction
    pass with its first [readdir], and the URI lookup. *)
Theorem download_success_installs_whole_payload fuel w u w' :
  downloadToCache env fuel url fileName w = Some (inr u, w') ->
  u = uriOf env (CACHE_DIR ++ "/" ++ fileName) /\
  (exists before,
     trace w' = (before ++ closingOps (fileName ++ ".tmp") fileName)%list) /\
  lookupFile (fileName ++ ".tmp") (fs w') = None /\
  exists mt, lookupFile fileName (fs w') =
    Some {| f_name := fileName; f_data := fullPayload env url; f_mtime := mt |}.
Proof. apply download_done. Qed.


(** Property X21. When nothing fails and no other pass is in flight,
    [getCachedFile] finds the file of a download that returned, and gives
    the same URI, both before the pass the download started has run and
    after it, provided the file is then the newest of the cache and not
    larger than 2 GiB. When the server sent no byte it answers [null]. *)
Theorem downloaded_file_is_found_after_its_pass fuel w u w' f :
  noFault env -> wellFormed (fs w) -> inFlight w = [] ->
  downloadToCache env fuel url fileName w = Some (inr u, w') ->
  lookupFile fileName (fs w') = Some f ->
  (forall g, In g (cached (fs w')) -> g <> f -> f_mtime g < f_mtime f) ->
  f_size f <= MAX_CACHE_SIZE_BYTES ->
  f_size f = payloadBytes (fullPayload env url) /\
  fst (getCachedFile env fileName w') =
    inr (if f_size f =? 0 then None else Some u) /\
  lookupFile fileName (fs (finishPass env w')) = Some f /\
  fst (getCachedFile env fileName (finishPass env w')) =
    inr (if f_size f =? 0 then None else Some u).
Proof.
  intros Hq W Hfl D L Hnew Hsz.
  destruct (download_success_state fuel w u w' Hq W D) as [W' Fl].
  rewrite Hfl in Fl. cbn [app] in Fl.
  apply download_done in D as [-> [_ [_ [mt L']]]].
  rewrite L in L'. injection L' as Ef.
  split; [now rewrite Ef|].
  split; [apply (getCachedFile_found env fileName w' f L), Hq|].
  assert (Hd : dirExists (fs w') = true) by exact (wellFormed_listed _ _ _ W' L).
  assert (Lp : lookupFile fileName (fs (finishPass env w')) = Some f).
  { unfold finishPass. rewrite Fl.
    rewrite passAfter_run; cbn [fs]; [|exact Hq|exact Hd|apply W'].
    cbn [snd advance fs]. unfold lookupFile, without. cbn [entries].
    rewrite lookup_removeAll_other; [exact L|].
    assert (En : f_name f = fileName) by exact (lookup_name fileName (fs w') f L).
    rewrite <- En.
    destruct (Js.endsWith (f_name f) ".tmp") eqn:T.
    - intros Hin. apply in_map_iff in Hin as [x [Ex Hx]].
      apply (selected_counted env) in Hx. rewrite Ex in Hx. congruence.
    - apply newest_not_selected; [apply W'| |exact Hnew|exact Hsz].
      apply filter_In. split; [|now rewrite T].
      unfold lookupFile in L. apply find_some in L. apply L. }
  split; [exact Lp|].
  apply (getCachedFile_found env fileName _ f Lp), Hq.
Qed.

Lemma tiles_span rs : forall lo hi,
  tiles lo rs hi ->
  fold_right (fun r acc => snd r - fst r + 1 + acc) 0 rs = hi - lo + 1.
Proof.
  induction rs as [|[a b] rs IH]; intros lo hi H; simpl in *.
  - lia.
  - destruct H as [-> [_ [_ H]]]. rewrite (IH _ _ H). lia.
Qed.

Lemma payloadBytes_ranges rs :
  (forall r, In r rs -> Z.of_N (bytes (payload env url r)) = snd r - fst r + 1) ->
  payloadBytes (map (payload env url) rs) =
  fold_right (fun r acc => snd r - fst r + 1 + acc) 0 rs.
Proof.
  induction rs as [|r rs IH]; intros H; simpl; [reflexivity|].
  rewrite (H r (or_introl eq_refl)), IH; [reflexivity|].
  intros q Hq. apply H. now right.
Qed.

Lemma chunked_size n :
  LARGE_FILE_BYTES < n -> n <= 2 ^ 53 -> probe env url = Num n ->
  (forall r, In r (chunkRanges n) ->
     Z.of_N (bytes (payload env url r)) = snd r - fst r + 1) ->
  payloadBytes (fullPayload env url) = n.
Proof.
  intros Hn Hs Hp Hr. unfold fullPayload. rewrite Hp.
  assert (U : useChunks (Num n) = true) by now apply useChunks_large.
  rewrite U. cbn [knownSize].
  rewrite payloadBytes_ranges by exact Hr.
  rewrite (tiles_span _ 0 (n - 1)); [lia|].
  apply chunkRanges_tiles; [unfold LARGE_FILE_BYTES in Hn; lia|exact Hs].
Qed.

(** Property X22. When the server sends for each range the bytes asked
    for, a chunked download that returns leaves a file of exactly the
    size the probe has read, for a size of at most [2 ^ 53] bytes. *)
Theorem chunked_download_has_announced_size fuel w u w' n :
  downloadToCache env fuel url fileName w = Some (inr u, w') ->
  probe env url = Num n -> LARGE_FILE_BYTES < n -> n <= 2 ^ 53 ->
  (forall r, In r (chunkRanges n) ->
     Z.of_N (bytes (payload env url r)) = snd r - fst r + 1) ->
  exists f, lookupFile fileName (fs w') = Some f /\ f_size f = n.
Proof.
  intros D Hp Hn Hs Hr. apply download_done in D as [_ [_ [_ [mt L]]]].
  eexists. split; [exact L|]. unfold f_size. cbn [f_data].
  now apply chunked_size.
Qed.

End Downloads.

Section Background.

Variable env : Env.
Variable API_BASE_URL : string.
Variable token : option string.
Variable currentChapterId : option string.





End Background.

Lemma tiles_ordered rs : forall lo hi r,
  tiles lo rs hi -> In r rs -> fst r <= snd r.
Proof.
  induction rs as [|[a b] rs IH]; intros lo hi r H Hr; [destruct Hr|].
  simpl in H. destruct H as [_ [Hab [_ H]]].
  destruct Hr as [<-|Hr]; [exact Hab|]. exact (IH _ _ r H Hr).
Qed.

(** The model server sends the bytes a range asks for. *)
Lemma server_honours_ranges len failing url n r :
  0 < n -> n <= 2 ^ 53 -> In r (chunkRanges n) ->
  Z.of_N (bytes (payload (server len failing) url r)) = snd r - fst r + 1.
Proof.
  intros Hn Hs Hr.
  pose proof (tiles_ordered _ _ _ r (chunkRanges_tiles n Hn Hs) Hr) as Hle.
  destruct r as [a b]. simpl in *. rewrite Z2N.id; lia.
Qed.

(** A length above [2 ^ 53] is not read as it is written. *)
Lemma probe_rounds_large_sizes :
  probe (server "9007199254740993" never) "u" = Num 9007199254740992.
Proof. vm_compute. reflexivity. Qed.

(** A body of 3 GiB is installed by its download and deleted, with the
    rest of the cache, by the pass the download has started. *)
Lemma oversized_download_is_evicted :
  exists w',
    downloadToCache bulky 0 "u" "big.mp3" oneFile
      = Some (inr "file:///data/media_cache/big.mp3", w') /\
    option_map f_size (lookupFile "big.mp3" (fs w')) = Some (3 * GiB) /\
    inFlight w' = [inr tt] /\
    entries (fs (finishPass bulky w')) = [].
Proof. eexists. split; [vm_compute; reflexivity|]. vm_compute. auto. Qed.

(** [getCacheStats_counts_what_it_lists] when one of the four files
    cannot be examined. *)
Lemma getCacheStats_counts_what_it_lists_witness :
  exists st,
    fst (getCacheStats (server "0" (failingAt 3)) fourGiB) = inr st /\
    totalSize st = sumSizes (validFiles st) /\
    List.length (validFiles st) = 3%nat.
Proof.
  destruct (getCacheStats_counts_what_it_lists (server "0" (failingAt 3)) fourGiB)
    as [st [R [T _]]].
  exists st. split; [exact R|]. split; [exact T|].
  vm_compute in R. inversion R. reflexivity.
Defined.

(** [eviction_only_deletes_counted_files] at the temp file of [fourGiB]. *)
Lemma eviction_only_deletes_counted_files_witness :
  lookupFile "e.mp3.tmp" (fs (snd (ensureCacheLimits (server "0" (failingAt 7)) fourGiB))) =
  lookupFile "e.mp3.tmp" (fs fourGiB).
Proof.
  destruct (eviction_only_deletes_counted_files (server "0" (failingAt 7)) fourGiB
              "e.mp3.tmp") as [_ H].
  apply H. reflexivity.
Defined.

(** [eviction_spares_cache_within_limits] at two small files, one of
    which cannot be examined. *)
Lemma eviction_spares_cache_within_limits_witness :
  entries (fs (snd (ensureCacheLimits (server "0" (failingAt 2)) oneFile))) =
  entries (fs oneFile).
Proof.
  apply (eviction_spares_cache_within_limits (server "0" (failingAt 2)) oneFile).
  - apply (distinctb_NoDup String.eqb); [apply String.eqb_refl|vm_compute; reflexivity].
  - vm_compute. lia.
  - vm_compute. discriminate.
Defined.

(** [removeCachedFile_reports] at a file that is there. *)
Lemma removeCachedFile_reports_witness :
  fst (removeCachedFile (server "0" never) "a.mp3" oneFile) = inr true /\
  lookupFile "a.mp3" (fs (snd (removeCachedFile (server "0" never) "a.mp3" oneFile))) = None.
Proof.
  destruct (removeCachedFile_reports (server "0" never) "a.mp3" oneFile) as [_ [_ [H _]]].
  apply H; [reflexivity|discriminate].
Defined.

(** [eviction_twice_is_eviction_once] at four files of 1 GiB. *)
Lemma eviction_twice_is_eviction_once_witness :
  fs (snd (ensureCacheLimits (server "0" never)
             (snd (ensureCacheLimits (server "0" never) fourGiB)))) =
  fs (snd (ensureCacheLimits (server "0" never) fourGiB)).
Proof.
  apply (eviction_twice_is_eviction_once (server "0" never) fourGiB).
  - apply never_noFault.
  - apply worldOf_wellFormed. vm_compute. reflexivity.
Defined.

(** [newest_file_survives_eviction] at four files of 1 GiB. *)
Lemma newest_file_survives_eviction_witness :
  lookupFile "a.mp3" (fs (snd (ensureCacheLimits (server "0" never) fourGiB))) =
    Some (fileOf "a.mp3" GiB 4).
Proof.
  apply (newest_file_survives_eviction (server "0" never) fourGiB (fileOf "a.mp3" GiB 4)).
  - apply never_noFault.
  - apply worldOf_wellFormed. vm_compute. reflexivity.
  - vm_compute. left. reflexivity.
  - intros g Hg Hne. vm_compute in Hg.
    destruct Hg as [<-|[<-|[<-|[<-|[]]]]]; try reflexivity. now elim Hne.
  - vm_compute. discriminate.
Defined.

(** [getCachedFile_answers_for_sound_files_only] at a missing file. *)
Lemma getCachedFile_answers_for_sound_files_only_witness :
  fst (getCachedFile (server "0" never) "missing.mp3" oneFile) = inr None.
Proof.
  destruct (getCachedFile_answers_for_sound_files_only (server "0" never) "missing.mp3"
              oneFile) as [r [R [_ [H _]]]].
  destruct (H eq_refl) as [E _]. rewrite R, E. reflexivity.
Defined.

(** [download_success_installs_whole_payload] at a chunked download. *)
Lemma download_success_installs_whole_payload_witness :
  let env := server "52428801" never in
  exists w',
    downloadToCache env 51 "u" "a.mp3" oneFile
      = Some (inr "file:///data/media_cache/a.mp3", w') /\
    lookupFile "a.mp3.tmp" (fs w') = None /\
    exists mt, lookupFile "a.mp3" (fs w') =
      Some {| f_name := "a.mp3"; f_data := fullPayload env "u"; f_mtime := mt |}.
Proof.
  intros env.
  set (w' := match downloadToCache env 51 "u" "a.mp3" oneFile with
             | Some (_, x) => x
             | None => oneFile
             end).
  assert (H : downloadToCache env 51 "u" "a.mp3" oneFile
              = Some (inr "file:///data/media_cache/a.mp3", w'))
    by (vm_compute; reflexivity).
  exists w'. split; [exact H|].
  destruct (download_success_installs_whole_payload env "u" "a.mp3" 51 oneFile _ w' H)
    as [_ [_ H1]].
  exact H1.
Defined.


(** [downloaded_file_is_found_after_its_pass] at a single transfer of 7
    bytes. *)
Lemma downloaded_file_is_found_after_its_pass_witness :
  let env := server "5" never in
  exists w',
    downloadToCache env 0 "u" "n.mp3" oneFile
      = Some (inr "file:///data/media_cache/n.mp3", w') /\
    fst (getCachedFile env "n.mp3" (finishPass env w')) =
      inr (Some "file:///data/media_cache/n.mp3").
Proof.
  intros env.
  set (w' := match downloadToCache env 0 "u" "n.mp3" oneFile with
             | Some (_, x) => x
             | None => oneFile
             end).
  assert (H : downloadToCache env 0 "u" "n.mp3" oneFile
              = Some (inr "file:///data/media_cache/n.mp3", w'))
    by (vm_compute; reflexivity).
  exists w'. split; [exact H|].
  destruct (downloaded_file_is_found_after_its_pass env "u" "n.mp3" 0 oneFile
              "file:///data/media_cache/n.mp3" w'
              {| f_name := "n.mp3"; f_data := [{| bytes := 7; tag := 1 |}]; f_mtime := 4 |}
              (never_noFault "5")) as [_ [_ [_ H4]]].
  - apply worldOf_wellFormed. vm_compute. reflexivity.
  - reflexivity.
  - exact H.
  - vm_compute. reflexivity.
  - intros g Hg Hne. vm_compute in Hg.
    destruct Hg as [<-|[<-|[<-|[]]]]; try reflexivity. now elim Hne.
  - vm_compute. discriminate.
  - exact H4.
Defined.

(** [chunked_download_has_announced_size] at a file one byte above 50 MiB. *)
Lemma chunked_download_has_announced_size_witness :
  let env := server "52428801" never in
  exists w' f,
    downloadToCache env 51 "u" "a.mp3" oneFile
      = Some (inr "file:///data/media_cache/a.mp3", w') /\
    lookupFile "a.mp3" (fs w') = Some f /\
    f_size f = 52428801.
Proof.
  intros env.
  set (w' := match downloadToCache env 51 "u" "a.mp3" oneFile with
             | Some (_, x) => x
             | None => oneFile
             end).
  assert (H : downloadToCache env 51 "u" "a.mp3" oneFile
              = Some (inr "file:///data/media_cache/a.mp3", w'))
    by (vm_compute; reflexivity).
  destruct (chunked_download_has_announced_size env "u" "a.mp3" 51 oneFile _ w' 52428801 H)
    as [f Hf].
  - vm_compute. reflexivity.
  - vm_compute. reflexivity.
  - vm_compute. discriminate.
  - intros r Hr.
    apply (server_honours_ranges "52428801" never "u" 52428801 r);
      [lia|vm_compute; discriminate|exact Hr].
  - exists w', f. split; [exact H|exact Hf].
Defined.

(** [size_probe_selects_transfer] at a file one byte above 50 MiB, and at
    a length that no double holds. *)
Lemma size_probe_selects_transfer_witness :
  probe (server "52428801" never) "u" = Num 52428801 /\
  useChunks (probe (server "52428801" never) "u") = true /\
  probe (server "9007199254740993" never) "u" = Num 9007199254740992.
Proof.
  destruct (size_probe_selects_transfer (server "52428801" never) "u") as [H _].
  destruct (H 52428801%N) as [_ [Hp Hu]].
  - right. split; vm_compute; reflexivity.
  - split; [apply Hp; vm_compute; discriminate|].
    split; [apply Hu; vm_compute; reflexivity|].
    destruct (size_probe_selects_transfer (server "9007199254740993" never) "u")
      as [H' _].
    destruct (H' 9007199254740993%N) as [Hp' _].
    + right. split; vm_compute; reflexivity.
    + rewrite Hp'. vm_compute. reflexivity.
Defined.


End CacheLaws.
